(** * topo_visualizer: the graph core

    A shallow embedding of the graph core of the topology visualizer
    (topology generators, adjacency builder, breadth-first search, metrics
    aggregation, path reconstruction, the metrics panel and the choice of
    the paths to highlight) together with the properties its specification
    states about it and the general properties of the code behind them.

    Modelling conventions.
    - JavaScript numbers that hold node ids, counters and hop counts are
      integers far below 2^53; they are modelled as [Z].  Generator
      parameters are the integers that [parseInt] hands over, so they are
      [Z] too (any sign, any size).
    - [Infinity] and [NaN] are explicit constructors of [num].
    - A JavaScript [Map] is an insertion-ordered association list
      ([JsMap]): [forEach] visits the entries in insertion order and
      [set] on an existing key keeps its position.
    - A JavaScript [Set] of strings is a [gset string]; the edge keys are
      the very strings the template literal builds.
    - [console.warn] output of the generators is returned next to the
      result ([logged]).
    - Loops over [0 .. n-1] are folds over [seqZ 0 n].  The [while] loop
      of [bfs] has no bound in the source; the model gives it fuel and
      [bfs_total] shows that the fuel always suffices.  A read of a grid
      cell in [generateMesh] may in principle miss; the model answers
      [None] there and [generateMesh_total] shows that it never does.
    - The only non-integer arithmetic, the final quotient of
      [calculateGraphMetrics] and its [toFixed(3)], is taken over exact
      rationals.

    - [generateGraphAndMetrics] is modelled from the point where the
      topology type and the parameters have been read from the page: the
      parameters are a finite map from their names to integers, a missing
      entry standing for a [NaN] of [parseInt].  Of
      [highlightDiameterPath] the model keeps the paths that are drawn, not
      the drawing.  The scene and the page are not modelled.

    The file has three parts: the program, the vocabulary in which its
    specification is stated together with the loop invariants, and the
    properties.  The properties come in two groups: those that the
    specification states, and from [bfs_tree] on the behaviour of each
    function on all its inputs. *)

From Stdlib Require Import ZArith QArith Qround Qabs Lia Lqa Ascii String.
From stdpp Require Import base numbers option list list_numbers strings pretty gmap.

Local Open Scope Z_scope.

(** ** Numbers *)

Inductive num : Type :=
| Num (z : Z)
| Infinity
| NaN.

Global Instance num_eq_dec : EqDecision num.
Proof. solve_decision. Defined.

(** [x + 1] where [x] is the result of a [Map.get]: [undefined + 1] is
    [NaN]. *)
Definition add1 (x : option num) : num :=
  match x with
  | Some (Num z) => Num (z + 1)
  | Some Infinity => Infinity
  | Some NaN => NaN
  | None => NaN
  end.

(** [Math.max] on two numbers. *)
Definition js_max (a b : num) : num :=
  match a, b with
  | NaN, _ | _, NaN => NaN
  | Infinity, _ | _, Infinity => Infinity
  | Num x, Num y => Num (Z.max x y)
  end.

(** ** Insertion-ordered maps *)

Definition JsMap (V : Type) : Type := list (Z * V).

Fixpoint jsmap_get {V} (m : JsMap V) (k : Z) : option V :=
  match m with
  | [] => None
  | (k', v) :: m' => if decide (k' = k) then Some v else jsmap_get m' k
  end.

Fixpoint jsmap_set {V} (m : JsMap V) (k : Z) (v : V) : JsMap V :=
  match m with
  | [] => [(k, v)]
  | (k', v') :: m' =>
      if decide (k' = k) then (k, v) :: m' else (k', v') :: jsmap_set m' k v
  end.

Definition jsmap_size {V} (m : JsMap V) : nat := length m.

Definition jsmap_keys {V} (m : JsMap V) : list Z := m.*1.

(** [m.forEach((value, key) => ...)] threading an accumulator. *)
Definition jsmap_forEach {V A} (f : A → V → Z → A) (m : JsMap V) (a : A) : A :=
  foldl (λ acc kv, f acc kv.2 kv.1) a m.

(** ** Graphs *)

(** Nodes carry topology-specific metadata: nothing for a ring, grid
    coordinates for mesh and torus, the binary label for a hypercube. *)
Inductive node : Type :=
| RingNode (i : Z)
| GridNode (i row col : Z)
| CubeNode (i : Z) (binary : string).

Definition node_id (n : node) : Z :=
  match n with
  | RingNode i | GridNode i _ _ | CubeNode i _ => i
  end.

Record edge : Type := Edge { source : Z; target : Z }.

Record graph : Type := Graph { nodes : list node; edges : list edge }.

Global Instance edge_eq_dec : EqDecision edge.
Proof. solve_decision. Defined.

Global Instance node_eq_dec : EqDecision node.
Proof. solve_decision. Defined.

(** A result together with the [console.warn] lines emitted on the way. *)
Record logged (A : Type) : Type := Logged { value : A; warned : list string }.
Arguments Logged {A} _ _.
Arguments value {A} _.
Arguments warned {A} _.

(** ** Topology generators *)

(** The template literal [`${min}-${max}`]. *)
Definition edgeKey (min max : Z) : string :=
  pretty min +:+ "-" +:+ pretty max.

(** The two variables the [addEdge] closures share with their generator. *)
Record edge_acc : Type :=
  EdgeAcc { acc_edges : list edge; addedEdges : gset string }.

Definition no_edges : edge_acc := EdgeAcc [] ∅.

(** [addEdge(u, v)] of [generateRing] and [generateTorus]. *)
Definition addEdge (st : edge_acc) (u v : Z) : edge_acc :=
  let min := Z.min u v in
  let max := Z.max u v in
  let edgeKey := edgeKey min max in
  if bool_decide (edgeKey ∉ addedEdges st) && bool_decide (min ≠ max)
  then EdgeAcc (acc_edges st ++ [Edge u v]) ({[edgeKey]} ∪ addedEdges st)
  else st.

Definition ring_warning (skip validSkip n : Z) : string :=
  "Provided skip " +:+ pretty skip +:+ " adjusted to " +:+ pretty validSkip
    +:+ " for n=" +:+ pretty n.

Definition generateRing (n skip : Z) : logged graph :=
  if bool_decide (n < 1) then Logged (Graph [] []) []
  else
    let maxSkip := Z.max 1 (n `div` 2) in
    let validSkip := Z.max 1 (Z.min skip maxSkip) in
    let log :=
      if bool_decide (skip ≠ validSkip)
      then [ring_warning skip validSkip n] else [] in
    let nodes := RingNode <$> seqZ 0 n in
    if bool_decide (n ≤ 1) then Logged (Graph nodes []) log
    else
      let base :=
        foldl (λ st i, addEdge st i ((i + 1) `rem` n)) no_edges (seqZ 0 n) in
      let all :=
        if bool_decide (1 < validSkip) && bool_decide (3 ≤ n)
        then foldl (λ st i, addEdge st i ((i + validSkip) `rem` n)) base (seqZ 0 n)
        else base in
      Logged (Graph nodes (acc_edges all)) log.

(** [generateMesh] keeps a counter and a grid of the ids handed out so
    far; [nodeGrid] is a sparse array of sparse arrays. *)
Record mesh_state : Type := MeshState {
  mesh_nodes : list node;
  mesh_edges : list edge;
  idCounter : Z;
  nodeGrid : gmap Z (gmap Z Z)
}.

(** [nodeGrid[r][c]]; [None] stands for reading a cell that was never
    written. *)
Definition grid_at (g : gmap Z (gmap Z Z)) (r c : Z) : option Z :=
  g !! r ≫= λ line, line !! c.

Definition mesh_cell (r : Z) (st : mesh_state) (c : Z) : option mesh_state :=
  let nodeId := idCounter st in
  let nodes := mesh_nodes st ++ [GridNode nodeId r c] in
  let grid := alter (λ line, <[c := nodeId]> line) r (nodeGrid st) in
  edges1 ←
    (if bool_decide (0 < c)
     then left ← grid_at grid r (c - 1); Some (mesh_edges st ++ [Edge nodeId left])
     else Some (mesh_edges st));
  edges2 ←
    (if bool_decide (0 < r)
     then up ← grid_at grid (r - 1) c; Some (edges1 ++ [Edge nodeId up])
     else Some edges1);
  Some (MeshState nodes edges2 (nodeId + 1) grid).

Definition mesh_row (cols : Z) (st : mesh_state) (r : Z) : option mesh_state :=
  let st0 := MeshState (mesh_nodes st) (mesh_edges st) (idCounter st)
               (<[r := ∅]> (nodeGrid st)) in
  foldl (λ acc c, acc ≫= λ s, mesh_cell r s c) (Some st0) (seqZ 0 cols).

(** [None] would mean that an edge endpoint was read from an unwritten
    grid cell; [generateMesh_total] shows that this never happens. *)
Definition generateMesh (rows cols : Z) : option graph :=
  if bool_decide (rows < 1) || bool_decide (cols < 1) then Some (Graph [] [])
  else
    st ← foldl (λ acc r, acc ≫= λ s, mesh_row cols s r)
           (Some (MeshState [] [] 0 ∅)) (seqZ 0 rows);
    Some (Graph (mesh_nodes st) (mesh_edges st)).

Definition nodeAt (rows cols r c : Z) : Z :=
  let wrappedRow := (r + rows) `rem` rows in
  let wrappedCol := (c + cols) `rem` cols in
  wrappedRow * cols + wrappedCol.

Definition torus_cell (rows cols r : Z) (st : edge_acc) (c : Z) : edge_acc :=
  let currentNodeId := nodeAt rows cols r c in
  let st1 :=
    if bool_decide (1 < rows)
    then addEdge st currentNodeId (nodeAt rows cols (r + 1) c) else st in
  if bool_decide (1 < cols)
  then addEdge st1 currentNodeId (nodeAt rows cols r (c + 1)) else st1.

Definition generateTorus (rows cols : Z) : graph :=
  if bool_decide (rows < 1) || bool_decide (cols < 1) then Graph [] []
  else
    let nodes :=
      r ← seqZ 0 rows; (λ c, GridNode (r * cols + c) r c) <$> seqZ 0 cols in
    let st :=
      foldl (λ st r, foldl (torus_cell rows cols r) st (seqZ 0 cols))
        no_edges (seqZ 0 rows) in
    Graph nodes (acc_edges st).

(** [i.toString(2)] for a non-negative integer (a negative one gets a
    minus sign in front of the digits of its absolute value). *)
Fixpoint bits (p : positive) : string :=
  match p with
  | xH => "1"
  | xO p' => bits p' +:+ "0"
  | xI p' => bits p' +:+ "1"
  end.

Definition toString2 (i : Z) : string :=
  match i with
  | Z0 => "0"
  | Zpos p => bits p
  | Zneg p => "-" +:+ bits p
  end.

Fixpoint zeros (k : nat) : string :=
  match k with
  | O => ""
  | S k' => String "0"%char (zeros k')
  end.

(** [s.padStart(d, '0')]. *)
Definition padStart (s : string) (d : Z) : string :=
  zeros (Z.to_nat d - String.length s) +:+ s.

Definition cube_warning (d : Z) : string :=
  "Hypercube dimension " +:+ pretty d
    +:+ " too large, may cause performance issues. Clamping to 10.".

Definition cube_edge (i : Z) (st : edge_acc) (j : Z) : edge_acc :=
  let neighborId := Z.lxor i (Z.shiftl 1 j) in
  let min := Z.min i neighborId in
  let max := Z.max i neighborId in
  let edgeKey := edgeKey min max in
  if bool_decide (edgeKey ∉ addedEdges st)
  then EdgeAcc (acc_edges st ++ [Edge i neighborId]) ({[edgeKey]} ∪ addedEdges st)
  else st.

Definition generateHypercube (d : Z) : logged graph :=
  let d0 := if bool_decide (d < 0) then 0 else d in
  let log := if bool_decide (10 < d0) then [cube_warning d0] else [] in
  let d1 := if bool_decide (10 < d0) then 10 else d0 in
  let n := 2 ^ d1 in
  let nodes := (λ i, CubeNode i (padStart (toString2 i) d1)) <$> seqZ 0 n in
  let st :=
    if bool_decide (0 < d1)
    then foldl (λ st i, foldl (cube_edge i) st (seqZ 0 d1)) no_edges (seqZ 0 n)
    else no_edges in
  Logged (Graph nodes (acc_edges st)) log.

(** ** Adjacency builder *)

(** [adj.get(u)?.push(v)]: nothing happens when [u] has no entry. *)
Definition push_neighbor (adj : JsMap (list Z)) (u v : Z) : JsMap (list Z) :=
  match jsmap_get adj u with
  | Some l => jsmap_set adj u (l ++ [v])
  | None => adj
  end.

Definition buildAdjacency (g : graph) : JsMap (list Z) :=
  let adj0 := foldl (λ adj n, jsmap_set adj (node_id n) []) [] (nodes g) in
  foldl (λ adj e,
           push_neighbor (push_neighbor adj (source e) (target e))
             (target e) (source e))
    adj0 (edges g).

(** ** Breadth-first search *)

Record bfs_state : Type := BfsState {
  distances : JsMap num;
  predecessors : JsMap (option Z);
  queue : list Z
}.

(** [adj.get(u) || []]. *)
Definition neighbors (adj : JsMap (list Z)) (u : Z) : list Z :=
  default [] (jsmap_get adj u).

(** The body of [for (const v of neighbors)]. *)
Definition visit (u : Z) (st : bfs_state) (v : Z) : bfs_state :=
  match jsmap_get (distances st) v with
  | Some Infinity =>
      BfsState (jsmap_set (distances st) v (add1 (jsmap_get (distances st) u)))
               (jsmap_set (predecessors st) v (Some u))
               (queue st ++ [v])
  | _ => st
  end.

(** [while (head < queue.length)]; the loop has no bound of its own, so
    the model counts iterations down from [fuel] and answers [None] when
    they run out. *)
Fixpoint bfs_loop (adj : JsMap (list Z)) (fuel head : nat) (st : bfs_state)
  : option bfs_state :=
  match queue st !! head with
  | None => Some st
  | Some u =>
      match fuel with
      | O => None
      | S fuel' =>
          bfs_loop adj fuel' (S head) (foldl (visit u) st (neighbors adj u))
      end
  end.

Definition bfs_init (startNodeId : Z) (allNodes : list node) : bfs_state :=
  let distances :=
    foldl (λ m n, jsmap_set m (node_id n) Infinity) [] allNodes in
  let predecessors :=
    foldl (λ m n, jsmap_set m (node_id n) (None : option Z)) [] allNodes in
  BfsState (jsmap_set distances startNodeId (Num 0)) predecessors [startNodeId].

Definition bfs (startNodeId : Z) (adj : JsMap (list Z)) (allNodes : list node)
  : option bfs_state :=
  bfs_loop adj (S (length allNodes)) 0 (bfs_init startNodeId allNodes).

(** ** Path reconstruction *)

(** The [while (current !== source && safety < maxPathLength)] loop;
    [budget] is [maxPathLength - safety].  [None] is the [null] the
    function returns after [console.error]. *)
Fixpoint walk_back (source : Z) (predecessors : JsMap (option Z))
    (budget : nat) (path : list Z) (current : Z) : option (list Z) :=
  if decide (current = source) then Some path
  else
    match budget with
    | O => None
    | S budget' =>
        match jsmap_get predecessors current with
        | Some (Some prev) =>
            walk_back source predecessors budget' (prev :: path) prev
        | _ => None
        end
    end.

Definition reconstructPath (source target : Z) (predecessors : JsMap (option Z))
  : option (list Z) :=
  walk_back source predecessors (jsmap_size predecessors) [target] target.

(** ** Metrics *)

(** A JavaScript number that may be a fraction. *)
Inductive fnum : Type :=
| Frac (q : Q)
| FInfinity.

Record metrics : Type := Metrics {
  diameter : num;
  avgPathLength : fnum;
  isConnected : bool
}.

(** [x.toFixed(3)] read back by [parseFloat]: the multiple of 1/1000
    nearest to [x], the larger one on a tie. *)
Definition toFixed3 (x : Q) : Q :=
  Qmake (Qfloor (x * (1000 # 1) + (1 # 2))%Q) 1000.

(** The variables of [calculateGraphMetrics] that live across sources. *)
Record totals : Type := Totals {
  maxDistance : num;
  totalPathLengthSum : Z;
  reachablePairsCount : Z;
  connected : bool;
  nodesInFirstComponent : Z
}.

(** The variables the [distances.forEach] callback updates. *)
Record tally : Type := Tally {
  currentMax : num;
  reachableCount : Z;
  tallySum : Z;
  tallyPairs : Z
}.

Definition count_distance (t : tally) (dist : num) (targetNodeId : Z) : tally :=
  match dist with
  | Infinity => t
  | Num z =>
      Tally (js_max (currentMax t) dist) (reachableCount t + 1)
            (if bool_decide (0 < z) then tallySum t + z else tallySum t)
            (if bool_decide (0 < z) then tallyPairs t + 1 else tallyPairs t)
  | NaN =>
      Tally (js_max (currentMax t) dist) (reachableCount t + 1)
            (tallySum t) (tallyPairs t)
  end.

Definition metrics_source (adj : JsMap (list Z)) (g : graph) (n : Z)
    (acc : option totals) (entry : nat * node) : option totals :=
  t ← acc;
  r ← bfs (node_id entry.2) adj (nodes g);
  let tl := jsmap_forEach count_distance (distances r)
              (Tally (Num 0) 0 (totalPathLengthSum t) (reachablePairsCount t)) in
  let '(conn, first) :=
    if decide (entry.1 = 0%nat)
    then (if bool_decide (reachableCount tl < n) then false else connected t,
          reachableCount tl)
    else if connected t && bool_decide (reachableCount tl ≠ nodesInFirstComponent t)
         then (false, nodesInFirstComponent t)
         else (connected t, nodesInFirstComponent t) in
  Some (Totals (js_max (maxDistance t) (currentMax tl)) (tallySum tl)
               (tallyPairs tl) conn first).

(** [None] only if a search ran out of fuel, which [bfs_total] excludes. *)
Definition calculateGraphMetrics (g : graph) (adj : JsMap (list Z))
  : option metrics :=
  let n := Z.of_nat (length (nodes g)) in
  if bool_decide (n ≤ 1) then Some (Metrics (Num 0) (Frac (0 # 1)) true)
  else
    t ← foldl (metrics_source adj g n) (Some (Totals (Num 0) 0 0 true 0))
          (imap pair (nodes g));
    let diameter := if connected t then maxDistance t else Infinity in
    let avgPathLength :=
      if connected t && bool_decide (0 < reachablePairsCount t)
      then Frac (toFixed3 (Qmake (totalPathLengthSum t)
                             (Z.to_pos (reachablePairsCount t))))
      else FInfinity in
    Some (Metrics diameter avgPathLength (connected t)).

(** ** The metrics panel *)

(** The two globals that [generateGraphAndMetrics] assigns and that
    [highlightDiameterPath] reads. *)
Record app_state : Type := AppState {
  graphData : graph;
  adjacencyList : JsMap (list Z)
}.

(** [params.x || d]: an absent parameter and a zero give the default. *)
Definition or_default (x : option Z) (d : Z) : Z :=
  match x with
  | Some v => if decide (v = 0) then d else v
  | None => d
  end.

(** The text of a span that shows a metric. *)
Inductive shown (A : Type) : Type :=
| Disconnected
| Shown (a : A).
Arguments Disconnected {A}.
Arguments Shown {A} _.

Record panel : Type := Panel {
  diameterSpan : shown num;
  avgPathLengthSpan : shown fnum;
  nodeCountSpan : nat;
  edgeCountSpan : nat
}.

(** [generateGraphAndMetrics] from the point where the topology type and
    the integer parameters have been read off the page: it picks the
    generator, builds the adjacency mapping, computes the metrics and fills
    the panel.  An unknown type leaves the previous graph in place. *)
Definition generateGraphAndMetrics (type : string) (params : gmap string Z)
    (st : app_state) : option (app_state * panel) :=
  graphData ←
    (if decide (type = "ring") then
       Some (value (generateRing (or_default (params !! "nodes") 12)
                      (or_default (params !! "skip") 1)))
     else if decide (type = "mesh") then
       generateMesh (or_default (params !! "rows") 4)
         (or_default (params !! "cols") 5)
     else if decide (type = "torus") then
       Some (generateTorus (or_default (params !! "rows") 4)
               (or_default (params !! "cols") 5))
     else if decide (type = "hypercube") then
       Some (value (generateHypercube (or_default (params !! "dimension") 3)))
     else Some (graphData st));
  let adjacencyList := buildAdjacency graphData in
  metrics ← calculateGraphMetrics graphData adjacencyList;
  Some (AppState graphData adjacencyList,
        Panel (match diameter metrics with
               | Infinity => Disconnected
               | x => Shown x
               end)
              (match avgPathLength metrics with
               | FInfinity => Disconnected
               | x => Shown x
               end)
              (length (nodes graphData))
              (length (edges graphData))).

(** ** Highlighting the paths to the furthest nodes *)




(** * Specification vocabulary *)

(** ** Undirected graphs and shortest paths *)

(** The node ids of a graph, in the order of its node list. *)
Definition ids (g : graph) : list Z := node_id <$> nodes g.

(** Two nodes of [g] are linked when some edge joins them, whichever way
    the edge was recorded. *)
Definition linked (g : graph) (u v : Z) : Prop :=
  u ∈ ids g ∧ v ∈ ids g ∧
  ∃ e, e ∈ edges g ∧
       ((source e = u ∧ target e = v) ∨ (source e = v ∧ target e = u)).

Global Instance linked_dec g u v : Decision (linked g u v).
Proof.
  refine (cast_if (decide (u ∈ ids g ∧ v ∈ ids g ∧
    Exists (λ e, (source e = u ∧ target e = v) ∨ (source e = v ∧ target e = u))
      (edges g))));
    unfold linked; rewrite Exists_exists in *; naive_solver.
Defined.

(** [hops R n u v]: there is a walk of [n] steps of [R] from [u] to [v]. *)
Inductive hops (R : Z → Z → Prop) : nat → Z → Z → Prop :=
| hops_O u : hops R 0 u u
| hops_S n u v w : hops R n u v → R v w → hops R (S n) u w.

Definition reachable (R : Z → Z → Prop) (u v : Z) : Prop := ∃ n, hops R n u v.

(** [n] is the length of a shortest walk from [u] to [v]. *)
Definition shortest (R : Z → Z → Prop) (u v : Z) (n : nat) : Prop :=
  hops R n u v ∧ ∀ m, hops R m u v → (n ≤ m)%nat.

(** A list of nodes is a walk when consecutive nodes are linked. *)
Fixpoint is_walk (g : graph) (p : list Z) : bool :=
  match p with
  | a :: (b :: _) as p' => bool_decide (linked g a b) && is_walk g p'
  | _ => true
  end.

(** Every element of the list is the recorded predecessor of the next one
    and one step of [R] away from it. *)
Fixpoint chained (P : JsMap (option Z)) (R : Z → Z → Prop) (p : list Z) : Prop :=
  match p with
  | a :: (b :: _) as p' =>
      (jsmap_get P b = Some (Some a) ∧ R a b) ∧ chained P R p'
  | _ => True
  end.

(** Every node can be reached from every other over the links of the
    graph. *)
Definition connected_graph (g : graph) : Prop :=
  ∀ a b, a ∈ ids g → b ∈ ids g → reachable (linked g) a b.

(** The links that an adjacency mapping presents to a search over
    [allNodes]: [v] is listed under [u] and has an entry of its own in the
    distance map.  Nothing is assumed about the mapping: it may be
    asymmetric and may list ids that are not nodes. *)
Definition listed (adj : JsMap (list Z)) (allNodes : list node) (u v : Z) : Prop :=
  v ∈ neighbors adj u ∧ v ∈ node_id <$> allNodes.

(** Every element of the list is the recorded predecessor of the next. *)
Definition pred_chain (P : JsMap (option Z)) (p : list Z) : Prop :=
  chained P (λ _ _, True) p.

(** ** The invariants of a generated graph *)

(** The unordered pair [{a, b}], smaller end first. *)
Definition pair_of (a b : Z) : Z * Z := (Z.min a b, Z.max a b).

(** The unordered pair behind an edge. *)
Definition unordered (e : edge) : Z * Z :=
  (Z.min (source e) (target e), Z.max (source e) (target e)).

(** Edges stay inside [[0, n)] and are not loops. *)
Definition edge_ok (n : Z) (e : edge) : Prop :=
  source e ≠ target e ∧ 0 ≤ source e < n ∧ 0 ≤ target e < n.

(** The node ids are [0 .. n-1] in order, every edge joins two different
    nodes of that range, and no unordered pair occurs twice. *)
Definition well_formed (g : graph) : Prop :=
  ids g = seqZ 0 (Z.of_nat (length (nodes g))) ∧
  Forall (edge_ok (Z.of_nat (length (nodes g)))) (edges g) ∧
  NoDup (unordered <$> edges g).

(** The other ends of the edge ends at [u], in the order of the edge list;
    an edge from [u] to [u] contributes [u] twice. *)
Definition partners (u : Z) (es : list edge) : list Z :=
  es ≫= λ e,
    (if decide (source e = u) then [target e] else [])
    ++ (if decide (target e = u) then [source e] else []).

(** Number of edge ends that touch [v]. *)
Definition degree (g : graph) (v : Z) : nat :=
  (length (filter (λ e, source e = v) (edges g))
   + length (filter (λ e, target e = v) (edges g)))%nat.

(** ** Generator parameters *)

(** [skip] clamped into [[1, max(1, floor(n / 2))]]. *)
Definition clamp_skip (n skip : Z) : Z :=
  Z.max 1 (Z.min skip (Z.max 1 (n `div` 2))).

(** The hypercube dimension clamped into [[0, 10]]. *)
Definition clamp_dimension (d : Z) : Z := Z.max 0 (Z.min d 10).

(** The [k]-character string of the low [k] bits of [i], most significant
    first. *)
Fixpoint bitstring (k : nat) (i : Z) : string :=
  match k with
  | O => ""
  | S k' =>
      String (if Z.testbit i (Z.of_nat k') then "1" else "0")%char (bitstring k' i)
  end.

(** ** Distances over all pairs *)

Definition sumZ {A} (f : A → Z) (l : list A) : Z :=
  foldr (λ x acc, f x + acc) 0 l.

(** The largest of [init] and the values of [f] on [l]. *)
Definition maxZ {A} (f : A → Z) (l : list A) (init : Z) : Z :=
  foldl (λ m x, Z.max m (f x)) init l.

(** Sum and number of the ordered pairs of different nodes. *)
Definition pair_sum (d : Z → Z → Z) (l : list Z) : Z :=
  sumZ (λ a, sumZ (λ b, if decide (a = b) then 0 else d a b) l) l.

Definition pair_count (l : list Z) : Z :=
  sumZ (λ a, sumZ (λ b, if decide (a = b) then 0 else 1) l) l.

(** The distance that a search from [a] records for [b]. *)
Definition hop_count (g : graph) (a b : Z) : Z :=
  match bfs a (buildAdjacency g) (nodes g) with
  | Some r =>
      match jsmap_get (distances r) b with
      | Some (Num k) => k
      | _ => 0
      end
  | None => 0
  end.

(** ** Sample graphs *)

Definition ring12 : graph := value (generateRing 12 1).

(** Two disjoint triangles in one graph object. *)
Definition two_rings : graph :=
  Graph (RingNode <$> [0; 1; 2; 3; 4; 5])
        [Edge 0 1; Edge 1 2; Edge 2 0; Edge 3 4; Edge 4 5; Edge 5 3].

(** * Loop invariants *)

(** ** Breadth-first search *)

(** Number of entries of a predecessor map that hold a node. *)
Fixpoint linked_preds (P : JsMap (option Z)) : nat :=
  match P with
  | [] => 0
  | (_, Some _) :: P' => S (linked_preds P')
  | (_, None) :: P' => linked_preds P'
  end.

(** The invariant of the [while] loop; [h] is the queue index of the node
    whose neighbours are being scanned, or of the next node to dequeue.
    Finite distances are lengths of walks and belong to queued nodes; the
    queue is sorted by distance and spans at most two levels from position
    [h] on; the links of the nodes before [h] are relaxed; predecessors of
    queued nodes are one level up. *)
Record bfs_inv (allNodes : list node) (start : Z) (R : Z → Z → Prop)
    (h : nat) (st : bfs_state) : Prop := BfsInv {
  inv_keysD : jsmap_keys (distances st)
              = jsmap_keys (distances (bfs_init start allNodes));
  inv_keysP : jsmap_keys (predecessors st)
              = jsmap_keys (predecessors (bfs_init start allNodes));
  inv_start : jsmap_get (distances st) start = Some (Num 0);
  inv_dist : ∀ v x, jsmap_get (distances st) v = Some x →
    x = Infinity ∨
    ∃ n : nat, x = Num (Z.of_nat n) ∧ v ∈ queue st ∧ hops R n start v;
  inv_queue : ∀ v, v ∈ queue st →
    ∃ n : nat, jsmap_get (distances st) v = Some (Num (Z.of_nat n));
  inv_sorted : ∀ i j vi vj ni nj,
    (i ≤ j)%nat → queue st !! i = Some vi → queue st !! j = Some vj →
    jsmap_get (distances st) vi = Some (Num ni) →
    jsmap_get (distances st) vj = Some (Num nj) → ni ≤ nj;
  inv_front : ∀ u nu v nv,
    queue st !! h = Some u → jsmap_get (distances st) u = Some (Num nu) →
    v ∈ queue st → jsmap_get (distances st) v = Some (Num nv) → nv ≤ nu + 1;
  inv_done : ∀ i u v,
    (i < h)%nat → queue st !! i = Some u → R u v →
    ∃ nu nv, jsmap_get (distances st) u = Some (Num nu) ∧
             jsmap_get (distances st) v = Some (Num nv) ∧ nv ≤ nu + 1;
  inv_pred : ∀ v, v ∈ queue st → v ≠ start →
    ∃ u nu, jsmap_get (predecessors st) v = Some (Some u) ∧
            jsmap_get (distances st) u = Some (Num nu) ∧
            jsmap_get (distances st) v = Some (Num (nu + 1)) ∧ R u v;
  inv_null : ∀ v, jsmap_get (distances st) v = Some Infinity →
    jsmap_get (predecessors st) v = Some None;
  inv_len : length (queue st) = S (linked_preds (predecessors st));
  inv_bound : ∀ v n, jsmap_get (distances st) v = Some (Num n) →
    n < Z.of_nat (length (queue st))
}.

(** What the loop maintains about the queue and the predecessor map
    besides [bfs_inv]: no node is queued twice, and only queued nodes other
    than the start get a predecessor. *)
Record pred_inv (start : Z) (st : bfs_state) : Prop := PredInv {
  pinv_NoDup : NoDup (queue st);
  pinv_head : head (queue st) = Some start;
  pinv_back : ∀ v u, jsmap_get (predecessors st) v = Some (Some u) →
    v ≠ start ∧ v ∈ queue st
}.

(** ** Distances in the generated graphs *)

(** The distance round a cycle of [n] places between the places [a] and
    [b]: the shorter way round. *)
Definition ring_distance (n a b : Z) : Z :=
  Z.min ((b - a) `mod` n) ((a - b) `mod` n).

(** The distance between two cells of a [rows] by [cols] mesh, given by
    their ids: the difference of the rows plus that of the columns. *)
Definition mesh_distance (cols a b : Z) : Z :=
  Z.abs (a `div` cols - b `div` cols) + Z.abs (a `mod` cols - b `mod` cols).

(** The distance between two cells of a torus: round the rows plus round
    the columns. *)
Definition torus_distance (rows cols a b : Z) : Z :=
  ring_distance rows (a `div` cols) (b `div` cols)
  + ring_distance cols (a `mod` cols) (b `mod` cols).

(** The number of the low [k] bits of [x] that are set. *)
Fixpoint popcount (k : nat) (x : Z) : Z :=
  match k with
  | O => 0
  | S k' => popcount k' x + (if Z.testbit x (Z.of_nat k') then 1 else 0)
  end.

(** The number of the low [k] bits in which [a] and [b] differ. *)
Definition hamming (k : nat) (a b : Z) : Z := popcount k (Z.lxor a b).

(** ** Furthest nodes *)



(** ** Metrics *)

(** Number of entries of a distance map that are not the sentinel. *)
Fixpoint reached (D : JsMap num) : Z :=
  match D with
  | [] => 0
  | (_, Infinity) :: D' => reached D'
  | _ :: D' => reached D' + 1
  end.

(** What one pass of the source loop computes, given the search result. *)
Definition source_totals (n : Z) (t : totals) (i : nat) (r : bfs_state) : totals :=
  let tl := jsmap_forEach count_distance (distances r)
              (Tally (Num 0) 0 (totalPathLengthSum t) (reachablePairsCount t)) in
  Totals (js_max (maxDistance t) (currentMax tl)) (tallySum tl) (tallyPairs tl)
    (if decide (i = 0%nat)
     then (if bool_decide (reachableCount tl < n) then false else connected t)
     else if connected t && bool_decide (reachableCount tl ≠ nodesInFirstComponent t)
          then false else connected t)
    (if decide (i = 0%nat) then reachableCount tl else nodesInFirstComponent t).

(** ** Edge deduplication *)

(** What [addEdge] maintains: the key set covers the recorded edges. *)
Record acc_ok (n : Z) (st : edge_acc) : Prop := AccOk {
  acc_range : Forall (edge_ok n) (acc_edges st);
  acc_NoDup : NoDup (unordered <$> acc_edges st);
  acc_keys : ∀ e, e ∈ acc_edges st →
    edgeKey (unordered e).1 (unordered e).2 ∈ addedEdges st
}.

(** The pair [p] has been recorded. *)
Definition present (p : Z * Z) (st : edge_acc) : Prop :=
  p ∈ unordered <$> acc_edges st.

(** What the edge loop of [generateHypercube] maintains: besides [acc_ok],
    every key stems from a recorded edge and every edge flips one bit. *)
Record cube_ok (d : Z) (st : edge_acc) : Prop := CubeOk {
  cube_acc : acc_ok (2 ^ d) st;
  cube_back : ∀ k, k ∈ addedEdges st →
    ∃ e, e ∈ acc_edges st ∧ k = edgeKey (unordered e).1 (unordered e).2;
  cube_shape :
    Forall (λ e, ∃ j, 0 ≤ j < d ∧ target e = Z.lxor (source e) (Z.shiftl 1 j))
      (acc_edges st)
}.

(** What a loop of [addEdge] calls maintains: besides [acc_ok], every key
    stems from a recorded edge. *)
Record keys_ok (n : Z) (st : edge_acc) : Prop := KeysOk {
  keys_acc : acc_ok n st;
  keys_back : ∀ k, k ∈ addedEdges st →
    ∃ e, e ∈ acc_edges st ∧ k = edgeKey (unordered e).1 (unordered e).2
}.

(** A run of [addEdge] calls, given by the pairs of arguments. *)
Definition add_all (st : edge_acc) (calls : list (Z * Z)) : edge_acc :=
  foldl (λ st c, addEdge st c.1 c.2) st calls.

(** The [addEdge] calls of [generateRing], for [n >= 2] and the clamped
    skip [s]: the cycle, then the chords if there are any. *)
Definition ring_calls (n s : Z) : list (Z * Z) :=
  ((λ i, (i, (i + 1) `rem` n)) <$> seqZ 0 n)
  ++ (if bool_decide (1 < s) && bool_decide (3 ≤ n)
      then (λ i, (i, (i + s) `rem` n)) <$> seqZ 0 n else []).

(** How many places round the ring the neighbours of a node are, for
    [n >= 2] nodes and the clamped skip [s]: one place either way and, if
    there are chords, [s] places either way, each distance listed once. *)
Definition ring_steps (n s : Z) : list Z :=
  (if decide (n = 2) then [1] else [1; n - 1])
  ++ (if bool_decide (1 < s) && bool_decide (3 ≤ n)
      then (if decide (2 * s = n) then [s] else [s; n - s]) else []).

(** How many places along a dimension of size [k] the neighbours of a
    torus cell are: none for [k = 1], one for [k = 2], one either way
    otherwise. *)
Definition torus_steps (k : Z) : list Z :=
  if decide (k = 1) then [] else if decide (k = 2) then [1] else [1; k - 1].

(** The [addEdge] calls of [generateTorus] at one cell, and all of them. *)
Definition torus_cell_calls (rows cols r c : Z) : list (Z * Z) :=
  (if bool_decide (1 < rows)
   then [(nodeAt rows cols r c, nodeAt rows cols (r + 1) c)] else [])
  ++ (if bool_decide (1 < cols)
      then [(nodeAt rows cols r c, nodeAt rows cols r (c + 1))] else []).

Definition torus_calls (rows cols : Z) : list (Z * Z) :=
  r ← seqZ 0 rows; c ← seqZ 0 cols; torus_cell_calls rows cols r c.

(** A string without the separator of the edge keys. *)
Fixpoint dashless (s : string) : Prop :=
  match s with
  | EmptyString => True
  | String c s' => c ≠ "-"%char ∧ dashless s'
  end.

(** ** Mesh *)

(** Mesh edges point from a node to an earlier one. *)
Definition mesh_edge_ok (bound : Z) (e : edge) : Prop :=
  0 ≤ target e < source e ∧ source e < bound.

(** The edges that [generateMesh] records at the cell in row [r] and
    column [c]: to the left neighbour, then to the upper one. *)
Definition mesh_cell_edges (cols r c : Z) : list edge :=
  (if bool_decide (0 < c) then [Edge (r * cols + c) (r * cols + c - 1)] else [])
  ++ (if bool_decide (0 < r) then [Edge (r * cols + c) (r * cols + c - cols)]
      else []).

(** The nodes of a grid in row-major order, as mesh and torus number them. *)
Definition grid_nodes (rows cols : Z) : list node :=
  r ← seqZ 0 rows; (λ c, GridNode (r * cols + c) r c) <$> seqZ 0 cols.

(** State of [generateMesh] between two rows: rows [0 .. r-1] are done. *)
Record row_ok (cols r : Z) (st : mesh_state) : Prop := RowOk {
  row_counter : idCounter st = r * cols;
  row_ids : node_id <$> mesh_nodes st = seqZ 0 (idCounter st);
  row_grid : ∀ r' c', 0 ≤ r' < r → 0 ≤ c' < cols →
    grid_at (nodeGrid st) r' c' = Some (r' * cols + c');
  row_edges : Forall (mesh_edge_ok (idCounter st)) (mesh_edges st);
  row_NoDup : NoDup (mesh_edges st)
}.

(** State inside row [r], before column [c]. *)
Record cell_ok (cols r c : Z) (st : mesh_state) : Prop := CellOk {
  cell_counter : idCounter st = r * cols + c;
  cell_ids : node_id <$> mesh_nodes st = seqZ 0 (idCounter st);
  cell_grid : ∀ r' c', 0 ≤ r' < r → 0 ≤ c' < cols →
    grid_at (nodeGrid st) r' c' = Some (r' * cols + c');
  cell_line : ∀ c', 0 ≤ c' < c →
    grid_at (nodeGrid st) r c' = Some (r * cols + c');
  cell_row : is_Some (nodeGrid st !! r);
  cell_edges : Forall (mesh_edge_ok (idCounter st)) (mesh_edges st);
  cell_NoDup : NoDup (mesh_edges st)
}.

(** Closes a decidable goal on closed terms by evaluation. *)
Ltac by_evaluation := apply (bool_decide_unpack _); vm_compute; exact I.

(** * Properties *)

(** ** Insertion-ordered maps *)

Section jsmap.
Context {V : Type}.
Implicit Types (m : JsMap V) (k : Z) (v : V).

Lemma jsmap_get_set_eq m k v : jsmap_get (jsmap_set m k v) k = Some v.
Proof.
  induction m as [|[k' v'] m IH]; simpl.
  - by rewrite decide_True.
  - destruct (decide (k' = k)) as [->|Hne]; simpl.
    + by rewrite decide_True.
    + by rewrite decide_False.
Qed.

Lemma jsmap_get_set_ne m k k' v :
  k ≠ k' → jsmap_get (jsmap_set m k v) k' = jsmap_get m k'.
Proof.
  intros Hne. induction m as [|[k0 v0] m IH]; simpl.
  - by rewrite decide_False.
  - destruct (decide (k0 = k)) as [->|Hne0]; simpl.
    + by rewrite !decide_False.
    + by rewrite IH.
Qed.

Lemma jsmap_get_set m k k' v :
  jsmap_get (jsmap_set m k v) k'
  = if decide (k = k') then Some v else jsmap_get m k'.
Proof.
  destruct (decide (k = k')) as [->|Hne].
  - apply jsmap_get_set_eq.
  - by apply jsmap_get_set_ne.
Qed.

Lemma jsmap_get_is_Some m k : is_Some (jsmap_get m k) ↔ k ∈ jsmap_keys m.
Proof.
  unfold jsmap_keys. induction m as [|[k' v'] m IH]; simpl.
  - rewrite elem_of_nil. split; [by intros [? ?]|done].
  - rewrite elem_of_cons. destruct (decide (k' = k)) as [->|Hne].
    + split; eauto.
    + rewrite IH. naive_solver.
Qed.

Lemma jsmap_get_None m k : jsmap_get m k = None ↔ k ∉ jsmap_keys m.
Proof. rewrite <-jsmap_get_is_Some, eq_None_not_Some. done. Qed.

Lemma jsmap_keys_set_old m k v :
  k ∈ jsmap_keys m → jsmap_keys (jsmap_set m k v) = jsmap_keys m.
Proof.
  unfold jsmap_keys. induction m as [|[k' v'] m IH]; simpl.
  - by intros ?%elem_of_nil.
  - intros Hin. destruct (decide (k' = k)) as [->|Hne]; simpl; [done|].
    f_equal. apply IH. apply elem_of_cons in Hin as [?|?]; [congruence|done].
Qed.

Lemma jsmap_keys_set_new m k v :
  k ∉ jsmap_keys m → jsmap_keys (jsmap_set m k v) = jsmap_keys m ++ [k].
Proof.
  unfold jsmap_keys. induction m as [|[k' v'] m IH]; simpl; [done|].
  intros Hin. apply not_elem_of_cons in Hin as [? ?].
  rewrite decide_False by done. simpl. f_equal. by apply IH.
Qed.

Lemma jsmap_keys_set_elem m k k' v :
  k' ∈ jsmap_keys (jsmap_set m k v) ↔ k' = k ∨ k' ∈ jsmap_keys m.
Proof.
  destruct (decide (k ∈ jsmap_keys m)) as [Hin|Hin].
  - rewrite jsmap_keys_set_old by done. naive_solver.
  - rewrite jsmap_keys_set_new by done. rewrite elem_of_app, list_elem_of_singleton.
    naive_solver.
Qed.

Lemma jsmap_keys_set_NoDup m k v :
  NoDup (jsmap_keys m) → NoDup (jsmap_keys (jsmap_set m k v)).
Proof.
  intros Hnd. destruct (decide (k ∈ jsmap_keys m)) as [Hin|Hin].
  - by rewrite jsmap_keys_set_old.
  - rewrite jsmap_keys_set_new by done. apply NoDup_app. split; [done|].
    split; [|apply NoDup_singleton].
    intros x Hx ->%list_elem_of_singleton. done.
Qed.

Lemma jsmap_size_set_old m k v :
  k ∈ jsmap_keys m → jsmap_size (jsmap_set m k v) = jsmap_size m.
Proof.
  intros Hin. unfold jsmap_size.
  rewrite <-(length_fmap fst (jsmap_set m k v)), <-(length_fmap fst m).
  f_equal. by apply jsmap_keys_set_old.
Qed.

(** With distinct keys the entries are exactly the graph of [get]. *)
Lemma jsmap_elem_of_get m k v :
  NoDup (jsmap_keys m) → (k, v) ∈ m ↔ jsmap_get m k = Some v.
Proof.
  unfold jsmap_keys. induction m as [|[k' v'] m IH]; simpl; intros Hnd.
  - rewrite elem_of_nil. naive_solver.
  - apply NoDup_cons in Hnd as [Hk' Hnd]. rewrite elem_of_cons.
    destruct (decide (k' = k)) as [->|Hne].
    + split; [|naive_solver]. intros [?|Hin]; [naive_solver|].
      destruct Hk'. apply list_elem_of_fmap. by exists (k, v).
    + rewrite IH by done. naive_solver.
Qed.

Lemma jsmap_get_elem_of m k v : jsmap_get m k = Some v → (k, v) ∈ m.
Proof.
  induction m as [|[k' v'] m IH]; simpl; [done|].
  destruct (decide (k' = k)) as [->|Hne].
  - intros [= ->]. apply list_elem_of_here.
  - intros ?. apply list_elem_of_further. auto.
Qed.
End jsmap.

(** ** Undirected graphs and shortest paths *)

Lemma linked_sym g u v : linked g u v → linked g v u.
Proof. unfold linked. naive_solver. Qed.

Lemma hops_app R n m u v w : hops R n u v → hops R m v w → hops R (n + m) u w.
Proof.
  intros Huv Hvw. induction Hvw as [|m v w x Hvw IH Hwx].
  - by rewrite Nat.add_0_r.
  - rewrite Nat.add_succ_r. eapply hops_S; eauto.
Qed.

Lemma hops_sym R n u v :
  (∀ a b, R a b → R b a) → hops R n u v → hops R n v u.
Proof.
  intros Hsym Huv. induction Huv as [|n u v w Huv IH Hvw].
  - constructor.
  - change (S n) with (1 + n)%nat. eapply hops_app; [|done].
    eapply hops_S; [constructor|]. by apply Hsym.
Qed.

Lemma reachable_refl R u : reachable R u u.
Proof. exists 0%nat. constructor. Qed.

Lemma reachable_trans R u v w : reachable R u v → reachable R v w → reachable R u w.
Proof. intros [n Hn] [m Hm]. exists (n + m)%nat. by eapply hops_app. Qed.

Lemma reachable_sym R u v :
  (∀ a b, R a b → R b a) → reachable R u v → reachable R v u.
Proof. intros Hsym [n Hn]. exists n. by apply hops_sym. Qed.

Lemma shortest_unique R u v n m : shortest R u v n → shortest R u v m → n = m.
Proof. intros [Hn Hn'] [Hm Hm']. apply Hn' in Hm. apply Hm' in Hn. lia. Qed.

Lemma hops_0_inv R u v : hops R 0 u v → u = v.
Proof. by inversion 1. Qed.

(** A walk that leaves [u] starts with a step out of [u]. *)
Lemma hops_first R n u v : hops R n u v → u = v ∨ ∃ w, R u w.
Proof.
  induction 1 as [|n u v w Huv IH Hvw]; [by left|].
  destruct IH as [->|?]; eauto.
Qed.

(** ** Adjacency builder *)

Lemma push_neighbor_keys adj a b :
  jsmap_keys (push_neighbor adj a b) = jsmap_keys adj.
Proof.
  unfold push_neighbor. destruct (jsmap_get adj a) eqn:Hget; [|done].
  apply jsmap_keys_set_old, jsmap_get_is_Some. by rewrite Hget.
Qed.

Lemma push_neighbor_elem adj a b u v :
  v ∈ neighbors (push_neighbor adj a b) u
  ↔ v ∈ neighbors adj u ∨ (u = a ∧ v = b ∧ a ∈ jsmap_keys adj).
Proof.
  unfold push_neighbor, neighbors.
  destruct (jsmap_get adj a) as [l|] eqn:Hget.
  - assert (a ∈ jsmap_keys adj) by (apply jsmap_get_is_Some; by rewrite Hget).
    rewrite jsmap_get_set. destruct (decide (a = u)) as [->|Hne]; simpl.
    + rewrite Hget. simpl. rewrite elem_of_app, list_elem_of_singleton. naive_solver.
    + naive_solver.
  - apply jsmap_get_None in Hget. naive_solver.
Qed.

(** Giving every node the same initial value, as [bfs] and the adjacency
    builder do before they start. *)
Lemma fill_keys {V} (x : V) (ns : list node) (m : JsMap V) k :
  k ∈ jsmap_keys (foldl (λ m n, jsmap_set m (node_id n) x) m ns)
  ↔ k ∈ jsmap_keys m ∨ k ∈ node_id <$> ns.
Proof.
  revert m. induction ns as [|n ns IH]; intros m; simpl.
  - rewrite elem_of_nil. naive_solver.
  - rewrite IH, jsmap_keys_set_elem, elem_of_cons. naive_solver.
Qed.

Lemma fill_NoDup {V} (x : V) (ns : list node) (m : JsMap V) :
  NoDup (jsmap_keys m) →
  NoDup (jsmap_keys (foldl (λ m n, jsmap_set m (node_id n) x) m ns)).
Proof.
  revert m. induction ns as [|n ns IH]; intros m Hm; simpl; [done|].
  by apply IH, jsmap_keys_set_NoDup.
Qed.

Lemma fill_get {V} (x : V) (ns : list node) (m : JsMap V) k :
  (∀ k' y, jsmap_get m k' = Some y → y = x) →
  ∀ y, jsmap_get (foldl (λ m n, jsmap_set m (node_id n) x) m ns) k = Some y → y = x.
Proof.
  revert m. induction ns as [|n ns IH]; intros m Hm; simpl; [by eauto|].
  apply IH. intros k' y. rewrite jsmap_get_set. case_decide; [congruence|eauto].
Qed.

Lemma fill_length {V} (x : V) (ns : list node) (m : JsMap V) :
  (length (foldl (λ m n, jsmap_set m (node_id n) x) m ns)
   ≤ length m + length ns)%nat.
Proof.
  revert m. induction ns as [|n ns IH]; intros m; simpl; [lia|].
  etrans; [apply IH|].
  assert (length (jsmap_set m (node_id n) x) ≤ S (length m))%nat; [|lia].
  clear. induction m as [|[k v] m IH]; simpl; [lia|].
  case_decide; simpl; lia.
Qed.

Lemma adjacency_nodes_empty (ns : list node) (adj : JsMap (list Z)) u :
  (∀ k, neighbors adj k = []) →
  neighbors (foldl (λ adj n, jsmap_set adj (node_id n) []) adj ns) u = [].
Proof.
  intros Hadj. unfold neighbors.
  destruct (jsmap_get _ u) as [l|] eqn:Hget; [|done]. simpl.
  eapply fill_get; [|done]. intros k y Hy.
  specialize (Hadj k). unfold neighbors in Hadj. by rewrite Hy in Hadj.
Qed.

Lemma adjacency_edges_keys (es : list edge) (adj : JsMap (list Z)) :
  jsmap_keys (foldl (λ adj e,
      push_neighbor (push_neighbor adj (source e) (target e))
        (target e) (source e)) adj es) = jsmap_keys adj.
Proof.
  revert adj. induction es as [|e es IH]; intros adj; simpl; [done|].
  by rewrite IH, !push_neighbor_keys.
Qed.

Lemma adjacency_edges_elem (es : list edge) (adj : JsMap (list Z)) u v :
  v ∈ neighbors (foldl (λ adj e,
      push_neighbor (push_neighbor adj (source e) (target e))
        (target e) (source e)) adj es) u
  ↔ v ∈ neighbors adj u ∨
    (u ∈ jsmap_keys adj ∧
     ∃ e, e ∈ es ∧ ((source e = u ∧ target e = v) ∨ (source e = v ∧ target e = u))).
Proof.
  revert adj. induction es as [|e es IH]; intros adj; simpl.
  - setoid_rewrite elem_of_nil. naive_solver.
  - rewrite IH, !push_neighbor_keys, !push_neighbor_elem, push_neighbor_keys.
    setoid_rewrite elem_of_cons. naive_solver.
Qed.

Lemma buildAdjacency_keys g k : k ∈ jsmap_keys (buildAdjacency g) ↔ k ∈ ids g.
Proof.
  unfold buildAdjacency, ids. rewrite adjacency_edges_keys, fill_keys.
  unfold jsmap_keys. simpl. rewrite elem_of_nil. naive_solver.
Qed.

(** The neighbour lists hold exactly the edge partners of each node. *)
Lemma buildAdjacency_elem g u v :
  v ∈ neighbors (buildAdjacency g) u
  ↔ u ∈ ids g ∧
    ∃ e, e ∈ edges g ∧
         ((source e = u ∧ target e = v) ∨ (source e = v ∧ target e = u)).
Proof.
  unfold buildAdjacency. rewrite adjacency_edges_elem.
  rewrite adjacency_nodes_empty by done. rewrite elem_of_nil.
  setoid_rewrite fill_keys. unfold jsmap_keys, ids. simpl.
  rewrite elem_of_nil. naive_solver.
Qed.

Lemma buildAdjacency_linked g u v :
  linked g u v ↔ v ∈ neighbors (buildAdjacency g) u ∧ v ∈ ids g.
Proof. rewrite buildAdjacency_elem. unfold linked. naive_solver. Qed.

(** The adjacency mapping is symmetric on the nodes of the graph. *)
Lemma buildAdjacency_symmetric g u v :
  u ∈ ids g → v ∈ ids g →
  v ∈ neighbors (buildAdjacency g) u ↔ u ∈ neighbors (buildAdjacency g) v.
Proof. intros Hu Hv. rewrite !buildAdjacency_elem. naive_solver. Qed.

(** ** Breadth-first search *)

Lemma linked_preds_le P : (linked_preds P ≤ length P)%nat.
Proof. induction P as [|[k [u|]] P IH]; simpl; lia. Qed.

Lemma linked_preds_set P v u :
  jsmap_get P v = Some None →
  linked_preds (jsmap_set P v (Some u)) = S (linked_preds P).
Proof.
  induction P as [|[k o] P IH]; simpl; [done|].
  destruct (decide (k = v)) as [->|Hne].
  - by intros [= ->].
  - intros Hget. destruct o; simpl; rewrite IH; done.
Qed.

Lemma linked_preds_fill (ns : list node) (m : JsMap (option Z)) :
  linked_preds m = 0%nat →
  linked_preds (foldl (λ m n, jsmap_set m (node_id n) None) m ns) = 0%nat.
Proof.
  revert m. induction ns as [|n ns IH]; intros m Hm; simpl; [done|].
  apply IH. clear IH. induction m as [|[k [u|]] m IHm]; simpl in *; try done.
  case_decide; simpl; auto.
Qed.

Section bfs.
Variables (adj : JsMap (list Z)) (allNodes : list node) (start : Z).
Variable R : Z → Z → Prop.
Hypothesis R_sound :
  ∀ u v, v ∈ neighbors adj u → v ∈ node_id <$> allNodes → R u v.
Hypothesis R_complete :
  ∀ u v, R u v → v ∈ neighbors adj u ∧ v ∈ node_id <$> allNodes.

Local Abbreviation KD := (jsmap_keys (distances (bfs_init start allNodes))).
Local Abbreviation KP := (jsmap_keys (predecessors (bfs_init start allNodes))).
Local Abbreviation bfs_inv := (bfs_inv allNodes start R).

Lemma bfs_KD k : k ∈ KD ↔ k = start ∨ k ∈ node_id <$> allNodes.
Proof.
  unfold bfs_init. simpl. rewrite jsmap_keys_set_elem, fill_keys.
  unfold jsmap_keys. simpl. rewrite elem_of_nil. naive_solver.
Qed.

Lemma bfs_KP k : k ∈ KP ↔ k ∈ node_id <$> allNodes.
Proof.
  unfold bfs_init. simpl. rewrite fill_keys.
  unfold jsmap_keys. simpl. rewrite elem_of_nil. naive_solver.
Qed.

Lemma bfs_KP_length : (length KP ≤ length allNodes)%nat.
Proof.
  unfold bfs_init, jsmap_keys. simpl. rewrite length_fmap.
  etrans; [apply fill_length|]. simpl. lia.
Qed.

Lemma bfs_KP_NoDup : NoDup KP.
Proof. unfold bfs_init. simpl. apply fill_NoDup. constructor. Qed.

Lemma bfs_KD_NoDup : NoDup KD.
Proof.
  unfold bfs_init. simpl. apply jsmap_keys_set_NoDup, fill_NoDup. constructor.
Qed.

Lemma bfs_init_inv : bfs_inv 0 (bfs_init start allNodes).
Proof.
  assert (Hfill : ∀ k y,
    jsmap_get (foldl (λ m n, jsmap_set m (node_id n) Infinity) [] allNodes) k
    = Some y → y = Infinity).
  { intros k y. by apply fill_get. }
  split; simpl.
  - done.
  - done.
  - apply jsmap_get_set_eq.
  - intros v x. rewrite jsmap_get_set. case_decide as Hv.
    + intros [= <-]. right. exists 0%nat. subst v.
      split_and!; [done|apply list_elem_of_here|constructor].
    + intros ->%Hfill. by left.
  - intros v ->%list_elem_of_singleton. exists 0%nat. apply jsmap_get_set_eq.
  - intros i j vi vj ni nj _ Hi Hj.
    apply list_elem_of_lookup_2, list_elem_of_singleton in Hi as ->.
    apply list_elem_of_lookup_2, list_elem_of_singleton in Hj as ->.
    intros H1 H2. rewrite H1 in H2. injection H2. lia.
  - intros u nu v nv [= <-] H1 ->%list_elem_of_singleton H2.
    rewrite H1 in H2. injection H2. lia.
  - intros i u v Hi. lia.
  - by intros v ->%list_elem_of_singleton.
  - intros v. rewrite jsmap_get_set. case_decide; [done|]. intros Hv.
    assert (Hin : v ∈ KP).
    { apply bfs_KP. assert (Hk : v ∈ KD).
      { unfold bfs_init. simpl. apply jsmap_keys_set_elem. right.
        apply jsmap_get_is_Some. by rewrite Hv. }
      apply bfs_KD in Hk as [?|?]; [congruence|done]. }
    apply jsmap_get_is_Some in Hin as [[u|] Hu]; [|done].
    apply fill_get in Hu; [done|]. intros ? ?. done.
  - by rewrite linked_preds_fill.
  - intros v n. rewrite jsmap_get_set. case_decide.
    + intros [= <-]. lia.
    + by intros ?%Hfill.
Qed.

(** One neighbour of the node at queue index [h]. *)
Lemma visit_inv h st u v :
  bfs_inv h st → queue st !! h = Some u → v ∈ neighbors adj u →
  bfs_inv h (visit u st v) ∧
  queue (visit u st v) !! h = Some u ∧
  (∀ w n, jsmap_get (distances st) w = Some (Num n) →
          jsmap_get (distances (visit u st v)) w = Some (Num n)) ∧
  (R u v →
   ∃ nu nv, jsmap_get (distances (visit u st v)) u = Some (Num nu) ∧
            jsmap_get (distances (visit u st v)) v = Some (Num nv) ∧
            nv ≤ nu + 1).
Proof.
  intros Hinv Hu Hv.
  assert (Huq : u ∈ queue st) by (by eapply list_elem_of_lookup_2).
  destruct (inv_queue _ _ _ _ _ Hinv u Huq) as [nu Hnu].
  assert (Hkey : R u v → is_Some (jsmap_get (distances st) v)).
  { intros [_ Hid]%R_complete. apply jsmap_get_is_Some.
    rewrite (inv_keysD _ _ _ _ _ Hinv). apply bfs_KD. by right. }
  unfold visit. destruct (jsmap_get (distances st) v) as [[z| |]|] eqn:Hdv.
  - split_and!; [done..|]. intros _.
    destruct (inv_dist _ _ _ _ _ Hinv v _ Hdv) as [?|(n & _ & Hvq & _)]; [done|].
    exists (Z.of_nat nu), z. split_and!; [done..|].
    exact (inv_front _ _ _ _ _ Hinv u (Z.of_nat nu) v z Hu Hnu Hvq Hdv).
  - rewrite Hnu. simpl.
    assert (Hvq : v ∉ queue st).
    { intros [n Hn]%(inv_queue _ _ _ _ _ Hinv). congruence. }
    assert (Hvs : v ≠ start).
    { intros ->. rewrite (inv_start _ _ _ _ _ Hinv) in Hdv. done. }
    assert (Hvu : v ≠ u) by (intros ->; congruence).
    assert (HvD : v ∈ jsmap_keys (distances st)).
    { apply jsmap_get_is_Some. by rewrite Hdv. }
    assert (HR : R u v).
    { apply R_sound; [done|]. rewrite (inv_keysD _ _ _ _ _ Hinv) in HvD.
      apply bfs_KD in HvD as [?|?]; [done|done]. }
    assert (Hhops : hops R (S nu) start v).
    { destruct (inv_dist _ _ _ _ _ Hinv u _ Hnu) as [?|(n & [= Hn] & _ & Hn')]; [done|].
      apply Nat2Z.inj in Hn as <-. by eapply hops_S. }
    assert (HP : jsmap_get (predecessors st) v = Some None).
    { by apply (inv_null _ _ _ _ _ Hinv). }
    assert (Hmono : ∀ w n, jsmap_get (distances st) w = Some (Num n) →
      jsmap_get (jsmap_set (distances st) v (Num (Z.of_nat nu + 1))) w
      = Some (Num n)).
    { intros w n Hw. rewrite jsmap_get_set_ne; [done|]. intros ->. congruence. }
    assert (Hold : ∀ w, w ∈ queue st →
      jsmap_get (jsmap_set (distances st) v (Num (Z.of_nat nu + 1))) w
      = jsmap_get (distances st) w).
    { intros w Hw. rewrite jsmap_get_set_ne; [done|]. by intros ->. }
    assert (Hh : (h < length (queue st))%nat) by (by eapply lookup_lt_Some).
    split_and!; [split; simpl|..].
    + rewrite jsmap_keys_set_old by done. apply (inv_keysD _ _ _ _ _ Hinv).
    + rewrite jsmap_keys_set_old; [apply (inv_keysP _ _ _ _ _ Hinv)|].
      apply jsmap_get_is_Some. by rewrite HP.
    + rewrite jsmap_get_set_ne by done. apply (inv_start _ _ _ _ _ Hinv).
    + intros w x. rewrite jsmap_get_set. case_decide as Hw.
      * subst w. intros [= <-]. right. exists (S nu).
        split_and!; [f_equal; lia| |done].
        apply elem_of_app. right. apply list_elem_of_here.
      * intros [?|(n & ? & ? & ?)]%(inv_dist _ _ _ _ _ Hinv); [by left|right].
        exists n. split_and!; [done| |done]. apply elem_of_app. by left.
    + intros w [Hw| ->%list_elem_of_singleton]%elem_of_app.
      * rewrite Hold by done. by apply (inv_queue _ _ _ _ _ Hinv).
      * exists (S nu). rewrite jsmap_get_set_eq. do 2 f_equal. lia.
    + intros i j vi vj ni nj Hij
        [[Hi Hvi]|[Hi <-]]%lookup_snoc_Some [[Hj Hvj]|[Hj <-]]%lookup_snoc_Some.
      * rewrite !Hold by (by eapply list_elem_of_lookup_2). intros H1 H2.
        exact (inv_sorted _ _ _ _ _ Hinv i j vi vj ni nj Hij Hvi Hvj H1 H2).
      * rewrite Hold by (by eapply list_elem_of_lookup_2).
        rewrite jsmap_get_set_eq. intros Hni [= <-].
        apply (inv_front _ _ _ _ _ Hinv u (Z.of_nat nu) vi ni Hu Hnu); [|done].
        by eapply list_elem_of_lookup_2.
      * lia.
      * rewrite jsmap_get_set_eq. intros [= <-] [= <-]. lia.
    + intros u' nu' w nw. rewrite lookup_app_l by done. rewrite Hu.
      intros [= <-]. rewrite Hold by done. rewrite Hnu. intros [= <-].
      intros [Hw| ->%list_elem_of_singleton]%elem_of_app.
      * rewrite Hold by done. intros Hnw.
        exact (inv_front _ _ _ _ _ Hinv u (Z.of_nat nu) w nw Hu Hnu Hw Hnw).
      * rewrite jsmap_get_set_eq. intros [= <-]. lia.
    + intros i ui w Hi. rewrite lookup_app_l by lia. intros Hui HRw.
      destruct (inv_done _ _ _ _ _ Hinv i ui w Hi Hui HRw) as (n1 & n2 & ? & ? & ?).
      exists n1, n2. split_and!; [by apply Hmono..|done].
    + intros w [Hw| ->%list_elem_of_singleton]%elem_of_app Hws.
      * destruct (inv_pred _ _ _ _ _ Hinv w Hw Hws) as (pu & n & ? & ? & ? & ?).
        exists pu, n. split_and!; [|by apply Hmono..|done].
        rewrite jsmap_get_set_ne; [done|]. by intros ->.
      * exists u, (Z.of_nat nu). rewrite !jsmap_get_set_eq.
        split_and!; [done|by apply Hmono|done|done].
    + intros w. rewrite jsmap_get_set. case_decide as Hw; [done|].
      intros ?. rewrite jsmap_get_set_ne by done. by apply (inv_null _ _ _ _ _ Hinv).
    + rewrite length_app. simpl. rewrite linked_preds_set by done.
      rewrite (inv_len _ _ _ _ _ Hinv). lia.
    + intros w n. rewrite length_app. simpl. rewrite jsmap_get_set.
      case_decide as Hw.
      * intros [= <-]. apply (inv_bound _ _ _ _ _ Hinv) in Hnu. lia.
      * intros ?%(inv_bound _ _ _ _ _ Hinv). lia.
    + simpl. by rewrite lookup_app_l.
    + simpl. done.
    + simpl. intros _. exists (Z.of_nat nu), (Z.of_nat nu + 1).
      rewrite jsmap_get_set_eq. split_and!; [by apply Hmono|done|lia].
  - destruct (inv_dist _ _ _ _ _ Hinv v _ Hdv) as [?|(n & ? & _)]; done.
  - split_and!; [done..|]. by intros [? ?]%Hkey.
Qed.

(** The whole [for (const v of neighbors)] loop. *)
Lemma scan_inv h u l st :
  bfs_inv h st → queue st !! h = Some u → (∀ v, v ∈ l → v ∈ neighbors adj u) →
  bfs_inv h (foldl (visit u) st l) ∧
  queue (foldl (visit u) st l) !! h = Some u ∧
  (∀ w n, jsmap_get (distances st) w = Some (Num n) →
          jsmap_get (distances (foldl (visit u) st l)) w = Some (Num n)) ∧
  (∀ v, v ∈ l → R u v →
   ∃ nu nv, jsmap_get (distances (foldl (visit u) st l)) u = Some (Num nu) ∧
            jsmap_get (distances (foldl (visit u) st l)) v = Some (Num nv) ∧
            nv ≤ nu + 1).
Proof.
  revert st. induction l as [|v l IH]; intros st Hinv Hu Hl; simpl.
  - split_and!; [done..|]. by intros v ?%elem_of_nil.
  - destruct (visit_inv h st u v Hinv Hu) as (Hinv1 & Hu1 & Hmono1 & Hv1).
    { apply Hl, list_elem_of_here. }
    destruct (IH (visit u st v) Hinv1 Hu1) as (Hinv2 & Hu2 & Hmono2 & Hl2).
    { intros w Hw. by apply Hl, list_elem_of_further. }
    split_and!; [done|done|by auto|].
    intros w [->|Hw]%elem_of_cons HR; [|by auto].
    destruct (Hv1 HR) as (nu & nv & ? & ? & ?).
    exists nu, nv. split_and!; [by apply Hmono2..|done].
Qed.

(** One iteration of the [while] loop. *)
Lemma dequeue_inv h u st :
  bfs_inv h st → queue st !! h = Some u →
  bfs_inv (S h) (foldl (visit u) st (neighbors adj u)) ∧
  (S h ≤ length (queue (foldl (visit u) st (neighbors adj u))))%nat.
Proof.
  intros Hinv Hu.
  destruct (scan_inv h u (neighbors adj u) st Hinv Hu) as (Hinv' & Hu' & _ & Hscan);
    [done|].
  set (st' := foldl (visit u) st (neighbors adj u)) in *.
  split; [|by eapply lookup_lt_Some].
  destruct Hinv' as [H1 H2 H3 H4 H5 H6 H7 H8 H9 H10 H11 H12].
  split; try done.
  - intros u' nu' v nv Hu'' Hnu' Hv Hnv.
    destruct (H5 u) as [nu Hnu]; [by eapply list_elem_of_lookup_2|].
    assert (Z.of_nat nu ≤ nu').
    { apply (H6 h (S h) u u' (Z.of_nat nu) nu'); [lia|done..]. }
    assert (nv ≤ Z.of_nat nu + 1) by (by eapply (H7 u _ v nv)).
    lia.
  - intros i ui v Hi Hui HR.
    destruct (decide (i = h)) as [->|Hne].
    + rewrite Hu' in Hui. injection Hui as <-.
      apply Hscan; [|done]. by apply R_complete.
    + apply (H8 i); [lia|done..].
Qed.

(** The loop stops within the fuel and keeps the invariant. *)
Lemma bfs_loop_inv fuel h st :
  bfs_inv h st → (h ≤ length (queue st))%nat →
  (S (length KP) - h ≤ fuel)%nat →
  ∃ st', bfs_loop adj fuel h st = Some st' ∧
         bfs_inv (length (queue st')) st'.
Proof.
  revert h st. induction fuel as [|fuel IH]; intros h st Hinv Hh Hfuel.
  - assert (Hlen : (length (queue st) ≤ S (length KP))%nat).
    { rewrite (inv_len _ _ _ _ _ Hinv), <-(inv_keysP _ _ _ _ _ Hinv). unfold jsmap_keys.
      rewrite length_fmap. pose proof (linked_preds_le (predecessors st)). lia. }
    simpl. rewrite lookup_ge_None_2 by lia. exists st. split; [done|].
    by replace (length (queue st)) with h by lia.
  - simpl. destruct (queue st !! h) as [u|] eqn:Hu.
    + destruct (dequeue_inv h u st Hinv Hu) as [Hinv' Hlen'].
      apply IH; [done|done|lia].
    + exists st. split; [done|]. apply lookup_ge_None in Hu.
      by replace (length (queue st)) with h by lia.
Qed.

(** [bfs] always returns. *)
Lemma bfs_returns :
  ∃ st, bfs start adj allNodes = Some st ∧ bfs_inv (length (queue st)) st.
Proof.
  unfold bfs. apply bfs_loop_inv.
  - apply bfs_init_inv.
  - simpl. lia.
  - pose proof bfs_KP_length. lia.
Qed.

Section result.
Variable st : bfs_state.
Hypothesis Hinv : bfs_inv (length (queue st)) st.

(** No walk is shorter than the recorded distance. *)
Lemma bfs_lower n v :
  hops R n start v →
  ∃ k, jsmap_get (distances st) v = Some (Num k) ∧ k ≤ Z.of_nat n.
Proof.
  intros Hhops.
  assert (Hgen : ∀ s, hops R n s v → s = start →
    ∃ k, jsmap_get (distances st) v = Some (Num k) ∧ k ≤ Z.of_nat n);
    [|by eauto].
  clear Hhops. intros s Hhops.
  induction Hhops as [|n s u v Hsu IH Huv]; intros Hs.
  - subst. exists 0. split; [apply (inv_start _ _ _ _ _ Hinv)|lia].
  - destruct (IH Hs) as (ku & Hku & Hle).
    destruct (inv_dist _ _ _ _ _ Hinv u _ Hku) as [?|(m & _ & Huq & _)]; [done|].
    apply list_elem_of_lookup_1 in Huq as [i Hi].
    destruct (inv_done _ _ _ _ _ Hinv i u v) as (nu & nv & Hnu & Hnv & Hle');
      [by eapply lookup_lt_Some|done|done|].
    exists nv. split; [done|]. rewrite Hku in Hnu. injection Hnu as <-. lia.
Qed.

Lemma bfs_finite v k :
  jsmap_get (distances st) v = Some (Num k) ↔
  ∃ n, k = Z.of_nat n ∧ shortest R start v n.
Proof.
  split.
  - intros Hk.
    destruct (inv_dist _ _ _ _ _ Hinv v _ Hk) as [?|(n & [= ->] & _ & Hn)]; [done|].
    exists n. split; [done|]. split; [done|]. intros m Hm.
    destruct (bfs_lower m v Hm) as (k' & Hk' & Hle).
    rewrite Hk in Hk'. injection Hk' as <-. lia.
  - intros (n & -> & Hn & Hmin).
    destruct (bfs_lower n v Hn) as (k & Hk & Hle).
    destruct (inv_dist _ _ _ _ _ Hinv v _ Hk) as [?|(m & [= ->] & _ & Hm)]; [done|].
    apply Hmin in Hm. rewrite Hk. do 2 f_equal. lia.
Qed.

Lemma bfs_infinite v :
  jsmap_get (distances st) v = Some Infinity ↔
  (v = start ∨ v ∈ node_id <$> allNodes) ∧ ¬ reachable R start v.
Proof.
  split.
  - intros Hv. split.
    + apply bfs_KD. rewrite <-(inv_keysD _ _ _ _ _ Hinv). apply jsmap_get_is_Some.
      by rewrite Hv.
    + intros [n (k & Hk & _)%bfs_lower]. congruence.
  - intros [Hkey Hno]. apply bfs_KD in Hkey.
    rewrite <-(inv_keysD _ _ _ _ _ Hinv) in Hkey.
    apply jsmap_get_is_Some in Hkey as [x Hx].
    destruct (inv_dist _ _ _ _ _ Hinv v _ Hx) as [->|(n & _ & _ & Hn)]; [done|].
    destruct Hno. by exists n.
Qed.
(** Every key of the distance map holds either the sentinel, and is
    out of reach, or its exact distance. *)
Lemma bfs_distance_cases v :
  v = start ∨ v ∈ node_id <$> allNodes →
  (jsmap_get (distances st) v = Some Infinity ∧ ¬ reachable R start v) ∨
  (∃ n, jsmap_get (distances st) v = Some (Num (Z.of_nat n)) ∧
        shortest R start v n).
Proof.
  intros Hkey. pose proof Hkey as Hk. apply bfs_KD in Hk.
  rewrite <-(inv_keysD _ _ _ _ _ Hinv) in Hk.
  apply jsmap_get_is_Some in Hk as [x Hx].
  destruct (inv_dist _ _ _ _ _ Hinv v _ Hx) as [->|(n & -> & _)].
  - left. split; [done|]. by apply bfs_infinite.
  - right. pose proof Hx as Hx'. apply bfs_finite in Hx' as (m & Hm & ?).
    apply Nat2Z.inj in Hm as <-. by exists n.
Qed.

Lemma bfs_zero v : jsmap_get (distances st) v = Some (Num 0) → v = start.
Proof.
  intros Hv. destruct (inv_dist _ _ _ _ _ Hinv v _ Hv) as [?|(n & [= Hn] & _ & Hh)];
    [done|].
  assert (n = 0%nat) as -> by lia. symmetry. by eapply hops_0_inv.
Qed.

(** Walking the predecessor links back from a reached node arrives at
    the start after as many steps as the node's distance. *)
Lemma walk_back_reaches n v budget tl :
  jsmap_get (distances st) v = Some (Num (Z.of_nat n)) →
  (n ≤ budget)%nat →
  chained (predecessors st) R (v :: tl) →
  ∃ pre,
    walk_back start (predecessors st) budget (v :: tl) v
    = Some (pre ++ v :: tl) ∧
    length pre = n ∧
    head (pre ++ v :: tl) = Some start ∧
    chained (predecessors st) R (pre ++ v :: tl).
Proof.
  revert v budget tl. induction n as [|n IH]; intros v budget tl Hv Hb Hch.
  - apply bfs_zero in Hv as ->. exists []. simpl.
    destruct budget; simpl; rewrite decide_True by done; done.
  - assert (Hne : v ≠ start).
    { intros ->. rewrite (inv_start _ _ _ _ _ Hinv) in Hv. injection Hv. lia. }
    destruct (inv_dist _ _ _ _ _ Hinv v _ Hv) as [?|(m & _ & Hvq & _)]; [done|].
    destruct (inv_pred _ _ _ _ _ Hinv v Hvq Hne) as (u & nu & HP & Hu & Hv' & HR).
    rewrite Hv in Hv'. injection Hv' as Hnu.
    assert (nu = Z.of_nat n) as -> by lia.
    destruct budget as [|budget]; [lia|]. simpl.
    rewrite decide_False by done. rewrite HP.
    destruct (IH u budget (v :: tl) Hu) as (pre & Hw & Hlen & Hhd & Hch');
      [lia|done|].
    exists (pre ++ [u]). rewrite <-!app_assoc. simpl.
    split_and!; [done| |done..]. rewrite length_app. simpl. lia.
Qed.

(** The distances stay below the number of predecessor entries. *)
Lemma bfs_distance_bound v n :
  jsmap_get (distances st) v = Some (Num (Z.of_nat n)) →
  (n ≤ jsmap_size (predecessors st))%nat.
Proof.
  intros Hv%(inv_bound _ _ _ _ _ Hinv). rewrite (inv_len _ _ _ _ _ Hinv) in Hv.
  pose proof (linked_preds_le (predecessors st)). unfold jsmap_size. lia.
Qed.

Lemma reconstructPath_reaches n target :
  jsmap_get (distances st) target = Some (Num (Z.of_nat n)) →
  ∃ p, reconstructPath start target (predecessors st) = Some p ∧
       length p = S n ∧ head p = Some start ∧ last p = Some target ∧
       chained (predecessors st) R p.
Proof.
  intros Hv. unfold reconstructPath.
  destruct (walk_back_reaches n target (jsmap_size (predecessors st)) [] Hv)
    as (pre & Hw & Hlen & Hhd & Hch); [by eapply bfs_distance_bound|done|].
  exists (pre ++ [target]). split_and!; [done| |done| |done].
  - rewrite length_app. simpl. lia.
  - apply last_snoc.
Qed.
End result.
End bfs.

(** The search returns on every adjacency mapping, node list and start:
    the fuel never runs out. *)
Lemma bfs_total start adj allNodes : is_Some (bfs start adj allNodes).
Proof.
  destruct (bfs_returns adj allNodes start
    (λ u v, v ∈ neighbors adj u ∧ v ∈ node_id <$> allNodes))
    as (st & -> & _); [by intros u v ? ?|by intros u v [? ?]|by eexists].
Qed.

(** The adjacency mapping built from a graph presents exactly the
    undirected links of the graph to the search. *)
Lemma linked_sound g u v :
  v ∈ neighbors (buildAdjacency g) u → v ∈ node_id <$> nodes g → linked g u v.
Proof. intros. by apply buildAdjacency_linked. Qed.

Lemma linked_complete g u v :
  linked g u v → v ∈ neighbors (buildAdjacency g) u ∧ v ∈ node_id <$> nodes g.
Proof. intros. by apply buildAdjacency_linked. Qed.

(** C1.  For every graph and every start node, [bfs] over the adjacency
    mapping built from the graph returns, and in the distance map it
    returns the start node has distance 0 and every node of the graph has
    either the infinity sentinel, exactly when no walk over the undirected
    links of the graph leads from the start to it, or the length of a
    shortest such walk. *)
Theorem bfs_exact_distances (g : graph) (start : Z) :
  ∃ r, bfs start (buildAdjacency g) (nodes g) = Some r ∧
       jsmap_get (distances r) start = Some (Num 0) ∧
       ∀ v, v ∈ ids g →
         (jsmap_get (distances r) v = Some Infinity ∧
          ¬ reachable (linked g) start v) ∨
         (∃ n, jsmap_get (distances r) v = Some (Num (Z.of_nat n)) ∧
               shortest (linked g) start v n).
Proof.
  destruct (bfs_returns (buildAdjacency g) (nodes g) start (linked g)
              (linked_sound g) (linked_complete g)) as (r & Hr & Hinv).
  exists r. split; [done|]. split; [apply (inv_start _ _ _ _ _ Hinv)|].
  intros v Hv. eapply bfs_distance_cases; eauto using linked_sound, linked_complete.
Qed.

(** ** Path reconstruction *)

Lemma last_cons_default (a b : Z) (p : list Z) :
  List.last (b :: p) a = List.last p b.
Proof.
  revert a b. induction p as [|c p IH]; intros a b; [done|].
  change (List.last (b :: c :: p) a) with (List.last (c :: p) a).
  by rewrite !(IH _ c).
Qed.

Lemma is_walk_hops g a p :
  is_walk g (a :: p) = true →
  hops (linked g) (length p) a (List.last p a).
Proof.
  revert a. induction p as [|b p IH]; intros a Hw; [constructor|].
  simpl in Hw. apply andb_prop in Hw as [Hab Hp]. apply bool_decide_eq_true in Hab.
  change (length (b :: p)) with (1 + length p)%nat.
  eapply hops_app; [eapply hops_S; [constructor|done]|].
  rewrite last_cons_default. by apply IH.
Qed.

Lemma bfs_graph g start :
  ∃ r, bfs start (buildAdjacency g) (nodes g) = Some r ∧
       bfs_inv (nodes g) start (linked g) (length (queue r)) r.
Proof. apply bfs_returns; [apply linked_sound|apply linked_complete]. Qed.

Lemma hops_linked_last g n u v : hops (linked g) n u v → u = v ∨ v ∈ ids g.
Proof. destruct 1 as [|n u v w _ (_ & ? & _)]; auto. Qed.

(** C2.  For every graph, source and target reachable from the source,
    [reconstructPath] on the predecessor map that [bfs] from the source
    returns does not fail: it yields a list that starts at the source,
    ends at the target, in which every element is the recorded predecessor
    of the next and linked to it, and whose length is the target's distance
    plus one, that distance being the length of a shortest walk.  On
    Ring(12, 1) the path from node 0 to node 6 has exactly 7 nodes. *)
Theorem reconstructPath_shortest :
  (∀ (g : graph) (source target : Z),
     reachable (linked g) source target →
     ∃ r n p,
       bfs source (buildAdjacency g) (nodes g) = Some r ∧
       jsmap_get (distances r) target = Some (Num (Z.of_nat n)) ∧
       shortest (linked g) source target n ∧
       reconstructPath source target (predecessors r) = Some p ∧
       head p = Some source ∧ last p = Some target ∧
       chained (predecessors r) (linked g) p ∧
       length p = S n) ∧
  (∃ r p,
     bfs 0 (buildAdjacency ring12) (nodes ring12) = Some r ∧
     reconstructPath 0 6 (predecessors r) = Some p ∧
     length p = 7%nat).
Proof.
  split.
  - intros g source target Hreach.
    destruct (bfs_graph g source) as (r & Hr & Hinv).
    assert (Hkey : target = source ∨ target ∈ node_id <$> nodes g).
    { destruct Hreach as [m [->|?]%hops_linked_last]; auto. }
    destruct (bfs_distance_cases _ _ _ _ (linked_complete g) r Hinv target Hkey)
      as [[_ Hno]|(n & Hn & Hshort)]; [done|].
    destruct (reconstructPath_reaches _ _ _ r Hinv n target Hn)
      as (p & Hp & Hlen & Hhd & Hlast & Hch).
    exists r, n, p. done.
  - eexists _, _. split_and!; vm_compute; reflexivity.
Qed.

Lemma reconstructPath_shortest_witness :
  reachable (linked ring12) 0 6 ∧
  ∃ r n p,
    bfs 0 (buildAdjacency ring12) (nodes ring12) = Some r ∧
    jsmap_get (distances r) 6 = Some (Num (Z.of_nat n)) ∧
    shortest (linked ring12) 0 6 n ∧
    reconstructPath 0 6 (predecessors r) = Some p ∧
    head p = Some 0 ∧ last p = Some 6 ∧
    chained (predecessors r) (linked ring12) p ∧
    length p = S n.
Proof.
  assert (Hreach : reachable (linked ring12) 0 6).
  { exists 6%nat. apply (is_walk_hops ring12 0 [1; 2; 3; 4; 5; 6]).
    vm_compute. reflexivity. }
  split; [exact Hreach|].
  exact (proj1 reconstructPath_shortest ring12 0 6 Hreach).
Defined.

(** ** Metrics: connectivity *)

Lemma reached_le D : 0 ≤ reached D ≤ Z.of_nat (length D).
Proof. induction D as [|[k [z| |]] D IH]; simpl; lia. Qed.

Lemma reached_all D k x :
  reached D = Z.of_nat (length D) → (k, x) ∈ D → x ≠ Infinity.
Proof.
  induction D as [|[k' x'] D IH]; simpl; [by intros _ ?%elem_of_nil|].
  pose proof (reached_le D).
  intros Hlen [[= -> ->]|Hin]%elem_of_cons.
  - destruct x'; [done|lia|done].
  - apply IH; [|done]. destruct x'; lia.
Qed.

Lemma forEach_reachableCount D t :
  reachableCount (jsmap_forEach count_distance D t) = reachableCount t + reached D.
Proof.
  unfold jsmap_forEach. revert t. induction D as [|[k x] D IH]; intros t; simpl.
  - lia.
  - rewrite IH. destruct x; simpl; lia.
Qed.

Lemma fill_keys_same {V W} (x : V) (y : W) (ns : list node) m1 m2 :
  jsmap_keys m1 = jsmap_keys m2 →
  jsmap_keys (foldl (λ m n, jsmap_set m (node_id n) x) m1 ns)
  = jsmap_keys (foldl (λ m n, jsmap_set m (node_id n) y) m2 ns).
Proof.
  revert m1 m2. induction ns as [|n ns IH]; intros m1 m2 Hm; simpl; [done|].
  apply IH. destruct (decide (node_id n ∈ jsmap_keys m1)) as [Hin|Hin].
  - rewrite !jsmap_keys_set_old; [done|by rewrite <-Hm|done].
  - rewrite !jsmap_keys_set_new; [by rewrite Hm|by rewrite <-Hm|done].
Qed.

(** Searching from a node of the graph adds no key to the distance map. *)
Lemma bfs_init_keys_node start allNodes :
  start ∈ node_id <$> allNodes →
  jsmap_keys (distances (bfs_init start allNodes))
  = jsmap_keys (predecessors (bfs_init start allNodes)).
Proof.
  intros Hin. unfold bfs_init. simpl. rewrite jsmap_keys_set_old.
  - by apply fill_keys_same.
  - apply fill_keys. by right.
Qed.

Lemma bfs_distances_length g start r :
  start ∈ ids g →
  bfs_inv (nodes g) start (linked g) (length (queue r)) r →
  (length (distances r) ≤ length (nodes g))%nat.
Proof.
  intros Hin Hinv. rewrite <-(length_fmap fst (distances r)).
  change (fst <$> distances r) with (jsmap_keys (distances r)).
  rewrite (inv_keysD _ _ _ _ _ Hinv), bfs_init_keys_node by done.
  apply bfs_KP_length.
Qed.

Lemma metrics_source_eq adj g n t i nd r :
  bfs (node_id nd) adj (nodes g) = Some r →
  metrics_source adj g n (Some t) (i, nd) = Some (source_totals n t i r).
Proof.
  intros Hr. unfold metrics_source, source_totals. simpl. rewrite Hr. simpl.
  destruct (decide (i = 0%nat)); [done|].
  by destruct (connected t && _).
Qed.

Lemma metrics_source_None adj g n e : metrics_source adj g n None e = None.
Proof. done. Qed.

Lemma metrics_fold_None adj g n l : foldl (metrics_source adj g n) None l = None.
Proof. induction l as [|e l IH]; [done|]. exact IH. Qed.

(** The source loop always completes. *)
Lemma metrics_fold_total adj g n l t :
  ∃ t', foldl (metrics_source adj g n) (Some t) l = Some t'.
Proof.
  revert t. induction l as [|[i nd] l IH]; intros t; cbn [foldl]; [by eauto|].
  destruct (bfs_total (node_id nd) adj (nodes g)) as [r Hr].
  rewrite (metrics_source_eq _ _ _ _ _ _ _ Hr). apply IH.
Qed.

(** Once the flag is down it stays down. *)
Lemma metrics_fold_connected adj g n l t t' :
  foldl (metrics_source adj g n) (Some t) l = Some t' →
  connected t' = true → connected t = true.
Proof.
  revert t. induction l as [|[i nd] l IH]; intros t; cbn [foldl].
  - by intros [= ->].
  - destruct (bfs (node_id nd) adj (nodes g)) as [r|] eqn:Hr.
    + rewrite (metrics_source_eq _ _ _ _ _ _ _ Hr). intros Hfold Ht'.
      specialize (IH _ Hfold Ht'). revert IH. unfold source_totals. simpl.
      destruct (decide (i = 0%nat)).
      * by case_bool_decide.
      * by destruct (connected t).
    + unfold metrics_source at 2. simpl. rewrite Hr. simpl.
      by rewrite metrics_fold_None.
Qed.

(** If the first search reaches as many entries as there are nodes, every
    node is within reach of every other. *)
Lemma first_search_connected g nd r :
  nd ∈ nodes g →
  bfs_inv (nodes g) (node_id nd) (linked g) (length (queue r)) r →
  ¬ reached (distances r) < Z.of_nat (length (nodes g)) →
  ∀ a b, a ∈ ids g → b ∈ ids g → reachable (linked g) a b.
Proof.
  intros Hnd Hinv Hcount.
  assert (Hstart : node_id nd ∈ ids g) by (by apply list_elem_of_fmap_2).
  pose proof (bfs_distances_length g _ r Hstart Hinv) as Hlen.
  pose proof (reached_le (distances r)) as Hle.
  assert (Hall : reached (distances r) = Z.of_nat (length (distances r))) by lia.
  assert (Hfrom : ∀ v, v ∈ ids g → reachable (linked g) (node_id nd) v).
  { intros v Hv.
    destruct (bfs_distance_cases _ _ _ _ (linked_complete g) r Hinv v)
      as [[Hinf _]|(k & _ & [Hk _])]; [by right| |by exists k].
    apply jsmap_get_elem_of in Hinf. by apply (reached_all _ _ _ Hall) in Hinf. }
  intros a b Ha Hb. eapply reachable_trans; [|by apply Hfrom].
  apply reachable_sym; [apply linked_sym|by apply Hfrom].
Qed.

(** The connectivity verdict is never a false positive. *)
Lemma metrics_connected_sound g m :
  calculateGraphMetrics g (buildAdjacency g) = Some m →
  isConnected m = true →
  ∀ a b, a ∈ ids g → b ∈ ids g → reachable (linked g) a b.
Proof.
  unfold calculateGraphMetrics, ids. set (n := Z.of_nat (length (nodes g))).
  case_bool_decide as Hn.
  - intros _ _ a b Ha Hb. subst n.
    destruct (nodes g) as [|nd [|nd' ns]]; simpl in *.
    + by apply elem_of_nil in Ha.
    + apply list_elem_of_singleton in Ha as ->.
      apply list_elem_of_singleton in Hb as ->. apply reachable_refl.
    + lia.
  - assert (∃ nd ns, nodes g = nd :: ns) as (nd & ns & Hnodes).
    { subst n. destruct (nodes g) as [|nd ns]; [simpl in Hn; lia|by eauto]. }
    rewrite Hnodes, imap_cons. cbn [foldl].
    destruct (bfs_graph g (node_id nd)) as (r & Hr & Hinv).
    rewrite (metrics_source_eq _ _ _ _ _ _ _ Hr).
    destruct (foldl _ _ _) as [t|] eqn:Hfold; simpl; [|done].
    intros [= <-]. simpl. intros Hconn.
    apply (metrics_fold_connected _ _ _ _ _ _ Hfold) in Hconn.
    unfold source_totals in Hconn. simpl in Hconn.
    rewrite forEach_reachableCount in Hconn. simpl in Hconn.
    case_bool_decide as Hcount; [done|].
    intros a b Ha Hb. apply (first_search_connected g nd r).
    + rewrite Hnodes. apply list_elem_of_here.
    + done.
    + subst n. lia.
    + unfold ids. by rewrite Hnodes.
    + unfold ids. by rewrite Hnodes.
Qed.

(** [calculateGraphMetrics] returns a result on every input. *)
Lemma calculateGraphMetrics_total g adj :
  ∃ m, calculateGraphMetrics g adj = Some m.
Proof.
  unfold calculateGraphMetrics. case_bool_decide; [by eauto|].
  destruct (metrics_fold_total adj g (Z.of_nat (length (nodes g)))
              (imap pair (nodes g)) (Totals (Num 0) 0 0 true 0)) as [t ->].
  simpl. by eauto.
Qed.

(** A negative verdict always comes with both sentinels. *)
Lemma calculateGraphMetrics_disconnected g adj m :
  calculateGraphMetrics g adj = Some m → isConnected m = false →
  m = Metrics Infinity FInfinity false.
Proof.
  unfold calculateGraphMetrics. case_bool_decide.
  - by intros [= <-].
  - destruct (foldl _ _ _) as [t|]; simpl; [|done].
    intros [= <-]. simpl. by intros ->.
Qed.

Lemma unreachable_of_bfs g s v r :
  bfs s (buildAdjacency g) (nodes g) = Some r →
  jsmap_get (distances r) v = Some Infinity →
  ¬ reachable (linked g) s v.
Proof.
  intros Hr Hv. destruct (bfs_graph g s) as (r' & Hr' & Hinv).
  rewrite Hr in Hr'. injection Hr' as <-.
  by apply (bfs_infinite _ _ _ _ (linked_complete g) r Hinv v).
Qed.

(** C4.  When some node of the graph cannot be reached from some other
    node, [calculateGraphMetrics] returns a result (it does not fail) whose
    [isConnected] is false and whose [diameter] and [avgPathLength] are both
    the infinity sentinel. *)
Theorem disconnected_graph_metrics (g : graph) (a b : Z) :
  a ∈ ids g → b ∈ ids g → ¬ reachable (linked g) a b →
  calculateGraphMetrics g (buildAdjacency g)
  = Some (Metrics Infinity FInfinity false).
Proof.
  intros Ha Hb Hno.
  destruct (calculateGraphMetrics_total g (buildAdjacency g)) as [m Hm].
  rewrite Hm. f_equal. apply (calculateGraphMetrics_disconnected _ _ _ Hm).
  destruct (isConnected m) eqn:Hconn; [|done].
  destruct Hno. by apply (metrics_connected_sound g m).
Qed.

Lemma disconnected_graph_metrics_witness :
  calculateGraphMetrics two_rings (buildAdjacency two_rings)
  = Some (Metrics Infinity FInfinity false).
Proof.
  apply (disconnected_graph_metrics two_rings 0 3).
  - by_evaluation.
  - by_evaluation.
  - eapply unreachable_of_bfs; vm_compute; reflexivity.
Defined.

(** C10.  Whenever [calculateGraphMetrics] answers [isConnected = true],
    every node of the graph is reachable from every other node over the
    undirected links of the graph; this holds for every graph, whether or
    not its edge endpoints all name existing nodes.  The reason is that a
    disconnection always shows at the first source: if some node cannot be
    reached from some other node, the search from the first node of the
    list leaves fewer non-sentinel entries than the graph has nodes. *)
Theorem isConnected_sound :
  (∀ (g : graph) (m : metrics),
     calculateGraphMetrics g (buildAdjacency g) = Some m →
     isConnected m = true →
     ∀ a b, a ∈ ids g → b ∈ ids g → reachable (linked g) a b) ∧
  (∀ (g : graph) (nd : node) (ns : list node) (r : bfs_state) (a b : Z),
     nodes g = nd :: ns →
     bfs (node_id nd) (buildAdjacency g) (nodes g) = Some r →
     a ∈ ids g → b ∈ ids g → ¬ reachable (linked g) a b →
     reachableCount
       (jsmap_forEach count_distance (distances r) (Tally (Num 0) 0 0 0))
     < Z.of_nat (length (nodes g))).
Proof.
  split; [apply metrics_connected_sound|].
  intros g nd ns r a b Hnodes Hr Ha Hb Hno.
  rewrite forEach_reachableCount. simpl.
  destruct (decide (reached (distances r) < Z.of_nat (length (nodes g))))
    as [|Hcount]; [done|].
  destruct Hno. destruct (bfs_graph g (node_id nd)) as (r' & Hr' & Hinv).
  rewrite Hr in Hr'. injection Hr' as <-.
  apply (first_search_connected g nd r); [|done..].
  rewrite Hnodes. apply list_elem_of_here.
Qed.

Lemma isConnected_sound_witness :
  calculateGraphMetrics ring12 (buildAdjacency ring12)
  = Some (Metrics (Num 6) (Frac (toFixed3 (432 # 132))) true) ∧
  reachable (linked ring12) 7 2.
Proof.
  assert (Hm : calculateGraphMetrics ring12 (buildAdjacency ring12)
               = Some (Metrics (Num 6) (Frac (toFixed3 (432 # 132))) true)).
  { vm_compute. reflexivity. }
  split; [exact Hm|].
  apply (proj1 isConnected_sound ring12 _ Hm).
  - reflexivity.
  - by_evaluation.
  - by_evaluation.
Defined.

(** ** Generators on the specification's sample parameters *)

(** C7.  [generateTorus(4, 5)] returns exactly 20 nodes, the node in row
    [r] and column [c] having id [r * 5 + c] (so the ids are 0..19 in
    order), and exactly 40 edges, and every node is an end of exactly 4
    edges. *)
Theorem torus_4_5_shape :
  let g := generateTorus 4 5 in
  length (nodes g) = 20%nat ∧
  nodes g = (r ← seqZ 0 4; (λ c, GridNode (r * 5 + c) r c) <$> seqZ 0 5) ∧
  ids g = seqZ 0 20 ∧
  length (edges g) = 40%nat ∧
  ∀ v, v ∈ ids g → degree g v = 4%nat.
Proof.
  split_and!; [vm_compute; reflexivity..|].
  apply Forall_forall. by_evaluation.
Qed.

(** C8.  [generateRing(12, 1)] returns 12 nodes and the 12 edges of the
    cycle; [generateRing(12, 6)] returns 12 nodes and 18 edges, the 12
    cycle edges followed by the 6 chords [(i, i + 6)] for [i] in 0..5. *)
Theorem ring_12_edge_counts :
  (let g := value (generateRing 12 1) in
   length (nodes g) = 12%nat ∧ length (edges g) = 12%nat ∧
   edges g = (λ i, Edge i ((i + 1) `mod` 12)) <$> seqZ 0 12) ∧
  (let g := value (generateRing 12 6) in
   length (nodes g) = 12%nat ∧ length (edges g) = 18%nat ∧
   edges g = ((λ i, Edge i ((i + 1) `mod` 12)) <$> seqZ 0 12)
             ++ ((λ i, Edge i (i + 6)) <$> seqZ 0 6)).
Proof. split; split_and!; vm_compute; reflexivity. Qed.

(** ** Ring: clamping of the skip distance *)

Lemma clamp_skip_idem n skip : clamp_skip n (clamp_skip n skip) = clamp_skip n skip.
Proof. unfold clamp_skip. lia. Qed.

(** C9.  For [n >= 1] and any [skip], [generateRing(n, skip)] returns the
    graph that [generateRing] returns for the clamped skip: the clamped
    value lies in [[1, max(1, floor(n/2))]], equals [skip] when [skip] is in
    that range, the lower end when [skip] is below it and the upper end when
    it is above.  Generation with the clamped value emits no warning; with
    an out-of-range value it emits exactly one warning line and still
    returns the graph. *)
Theorem generateRing_clamps_skip (n skip : Z) :
  1 ≤ n →
  let s := clamp_skip n skip in
  value (generateRing n skip) = value (generateRing n s) ∧
  1 ≤ s ≤ Z.max 1 (n `div` 2) ∧
  (1 ≤ skip ≤ Z.max 1 (n `div` 2) → s = skip) ∧
  (skip < 1 → s = 1) ∧
  (Z.max 1 (n `div` 2) < skip → s = Z.max 1 (n `div` 2)) ∧
  warned (generateRing n s) = [] ∧
  warned (generateRing n skip)
  = if decide (skip = s) then [] else [ring_warning skip s n].
Proof.
  intros Hn s. pose proof (clamp_skip_idem n skip) as Hidem. fold s in Hidem.
  assert (Hs : Z.max 1 (Z.min skip (Z.max 1 (n `div` 2))) = s) by done.
  assert (Hs' : Z.max 1 (Z.min s (Z.max 1 (n `div` 2))) = s) by done.
  split_and!; try (unfold s, clamp_skip; lia).
  - unfold generateRing. rewrite bool_decide_eq_false_2 by lia.
    rewrite Hs, Hs'. by repeat case_bool_decide.
  - unfold generateRing. rewrite bool_decide_eq_false_2 by lia.
    rewrite Hs'. rewrite (bool_decide_eq_false_2 (s ≠ s)) by (by intros []).
    by repeat case_match.
  - unfold generateRing. rewrite bool_decide_eq_false_2 by lia.
    rewrite Hs. destruct (decide (skip = s)) as [Heq|Hne].
    + rewrite (bool_decide_eq_false_2 (skip ≠ s)) by (by intros []).
      by repeat case_match.
    + rewrite (bool_decide_eq_true_2 (skip ≠ s)) by done.
      by repeat case_match.
Qed.

Lemma generateRing_clamps_skip_witness :
  1 ≤ 12 ∧
  value (generateRing 12 100) = value (generateRing 12 (clamp_skip 12 100)) ∧
  clamp_skip 12 100 = 6 ∧
  warned (generateRing 12 100) = [ring_warning 100 6 12].
Proof.
  assert (H12 : 1 ≤ 12) by lia.
  pose proof (generateRing_clamps_skip 12 100 H12) as (Hv & _ & _ & _ & Hup & _ & Hw).
  split_and!; [exact H12|exact Hv|reflexivity|exact Hw].
Defined.

(** ** Generators: the graph invariants *)

Lemma no_edges_ok n : acc_ok n no_edges.
Proof.
  split; simpl; [constructor|constructor|]. by intros e ?%elem_of_nil.
Qed.

Lemma addEdge_ok n st u v :
  acc_ok n st → 0 ≤ u < n → 0 ≤ v < n → acc_ok n (addEdge st u v).
Proof.
  intros [Hrange Hnd Hkeys] Hu Hv. unfold addEdge.
  destruct (bool_decide (_ ∉ _) && _) eqn:Hnew; [|done].
  apply andb_prop in Hnew as [Hfresh Hne].
  apply bool_decide_eq_true in Hfresh. apply bool_decide_eq_true in Hne.
  split; simpl.
  - apply Forall_app. split; [done|]. apply Forall_singleton.
    unfold edge_ok. simpl. split; [lia|done].
  - rewrite fmap_app. apply NoDup_app. split_and!; [done| |apply NoDup_singleton].
    intros p Hp ->%list_elem_of_singleton.
    apply list_elem_of_fmap in Hp as (e & Heq & He).
    apply Hfresh. specialize (Hkeys e He). by rewrite <-Heq in Hkeys.
  - intros e [He| ->%list_elem_of_singleton]%elem_of_app.
    + apply elem_of_union. right. by apply Hkeys.
    + apply elem_of_union. left. by apply elem_of_singleton.
Qed.

(** A loop that only calls [addEdge] on endpoints in range. *)
Lemma addEdge_fold_ok {A} n (f g : A → Z) (l : list A) st :
  acc_ok n st → (∀ x, x ∈ l → 0 ≤ f x < n ∧ 0 ≤ g x < n) →
  acc_ok n (foldl (λ st x, addEdge st (f x) (g x)) st l).
Proof.
  revert st. induction l as [|x l IH]; intros st Hst Hl; simpl; [done|].
  apply IH.
  - apply addEdge_ok; [done|apply Hl, list_elem_of_here..].
  - intros y Hy. by apply Hl, list_elem_of_further.
Qed.

Lemma rem_range a n : 0 ≤ a → 0 < n → 0 ≤ a `rem` n < n.
Proof. intros. rewrite Z.rem_mod_nonneg by lia. by apply Z.mod_pos_bound. Qed.

Lemma ids_fmap_seqZ (f : Z → node) n :
  (∀ i, node_id (f i) = i) → 0 ≤ n →
  let ns := f <$> seqZ 0 n in
  node_id <$> ns = seqZ 0 (Z.of_nat (length ns)).
Proof.
  intros Hf Hn ns. unfold ns. rewrite length_fmap, length_seqZ, Z2Nat.id by done.
  rewrite <-list_fmap_compose. rewrite <-(list_fmap_id (seqZ 0 n)) at 2.
  apply list_fmap_ext. intros i x _. simpl. apply Hf.
Qed.

Lemma generateRing_well_formed n skip : well_formed (value (generateRing n skip)).
Proof.
  unfold generateRing. case_bool_decide as Hn1; simpl.
  { split_and!; [done|constructor|constructor]. }
  assert (Hids : ids (Graph (RingNode <$> seqZ 0 n) [])
                 = seqZ 0 (Z.of_nat (length (RingNode <$> seqZ 0 n)))).
  { apply (ids_fmap_seqZ RingNode); [done|lia]. }
  assert (Hlen : Z.of_nat (length (RingNode <$> seqZ 0 n)) = n).
  { rewrite length_fmap, length_seqZ. lia. }
  case_bool_decide as Hn2; simpl.
  { split_and!; [done|constructor|constructor]. }
  set (base := foldl (λ st i, addEdge st i ((i + 1) `rem` n)) no_edges (seqZ 0 n)).
  assert (Hbase : acc_ok n base).
  { apply (addEdge_fold_ok n (λ i, i) (λ i, (i + 1) `rem` n)); [apply no_edges_ok|].
    intros i Hi%elem_of_seqZ. split; [lia|]. apply rem_range; lia. }
  set (validSkip := Z.max 1 (Z.min skip (Z.max 1 (n `div` 2)))).
  assert (Hall : acc_ok n
    (if bool_decide (1 < validSkip) && bool_decide (3 ≤ n)
     then foldl (λ st i, addEdge st i ((i + validSkip) `rem` n)) base (seqZ 0 n)
     else base)).
  { destruct (_ && _); [|done].
    apply (addEdge_fold_ok n (λ i, i) (λ i, (i + validSkip) `rem` n)); [done|].
    intros i Hi%elem_of_seqZ. split; [lia|]. apply rem_range; lia. }
  destruct Hall as [Hrange Hnd _].
  split_and!; simpl; [done|by rewrite Hlen|done].
Qed.

Lemma foldl_preserves {A B} (P : A → Prop) (f : A → B → A) (l : list B) a :
  P a → (∀ a x, x ∈ l → P a → P (f a x)) → P (foldl f a l).
Proof.
  revert a. induction l as [|x l IH]; intros a Ha Hf; simpl; [done|].
  apply IH.
  - apply Hf; [apply list_elem_of_here|done].
  - intros a' y Hy. apply Hf. by apply list_elem_of_further.
Qed.

(** Row-major numbering of a grid enumerates [0 .. rows * cols - 1]. *)
Lemma grid_node_ids rows cols :
  0 ≤ rows → 0 ≤ cols →
  node_id <$> (r ← seqZ 0 rows; (λ c, GridNode (r * cols + c) r c) <$> seqZ 0 cols)
  = seqZ 0 (rows * cols).
Proof.
  intros Hrows Hcols. rewrite <-(Z2Nat.id rows) by done.
  induction (Z.to_nat rows) as [|k IH]; [done|].
  rewrite seqZ_S, bind_app, fmap_app, IH. simpl. rewrite app_nil_r.
  rewrite <-list_fmap_compose.
  replace (Z.of_nat (S k) * cols) with (Z.of_nat k * cols + cols) by lia.
  rewrite seqZ_app by lia. f_equal.
  replace (0 + Z.of_nat k * cols) with (Z.of_nat k * cols + 0) by lia.
  rewrite <-fmap_add_seqZ. by apply list_fmap_ext.
Qed.

Lemma nodeAt_range rows cols r c :
  0 < rows → 0 < cols → 0 ≤ r → 0 ≤ c →
  0 ≤ nodeAt rows cols r c < rows * cols.
Proof.
  intros Hrows Hcols Hr Hc. unfold nodeAt.
  pose proof (rem_range (r + rows) rows). pose proof (rem_range (c + cols) cols).
  nia.
Qed.

Lemma torus_cell_ok rows cols r st c :
  0 < rows → 0 < cols → 0 ≤ r → 0 ≤ c →
  acc_ok (rows * cols) st → acc_ok (rows * cols) (torus_cell rows cols r st c).
Proof.
  intros Hrows Hcols Hr Hc Hst. unfold torus_cell.
  assert (Hst1 : acc_ok (rows * cols)
    (if bool_decide (1 < rows)
     then addEdge st (nodeAt rows cols r c) (nodeAt rows cols (r + 1) c) else st)).
  { case_bool_decide; [|done]. apply addEdge_ok; [done|apply nodeAt_range; lia..]. }
  revert Hst1. generalize (if bool_decide (1 < rows)
     then addEdge st (nodeAt rows cols r c) (nodeAt rows cols (r + 1) c) else st).
  intros st1 Hst1.
  case_bool_decide; [|done]. apply addEdge_ok; [done|apply nodeAt_range; lia..].
Qed.

Lemma generateTorus_well_formed rows cols : well_formed (generateTorus rows cols).
Proof.
  unfold generateTorus. destruct (_ || _) eqn:Hguard.
  { split_and!; [done|constructor|constructor]. }
  apply orb_false_elim in Hguard as [Hrows%bool_decide_eq_false Hcols%bool_decide_eq_false].
  set (ns := r ← seqZ 0 rows; (λ c, GridNode (r * cols + c) r c) <$> seqZ 0 cols).
  assert (Hids : node_id <$> ns = seqZ 0 (rows * cols)).
  { apply grid_node_ids; lia. }
  assert (Hlen : Z.of_nat (length ns) = rows * cols).
  { rewrite <-(length_fmap node_id), Hids, length_seqZ. lia. }
  assert (Hst : acc_ok (rows * cols)
    (foldl (λ st r, foldl (torus_cell rows cols r) st (seqZ 0 cols))
       no_edges (seqZ 0 rows))).
  { apply foldl_preserves; [apply no_edges_ok|].
    intros st r Hr%elem_of_seqZ Hst. apply foldl_preserves; [done|].
    intros st' c Hc%elem_of_seqZ Hst'. apply torus_cell_ok; [lia..|done]. }
  destruct Hst as [Hrange Hnd _].
  unfold well_formed, ids. simpl. rewrite Hlen. done.
Qed.

(** Flipping one of the low [d] bits keeps a number below [2 ^ d] and
    changes it. *)
Lemma lxor_bit_range d i j :
  0 ≤ i < 2 ^ d → 0 ≤ j < d →
  0 ≤ Z.lxor i (Z.shiftl 1 j) < 2 ^ d ∧ Z.lxor i (Z.shiftl 1 j) ≠ i.
Proof.
  intros Hi Hj. rewrite Z.shiftl_1_l.
  assert (Hpow : 0 < 2 ^ j < 2 ^ d).
  { split; [apply Z.pow_pos_nonneg; lia|apply Z.pow_lt_mono_r; lia]. }
  split_and!.
  - apply Z.lxor_nonneg. lia.
  - destruct (decide (Z.lxor i (2 ^ j) = 0)) as [->|Hnz]; [lia|].
    assert (0 ≤ Z.lxor i (2 ^ j)) by (apply Z.lxor_nonneg; lia).
    apply Z.log2_lt_pow2; [lia|].
    pose proof (Z.log2_lxor i (2 ^ j)) as Hlog.
    assert (Z.log2 (2 ^ j) < d) by (rewrite Z.log2_pow2; lia).
    assert (Z.log2 i < d).
    { destruct (decide (i = 0)) as [->|?]; [simpl; lia|].
      apply Z.log2_lt_pow2; lia. }
    lia.
  - intros Heq. assert (Z.lxor i (Z.lxor i (2 ^ j)) = 0) as Hz.
    { rewrite Heq. apply Z.lxor_nilpotent. }
    rewrite <-Z.lxor_assoc, Z.lxor_nilpotent, Z.lxor_0_l in Hz. lia.
Qed.

Lemma cube_edge_addEdge i st j :
  Z.lxor i (Z.shiftl 1 j) ≠ i →
  cube_edge i st j = addEdge st i (Z.lxor i (Z.shiftl 1 j)).
Proof.
  intros Hne. unfold cube_edge, addEdge.
  rewrite (bool_decide_eq_true_2 (_ ≠ _)) by lia. by rewrite andb_true_r.
Qed.

Lemma generateHypercube_well_formed d : well_formed (value (generateHypercube d)).
Proof.
  unfold generateHypercube. simpl.
  set (d0 := if bool_decide (d < 0) then 0 else d).
  set (d1 := if bool_decide (10 < d0) then 10 else d0).
  assert (Hd1 : 0 ≤ d1 ≤ 10).
  { unfold d1, d0. repeat case_bool_decide; lia. }
  clearbody d1. clear d0.
  assert (Hn : 0 < 2 ^ d1) by (apply Z.pow_pos_nonneg; lia).
  set (ns := (λ i, CubeNode i (padStart (toString2 i) d1)) <$> seqZ 0 (2 ^ d1)).
  assert (Hids : node_id <$> ns = seqZ 0 (Z.of_nat (length ns))).
  { apply (ids_fmap_seqZ (λ i, CubeNode i (padStart (toString2 i) d1))); [done|lia]. }
  assert (Hlen : Z.of_nat (length ns) = 2 ^ d1).
  { unfold ns. rewrite length_fmap, length_seqZ. lia. }
  assert (Hst : acc_ok (2 ^ d1)
    (if bool_decide (0 < d1)
     then foldl (λ st i, foldl (cube_edge i) st (seqZ 0 d1)) no_edges
            (seqZ 0 (2 ^ d1))
     else no_edges)).
  { case_bool_decide; [|apply no_edges_ok].
    apply foldl_preserves; [apply no_edges_ok|].
    intros st i Hi%elem_of_seqZ Hst. apply foldl_preserves; [done|].
    intros st' j Hj%elem_of_seqZ Hst'.
    destruct (lxor_bit_range d1 i j) as [? ?]; [lia..|].
    rewrite cube_edge_addEdge by done. apply addEdge_ok; [done|lia..]. }
  destruct Hst as [Hrange Hnd _]. rewrite Hlen in Hids.
  unfold well_formed, ids. simpl. rewrite Hlen. done.
Qed.

(** *** Mesh *)

Lemma grid_at_alter (g : gmap Z (gmap Z Z)) r c x r' c' :
  is_Some (g !! r) →
  grid_at (alter (λ line, <[c := x]> line) r g) r' c'
  = if decide (r' = r ∧ c' = c) then Some x else grid_at g r' c'.
Proof.
  intros [line Hline]. unfold grid_at. destruct (decide (r' = r)) as [->|Hr].
  - rewrite lookup_alter_eq, Hline. simpl.
    destruct (decide (c' = c)) as [->|Hc].
    + rewrite lookup_insert_eq. by rewrite decide_True.
    + rewrite lookup_insert_ne by done. rewrite decide_False; [done|]. naive_solver.
  - rewrite lookup_alter_ne by done. rewrite decide_False; [done|]. naive_solver.
Qed.

Lemma mesh_edge_ok_mono b b' e : b ≤ b' → mesh_edge_ok b e → mesh_edge_ok b' e.
Proof. unfold mesh_edge_ok. lia. Qed.

Lemma mesh_cell_ok cols r c st :
  0 ≤ r → 0 ≤ c < cols → cell_ok cols r c st →
  ∃ st', mesh_cell r st c = Some st' ∧ cell_ok cols r (c + 1) st'.
Proof.
  intros Hr Hc [Hcnt Hids Hgrid Hline Hrow Hedges Hnd]. unfold mesh_cell.
  set (nodeId := idCounter st) in *.
  set (grid := alter (λ line, <[c := nodeId]> line) r (nodeGrid st)).
  assert (Hrc : 0 ≤ r * cols) by nia.
  assert (HnodeId : 0 ≤ nodeId) by lia.
  assert (Hfresh : ∀ t, Edge nodeId t ∉ mesh_edges st).
  { intros t Hin. rewrite Forall_forall in Hedges. apply Hedges in Hin.
    unfold mesh_edge_ok in Hin. simpl in Hin. lia. }
  assert (Hold : Forall (mesh_edge_ok (nodeId + 1)) (mesh_edges st)).
  { eapply Forall_impl; [done|]. intros e. apply mesh_edge_ok_mono. lia. }
  set (edges1 := if bool_decide (0 < c)
    then mesh_edges st ++ [Edge nodeId (nodeId - 1)] else mesh_edges st).
  assert (H1 : (if bool_decide (0 < c)
     then left ← grid_at grid r (c - 1); Some (mesh_edges st ++ [Edge nodeId left])
     else Some (mesh_edges st)) = Some edges1).
  { unfold edges1. case_bool_decide; [|done]. unfold grid.
    rewrite grid_at_alter by done. rewrite decide_False by lia.
    rewrite Hline by lia. simpl.
    by replace (r * cols + (c - 1)) with (nodeId - 1) by lia. }
  rewrite H1. clear H1. simpl.
  set (edges2 := if bool_decide (0 < r)
    then edges1 ++ [Edge nodeId (nodeId - cols)] else edges1).
  assert (H2 : (if bool_decide (0 < r)
     then up ← grid_at grid (r - 1) c; Some (edges1 ++ [Edge nodeId up])
     else Some edges1) = Some edges2).
  { unfold edges2. case_bool_decide; [|done]. unfold grid.
    rewrite grid_at_alter by done. rewrite decide_False by lia.
    rewrite Hgrid by lia. simpl.
    by replace ((r - 1) * cols + c) with (nodeId - cols) by lia. }
  rewrite H2. clear H2. simpl. eexists. split; [done|].
  assert (He1 : Forall (mesh_edge_ok (nodeId + 1)) edges1 ∧ NoDup edges1 ∧
                ∀ t, Edge nodeId t ∈ edges1 → t = nodeId - 1 ∧ 0 < c).
  { unfold edges1. case_bool_decide.
    - split_and!.
      + apply Forall_app. split; [done|]. apply Forall_singleton.
        unfold mesh_edge_ok. simpl. lia.
      + apply NoDup_app. split_and!; [done| |apply NoDup_singleton].
        intros e He ->%list_elem_of_singleton. by apply Hfresh in He.
      + intros t [Hin|[= ->]%list_elem_of_singleton]%elem_of_app; [|done].
        by apply Hfresh in Hin.
    - split_and!; [done..|]. intros t Hin. by apply Hfresh in Hin. }
  destruct He1 as (Hok1 & Hnd1 & Hnew1).
  split; simpl.
  - lia.
  - rewrite fmap_app, Hids. simpl.
    replace (nodeId + 1) with (Z.of_nat (S (Z.to_nat nodeId))) by lia.
    rewrite seqZ_S. rewrite !Z2Nat.id by lia. simpl. done.
  - intros r' c' Hr' Hc'. unfold grid. rewrite grid_at_alter by done.
    rewrite decide_False by lia. by apply Hgrid.
  - intros c' Hc'. unfold grid. rewrite grid_at_alter by done.
    case_decide as Hcase.
    + destruct Hcase as [_ ->]. f_equal. lia.
    + apply Hline. lia.
  - unfold grid. destruct Hrow as [line Hline']. rewrite lookup_alter_eq, Hline'.
    by eauto.
  - unfold edges2. case_bool_decide; [|done].
    apply Forall_app. split; [done|]. apply Forall_singleton.
    unfold mesh_edge_ok. simpl. nia.
  - unfold edges2. case_bool_decide; [|done].
    apply NoDup_app. split_and!; [done| |apply NoDup_singleton].
    intros e He ->%list_elem_of_singleton. apply Hnew1 in He. lia.
Qed.

Lemma mesh_cells_ok cols r st (k : nat) c :
  0 ≤ r → 0 ≤ c → c + Z.of_nat k ≤ cols → cell_ok cols r c st →
  ∃ st', foldl (λ acc c, acc ≫= λ s, mesh_cell r s c) (Some st)
           (seqZ c (Z.of_nat k)) = Some st' ∧
         cell_ok cols r (c + Z.of_nat k) st'.
Proof.
  revert st c. induction k as [|k IH]; intros st c Hr Hc Hk Hst.
  - exists st. simpl. by rewrite Z.add_0_r.
  - rewrite seqZ_cons by lia. simpl.
    destruct (mesh_cell_ok cols r c st) as (st1 & -> & Hst1); [lia..|done|].
    replace (Z.pred (Z.of_nat (S k))) with (Z.of_nat k) by lia.
    destruct (IH st1 (Z.succ c)) as (st' & Hst' & Hok); [lia..| |].
    { by replace (Z.succ c) with (c + 1) by lia. }
    exists st'. split; [done|].
    by replace (c + Z.of_nat (S k)) with (Z.succ c + Z.of_nat k) by lia.
Qed.

Lemma mesh_row_ok cols r st :
  0 ≤ r → 0 < cols → row_ok cols r st →
  ∃ st', mesh_row cols st r = Some st' ∧ row_ok cols (r + 1) st'.
Proof.
  intros Hr Hcols [Hcnt Hids Hgrid Hedges Hnd]. unfold mesh_row.
  set (st0 := MeshState _ _ _ _).
  assert (Hst0 : cell_ok cols r 0 st0).
  { split; simpl; try done.
    - lia.
    - intros r' c' Hr' Hc'. unfold grid_at. rewrite lookup_insert_ne by lia.
      by apply Hgrid.
    - intros c' Hc'. lia.
    - rewrite lookup_insert_eq. by eauto. }
  destruct (mesh_cells_ok cols r st0 (Z.to_nat cols) 0) as (st' & Hst' & Hok);
    [lia..|done|].
  rewrite Z2Nat.id in Hst', Hok by lia.
  exists st'. split; [done|]. destruct Hok as [Hcnt' Hids' Hgrid' Hline' _ He' Hnd'].
  split; try done.
  - lia.
  - intros r' c' Hr' Hc'. destruct (decide (r' = r)) as [->|Hne].
    + apply Hline'. lia.
    + apply Hgrid'; lia.
Qed.

Lemma mesh_rows_ok cols st (k : nat) r :
  0 ≤ r → 0 < cols → row_ok cols r st →
  ∃ st', foldl (λ acc r, acc ≫= λ s, mesh_row cols s r) (Some st)
           (seqZ r (Z.of_nat k)) = Some st' ∧
         row_ok cols (r + Z.of_nat k) st'.
Proof.
  revert st r. induction k as [|k IH]; intros st r Hr Hcols Hst.
  - exists st. simpl. by rewrite Z.add_0_r.
  - rewrite seqZ_cons by lia. simpl.
    destruct (mesh_row_ok cols r st) as (st1 & -> & Hst1); [lia..|done|].
    replace (Z.pred (Z.of_nat (S k))) with (Z.of_nat k) by lia.
    destruct (IH st1 (Z.succ r)) as (st' & Hst' & Hok); [lia..| |].
    { by replace (Z.succ r) with (r + 1) by lia. }
    exists st'. split; [done|].
    by replace (r + Z.of_nat (S k)) with (Z.succ r + Z.of_nat k) by lia.
Qed.

(** [generateMesh] never reads an unwritten grid cell, and its result
    keeps the graph invariants. *)
Lemma generateMesh_total rows cols :
  ∃ g, generateMesh rows cols = Some g ∧ well_formed g.
Proof.
  unfold generateMesh. destruct (_ || _) eqn:Hguard.
  { eexists. split; [done|]. split_and!; [done|constructor|constructor]. }
  apply orb_false_elim in Hguard as [Hrows%bool_decide_eq_false Hcols%bool_decide_eq_false].
  destruct (mesh_rows_ok cols (MeshState [] [] 0 ∅) (Z.to_nat rows) 0)
    as (st & Hst & [Hcnt Hids Hgrid Hedges Hnd]); [lia..| |].
  { split; simpl; try done; [|constructor].
    intros r' c' Hr'. lia. }
  rewrite Z2Nat.id in Hst by lia. rewrite Hst. simpl.
  eexists. split; [done|].
  assert (Hlen : Z.of_nat (length (mesh_nodes st)) = idCounter st).
  { rewrite <-(length_fmap node_id), Hids, length_seqZ. lia. }
  unfold well_formed, ids. simpl. rewrite Hlen. split_and!; [done| |].
  - eapply Forall_impl; [done|]. intros e. unfold mesh_edge_ok, edge_ok. lia.
  - apply NoDup_fmap_2_strong; [|done].
    intros e1 e2 He1 He2. rewrite Forall_forall in Hedges.
    apply Hedges in He1. apply Hedges in He2. unfold mesh_edge_ok in *.
    destruct e1 as [s1 t1], e2 as [s2 t2]. unfold unordered. simpl in *.
    intros [= Hmin Hmax]. f_equal; lia.
Qed.

(** C5.  Every generator, on all parameter values, returns a graph whose
    node ids are [0 .. n-1] in order ([n] the number of nodes), every edge
    of which joins two different ids of that range, and in which no
    unordered pair of endpoints occurs twice.  ([generateMesh] also never
    reads an unwritten grid cell.) *)
Theorem generators_well_formed :
  (∀ n skip, well_formed (value (generateRing n skip))) ∧
  (∀ rows cols, ∃ g, generateMesh rows cols = Some g ∧ well_formed g) ∧
  (∀ rows cols, well_formed (generateTorus rows cols)) ∧
  (∀ d, well_formed (value (generateHypercube d))).
Proof.
  split_and!.
  - apply generateRing_well_formed.
  - apply generateMesh_total.
  - apply generateTorus_well_formed.
  - apply generateHypercube_well_formed.
Qed.

(** ** Metrics of a connected graph *)

Lemma sumZ_cons {A} (f : A → Z) x l : sumZ f (x :: l) = f x + sumZ f l.
Proof. done. Qed.

Lemma maxZ_cons {A} (f : A → Z) x l init :
  maxZ f (x :: l) init = maxZ f l (Z.max init (f x)).
Proof. done. Qed.

Lemma sumZ_ext {A} (f g : A → Z) l :
  (∀ x, x ∈ l → f x = g x) → sumZ f l = sumZ g l.
Proof.
  induction l as [|x l IH]; intros Hfg; simpl; [done|].
  rewrite Hfg by apply list_elem_of_here. rewrite IH; [done|].
  intros y Hy. by apply Hfg, list_elem_of_further.
Qed.

Lemma maxZ_lower {A} (f : A → Z) l init : init ≤ maxZ f l init.
Proof.
  unfold maxZ. revert init. induction l as [|x l IH]; intros init; simpl; [lia|].
  etrans; [|apply IH]. lia.
Qed.

Lemma maxZ_upper {A} (f : A → Z) l init x : x ∈ l → f x ≤ maxZ f l init.
Proof.
  unfold maxZ. revert init. induction l as [|y l IH]; intros init; simpl.
  - by intros ?%elem_of_nil.
  - intros [->|Hx]%elem_of_cons; [|by apply IH].
    etrans; [|apply (maxZ_lower f l)]. lia.
Qed.


(** A map with the keys [l] whose values are given by [f]. *)
Lemma jsmap_tabulate {V} (m : JsMap V) (l : list Z) (f : Z → V) :
  jsmap_keys m = l → (∀ k x, (k, x) ∈ m → x = f k) →
  m = (λ k, (k, f k)) <$> l.
Proof.
  revert l. induction m as [|[k x] m IH]; intros l Hl Hf; simpl in *.
  - by subst l.
  - subst l. simpl. f_equal.
    + f_equal. apply Hf, list_elem_of_here.
    + apply IH; [done|]. intros k' x' Hin. by apply Hf, list_elem_of_further.
Qed.

(** The [forEach] pass over a distance map without sentinel entries. *)
Lemma forEach_tabulated (f : Z → Z) (l : list Z) mx c sm pr :
  (∀ b, b ∈ l → 0 ≤ f b) →
  jsmap_forEach count_distance ((λ b, (b, Num (f b))) <$> l) (Tally (Num mx) c sm pr)
  = Tally (Num (maxZ f l mx)) (c + Z.of_nat (length l)) (sm + sumZ f l)
          (pr + sumZ (λ b, if decide (0 < f b) then 1 else 0) l).
Proof.
  unfold jsmap_forEach, maxZ. revert mx c sm pr.
  induction l as [|b l IH]; intros mx c sm pr Hf; simpl.
  - f_equal; lia.
  - rewrite IH by (intros b' Hb'; by apply Hf, list_elem_of_further).
    assert (0 ≤ f b) by apply Hf, list_elem_of_here.
    f_equal; [lia| |].
    + case_bool_decide; lia.
    + case_bool_decide; case_decide; lia.
Qed.

Lemma fill_keys_exact {V} (x : V) (ns : list node) (m : JsMap V) :
  NoDup (jsmap_keys m ++ (node_id <$> ns)) →
  jsmap_keys (foldl (λ m n, jsmap_set m (node_id n) x) m ns)
  = jsmap_keys m ++ (node_id <$> ns).
Proof.
  revert m. induction ns as [|n ns IH]; intros m Hnd; simpl.
  - by rewrite app_nil_r.
  - assert (Hfresh : node_id n ∉ jsmap_keys m).
    { apply NoDup_app in Hnd as (_ & Hdisj & _). intros Hin.
      apply (Hdisj _ Hin), list_elem_of_here. }
    rewrite IH; rewrite jsmap_keys_set_new by done.
    + by rewrite <-app_assoc.
    + by rewrite <-app_assoc.
Qed.

(** Searching a graph with distinct ids from one of its nodes gives a
    distance map whose keys are the ids, in order. *)
Lemma bfs_distances_keys g start r :
  NoDup (ids g) → start ∈ ids g →
  bfs_inv (nodes g) start (linked g) (length (queue r)) r →
  jsmap_keys (distances r) = ids g.
Proof.
  intros Hnd Hstart Hinv. rewrite (inv_keysD _ _ _ _ _ Hinv).
  unfold bfs_init. simpl.
  assert (Hfill : jsmap_keys
    (foldl (λ m n, jsmap_set m (node_id n) Infinity) [] (nodes g)) = ids g).
  { by rewrite fill_keys_exact. }
  rewrite jsmap_keys_set_old; [done|]. by rewrite Hfill.
Qed.

Lemma hop_count_spec g a b :
  b ∈ ids g → reachable (linked g) a b →
  ∃ r, bfs a (buildAdjacency g) (nodes g) = Some r ∧
       jsmap_get (distances r) b = Some (Num (hop_count g a b)) ∧
       0 ≤ hop_count g a b ∧
       shortest (linked g) a b (Z.to_nat (hop_count g a b)).
Proof.
  intros Hb Hreach. destruct (bfs_graph g a) as (r & Hr & Hinv).
  exists r. split; [done|]. unfold hop_count. rewrite Hr.
  destruct (bfs_distance_cases _ _ _ _ (linked_complete g) r Hinv b)
    as [[_ Hno]|(n & -> & Hn)]; [by right|done|].
  rewrite Nat2Z.id. split_and!; [done|lia|done].
Qed.

Lemma shortest_zero_iff R a b n : shortest R a b n → n = 0%nat ↔ a = b.
Proof.
  intros [Hn Hmin]. split.
  - intros ->. by apply hops_0_inv in Hn.
  - intros ->. specialize (Hmin 0%nat (hops_O R b)). lia.
Qed.

Section connected.
Variable g : graph.
Hypothesis ids_NoDup : NoDup (ids g).
Hypothesis all_reachable :
  ∀ a b, a ∈ ids g → b ∈ ids g → reachable (linked g) a b.

Let n : Z := Z.of_nat (length (nodes g)).

Lemma connected_distances a :
  a ∈ ids g →
  ∃ r, bfs a (buildAdjacency g) (nodes g) = Some r ∧
       distances r = (λ b, (b, Num (hop_count g a b))) <$> ids g.
Proof.
  intros Ha. destruct (bfs_graph g a) as (r & Hr & Hinv).
  exists r. split; [done|].
  pose proof (bfs_distances_keys g a r ids_NoDup Ha Hinv) as Hkeys.
  apply jsmap_tabulate; [done|]. intros b x Hin.
  assert (Hb : b ∈ ids g).
  { rewrite <-Hkeys. apply list_elem_of_fmap. by exists (b, x). }
  apply jsmap_elem_of_get in Hin; [|by rewrite Hkeys].
  destruct (hop_count_spec g a b Hb (all_reachable a b Ha Hb))
    as (r' & Hr' & Hget & _).
  rewrite Hr in Hr'. injection Hr' as <-. congruence.
Qed.

Lemma hop_count_nonneg a b : a ∈ ids g → b ∈ ids g → 0 ≤ hop_count g a b.
Proof.
  intros Ha Hb.
  by destruct (hop_count_spec g a b Hb (all_reachable a b Ha Hb)) as (_ & _ & _ & ? & _).
Qed.

Lemma hop_count_shortest a b :
  a ∈ ids g → b ∈ ids g →
  shortest (linked g) a b (Z.to_nat (hop_count g a b)).
Proof.
  intros Ha Hb.
  by destruct (hop_count_spec g a b Hb (all_reachable a b Ha Hb)) as (_ & _ & _ & _ & ?).
Qed.

Lemma hop_count_zero a b :
  a ∈ ids g → b ∈ ids g → hop_count g a b = 0 ↔ a = b.
Proof.
  intros Ha Hb. pose proof (hop_count_nonneg a b Ha Hb).
  rewrite <-(shortest_zero_iff _ _ _ _ (hop_count_shortest a b Ha Hb)). lia.
Qed.

(** One source of the loop, on a graph known to be connected. *)
Lemma connected_source mx sm pr first i nd :
  nd ∈ nodes g → i = 0%nat ∨ first = n →
  metrics_source (buildAdjacency g) g n
    (Some (Totals (Num mx) sm pr true first)) (i, nd)
  = Some (Totals
      (Num (Z.max mx (maxZ (hop_count g (node_id nd)) (ids g) 0)))
      (sm + sumZ (hop_count g (node_id nd)) (ids g))
      (pr + sumZ (λ b, if decide (0 < hop_count g (node_id nd) b) then 1 else 0)
             (ids g))
      true n).
Proof.
  intros Hnd Hfirst.
  assert (Ha : node_id nd ∈ ids g) by (by apply list_elem_of_fmap_2).
  destruct (connected_distances (node_id nd) Ha) as (r & Hr & HD).
  rewrite (metrics_source_eq _ _ _ _ _ _ _ Hr). unfold source_totals.
  rewrite HD. simpl.
  rewrite forEach_tabulated by (intros b Hb; by apply hop_count_nonneg).
  simpl.
  assert (Hlen : 0 + Z.of_nat (length (ids g)) = n).
  { unfold ids, n. rewrite length_fmap. lia. }
  rewrite Hlen. rewrite (bool_decide_eq_false_2 (n < n)) by lia.
  destruct (decide (i = 0%nat)) as [Hi|Hi].
  - do 2 f_equal; lia.
  - destruct Hfirst as [?| ->]; [done|].
    rewrite (bool_decide_eq_false_2 (n ≠ n)) by (by intros []).
    do 2 f_equal; lia.
Qed.

(** The whole source loop, on a graph known to be connected. *)
Lemma connected_sources l mx sm pr first :
  (∀ e, e ∈ l → e.2 ∈ nodes g) →
  match l with [] => True | e :: _ => e.1 = 0%nat ∨ first = n end →
  ∃ first',
    foldl (metrics_source (buildAdjacency g) g n)
      (Some (Totals (Num mx) sm pr true first)) l
    = Some (Totals
        (Num (maxZ (λ a, maxZ (hop_count g a) (ids g) 0)
                ((λ e, node_id e.2) <$> l) mx))
        (sm + sumZ (λ a, sumZ (hop_count g a) (ids g))
               ((λ e, node_id e.2) <$> l))
        (pr + sumZ (λ a, sumZ (λ b, if decide (0 < hop_count g a b) then 1 else 0)
                          (ids g))
               ((λ e, node_id e.2) <$> l))
        true first').
Proof.
  revert mx sm pr first.
  induction l as [|[i nd] l IH]; intros mx sm pr first Hl Hfirst.
  - exists first. simpl. do 2 f_equal; lia.
  - cbn [foldl]. rewrite connected_source; [|apply (Hl (i, nd)), list_elem_of_here|done].
    edestruct IH as (first' & ->).
    { intros e He. by apply Hl, list_elem_of_further. }
    { destruct l; [done|by right]. }
    exists first'. rewrite !fmap_cons, !sumZ_cons, maxZ_cons. simpl.
    do 2 f_equal; lia.
Qed.
End connected.

Lemma sumZ_others (a : Z) (l : list Z) :
  NoDup l →
  sumZ (λ b, if decide (a = b) then 0 else 1) l
  = Z.of_nat (length l) - (if decide (a ∈ l) then 1 else 0).
Proof.
  induction 1 as [|b l Hb Hnd IH].
  { destruct (decide (a ∈ [])) as [H%elem_of_nil|]; done. }
  rewrite sumZ_cons, IH. simpl length. destruct (decide (a = b)) as [->|Hne].
  - rewrite (decide_True (P := b ∈ b :: l)) by apply list_elem_of_here.
    rewrite decide_False by done. lia.
  - destruct (decide (a ∈ l)) as [Hin|Hin].
    + rewrite decide_True by (by apply list_elem_of_further). lia.
    + rewrite decide_False; [lia|]. intros [?|?]%elem_of_cons; done.
Qed.

Lemma sumZ_const {A} (c : Z) (f : A → Z) (l : list A) :
  (∀ x, x ∈ l → f x = c) → sumZ f l = Z.of_nat (length l) * c.
Proof.
  induction l as [|x l IH]; intros Hf; simpl; [lia|].
  rewrite Hf by apply list_elem_of_here.
  rewrite IH by (intros y Hy; by apply Hf, list_elem_of_further). lia.
Qed.

Lemma pair_count_NoDup (l : list Z) :
  NoDup l → pair_count l = Z.of_nat (length l) * (Z.of_nat (length l) - 1).
Proof.
  intros Hnd. unfold pair_count. apply sumZ_const. intros a Ha.
  rewrite sumZ_others by done. by rewrite decide_True.
Qed.


Lemma imap_pair_nodes (ns : list node) :
  (λ e : nat * node, node_id e.2) <$> imap pair ns = node_id <$> ns.
Proof. rewrite fmap_imap. apply (imap_const node_id). Qed.



(** ** Hypercube *)

(** *** Edge keys determine the pair *)

Lemma pretty_N_go_dashless x s : dashless s → dashless (pretty_N_go x s).
Proof.
  revert s. induction (N.lt_wf_0 x) as [x _ IH]; intros s Hs.
  assert (x = 0 ∨ 0 < x)%N as [->|Hx] by lia.
  - by rewrite pretty_N_go_0.
  - rewrite pretty_N_go_step by done. apply IH.
    + by apply N.div_lt.
    + split; [|done]. unfold pretty_N_char. by repeat case_match.
Qed.

Lemma pretty_Z_dashless z : 0 ≤ z → dashless (pretty z).
Proof.
  destruct z as [|p|p]; intros Hz; [by compute| |lia].
  unfold pretty, pretty_Z, pretty, pretty_positive, pretty, pretty_N.
  rewrite decide_False by done. by apply pretty_N_go_dashless.
Qed.

Lemma app_dash_inj a b a' b' :
  dashless a → dashless a' →
  a +:+ String "-" b = a' +:+ String "-" b' → a = a' ∧ b = b'.
Proof.
  revert a'. induction a as [|c a IH]; intros [|c' a'] Ha Ha'; simpl.
  - by intros [= ->].
  - intros [= <- _]. by destruct Ha'.
  - intros [= -> _]. by destruct Ha.
  - intros [= -> Heq]. destruct Ha as [_ Ha], Ha' as [_ Ha'].
    destruct (IH a' Ha Ha' Heq) as [-> ->]. done.
Qed.

Lemma edgeKey_inj a b a' b' :
  0 ≤ a → 0 ≤ a' → edgeKey a b = edgeKey a' b' → a = a' ∧ b = b'.
Proof.
  intros Ha Ha' Heq. unfold edgeKey in Heq.
  apply app_dash_inj in Heq as [Heq1 Heq2]; [|by apply pretty_Z_dashless..].
  split; by apply (inj pretty).
Qed.

(** *** The binary label *)

Lemma bitstring_length k i : String.length (bitstring k i) = k.
Proof. induction k as [|k IH]; simpl; [done|]. by rewrite IH. Qed.

Lemma bitstring_div2 k i :
  bitstring (S k) i
  = bitstring k (Z.div2 i)
    +:+ String (if Z.testbit i 0 then "1" else "0")%char "".
Proof.
  induction k as [|k IH]; [done|].
  change (bitstring (S (S k)) i) with
    (String (if Z.testbit i (Z.of_nat (S k)) then "1" else "0")%char
       (bitstring (S k) i)).
  rewrite IH. cbn [bitstring String.append].
  rewrite Z.div2_spec, Z.shiftr_spec by lia.
  by replace (Z.of_nat k + 1) with (Z.of_nat (S k)) by lia.
Qed.

Lemma bits_bitstring p : bits p = bitstring (Pos.size_nat p) (Zpos p).
Proof.
  induction p as [p IH|p IH|]; [| |done].
  - change (Pos.size_nat p~1) with (S (Pos.size_nat p)).
    rewrite bitstring_div2. simpl bits. by rewrite IH.
  - change (Pos.size_nat p~0) with (S (Pos.size_nat p)).
    rewrite bitstring_div2. simpl bits. by rewrite IH.
Qed.

Lemma testbit_above i k n :
  0 ≤ i < 2 ^ Z.of_nat k → (k ≤ n)%nat → Z.testbit i (Z.of_nat n) = false.
Proof.
  intros Hi Hn. destruct (decide (i = 0)) as [->|Hne]; [apply Z.bits_0|].
  apply Z.bits_above_log2; [lia|].
  assert (Z.log2 i < Z.of_nat k) by (apply Z.log2_lt_pow2; lia). lia.
Qed.

Lemma bitstring_pad m k i :
  0 ≤ i < 2 ^ Z.of_nat k → bitstring (m + k) i = zeros m +:+ bitstring k i.
Proof.
  intros Hi. induction m as [|m IH]; [done|]. simpl. rewrite IH.
  rewrite (testbit_above i k (m + k)); [done|done|lia].
Qed.

Lemma size_nat_bound p d : Zpos p < 2 ^ Z.of_nat d → (Pos.size_nat p ≤ d)%nat.
Proof.
  intros Hp. destruct (decide (Pos.size_nat p ≤ d)%nat) as [|Hgt]; [done|].
  exfalso. assert (Hle : (S d ≤ Pos.size_nat p)%nat) by lia.
  assert (H2 : 2 ^ Z.of_nat d ≤ Zpos p); [|lia].
  clear Hp Hgt. revert p Hle. induction d as [|d IH]; intros p Hle.
  - simpl. lia.
  - destruct p as [p|p|]; simpl in Hle; [| |lia].
    + specialize (IH p ltac:(lia)). rewrite Nat2Z.inj_succ, Z.pow_succ_r by lia. lia.
    + specialize (IH p ltac:(lia)). rewrite Nat2Z.inj_succ, Z.pow_succ_r by lia. lia.
Qed.

Lemma zeros_snoc k : zeros k +:+ "0" = zeros (S k).
Proof.
  induction k as [|k IH]; [done|].
  change (String "0" (zeros k +:+ "0") = String "0" (zeros (S k))). by f_equal.
Qed.

Lemma bitstring_zero k : bitstring k 0 = zeros k.
Proof. induction k as [|k IH]; [done|]. simpl. by rewrite Z.bits_0, IH. Qed.

(** For a dimension of at least one, the label of a node is the string of
    its low [d] bits. *)
Lemma binary_label d i :
  1 ≤ d → 0 ≤ i < 2 ^ d →
  padStart (toString2 i) d = bitstring (Z.to_nat d) i.
Proof.
  intros Hd Hi. unfold padStart. destruct i as [|p|p]; [| |lia].
  - rewrite bitstring_zero. simpl toString2. simpl String.length.
    destruct (Z.to_nat d) as [|k] eqn:Hk; [lia|].
    replace (S k - 1)%nat with k by lia. apply zeros_snoc.
  - simpl toString2. rewrite bits_bitstring, bitstring_length.
    assert (Hsize : (Pos.size_nat p ≤ Z.to_nat d)%nat).
    { apply size_nat_bound. rewrite Z2Nat.id by lia. lia. }
    rewrite <-bitstring_pad.
    + f_equal. lia.
    + split; [lia|]. clear. induction p as [p IH|p IH|]; simpl Pos.size_nat;
        rewrite ?Nat2Z.inj_succ, ?Z.pow_succ_r by lia; simpl; lia.
Qed.

(** *** The edge set *)

Lemma no_edges_cube_ok d : cube_ok d no_edges.
Proof.
  split; simpl; [apply no_edges_ok| |constructor].
  intros k Hk. by apply not_elem_of_empty in Hk.
Qed.

Lemma cube_edge_mono p i st j : present p st → present p (cube_edge i st j).
Proof.
  unfold present, cube_edge. case_bool_decide; [|done]. simpl.
  rewrite fmap_app, elem_of_app. by left.
Qed.

Lemma cube_edge_ok d i st j :
  0 ≤ i < 2 ^ d → 0 ≤ j < d → cube_ok d st →
  cube_ok d (cube_edge i st j) ∧
  present (pair_of i (Z.lxor i (Z.shiftl 1 j))) (cube_edge i st j).
Proof.
  intros Hi Hj [Hacc Hback Hshape].
  destruct (lxor_bit_range d i j Hi Hj) as [Hv Hne].
  assert (Hacc' : acc_ok (2 ^ d) (cube_edge i st j)).
  { rewrite cube_edge_addEdge by done. by apply addEdge_ok. }
  unfold present. unfold cube_edge in *. set (v := Z.lxor i (Z.shiftl 1 j)) in *.
  case_bool_decide as Hkey; simpl.
  - split; [split; simpl|].
    + done.
    + intros k [->%elem_of_singleton|Hk]%elem_of_union.
      * exists (Edge i v). split; [|done]. apply elem_of_app. right.
        apply list_elem_of_here.
      * destruct (Hback k Hk) as (e & He & ->). exists e. split; [|done].
        apply elem_of_app. by left.
    + apply Forall_app. split; [done|]. apply Forall_singleton. by exists j.
    + rewrite fmap_app, elem_of_app. right. apply list_elem_of_here.
  - split; [done|].
    assert (Hin : edgeKey (Z.min i v) (Z.max i v) ∈ addedEdges st).
    { destruct (decide (edgeKey (Z.min i v) (Z.max i v) ∈ addedEdges st)); done. }
    destruct (Hback _ Hin) as (e & He & Heq).
    apply list_elem_of_fmap. exists e. split; [|done].
    destruct Hacc as [Hrange _ _]. rewrite Forall_forall in Hrange.
    destruct (Hrange e He) as (_ & ? & ?).
    apply edgeKey_inj in Heq as [Hmin Hmax]; [|lia|unfold unordered; simpl; lia].
    unfold pair_of. rewrite Hmin, Hmax. by destruct (unordered e).
Qed.

Lemma foldl_stable {A B} (I Q : A → Prop) (f : A → B → A) (l : list B) (a : A) :
  I a → Q a →
  (∀ a y, y ∈ l → I a → I (f a y)) →
  (∀ a y, y ∈ l → I a → Q a → Q (f a y)) →
  Q (foldl f a l).
Proof.
  intros Ha HQ HI Hstep.
  apply (foldl_preserves (λ a, I a ∧ Q a) f l a); [done|].
  intros a' y Hy [? ?]. split; auto.
Qed.

(** A loop that establishes [Q x] when it handles [x] and never loses it
    afterwards. *)
Lemma foldl_covers {A B} (I : A → Prop) (Q : B → A → Prop) (f : A → B → A)
    (l : list B) (a : A) :
  I a →
  (∀ a x, x ∈ l → I a → I (f a x) ∧ Q x (f a x)) →
  (∀ a x y, y ∈ l → I a → Q x a → Q x (f a y)) →
  I (foldl f a l) ∧ ∀ x, x ∈ l → Q x (foldl f a l).
Proof.
  revert a. induction l as [|x l IH]; intros a Ha Hstep Hkeep; simpl.
  - split; [done|]. by intros x ?%elem_of_nil.
  - destruct (Hstep a x) as [Ha1 Hx1]; [apply list_elem_of_here|done|].
    destruct (IH (f a x)) as [Hend Hall]; [done| | |].
    { intros a' y Hy. by apply Hstep, list_elem_of_further. }
    { intros a' y z Hz. by apply Hkeep, list_elem_of_further. }
    split; [done|]. intros y [Heq|Hy]%elem_of_cons; [subst y|by apply Hall].
    apply (foldl_stable I (Q x) f l (f a x)).
    + done.
    + done.
    + intros a' z Hz Ha'.
      by destruct (Hstep a' z) as [? _]; [apply list_elem_of_further|done|].
    + intros a' z Hz. by apply Hkeep, list_elem_of_further.
Qed.

Lemma cube_loops_ok d :
  0 ≤ d →
  let st := foldl (λ st i, foldl (cube_edge i) st (seqZ 0 d)) no_edges
              (seqZ 0 (2 ^ d)) in
  cube_ok d st ∧
  ∀ i j, 0 ≤ i < 2 ^ d → 0 ≤ j < d →
    present (pair_of i (Z.lxor i (Z.shiftl 1 j))) st.
Proof.
  intros Hd st.
  destruct (foldl_covers (cube_ok d)
    (λ i st, ∀ j, 0 ≤ j < d → present (pair_of i (Z.lxor i (Z.shiftl 1 j))) st)
    (λ st i, foldl (cube_edge i) st (seqZ 0 d)) (seqZ 0 (2 ^ d)) no_edges)
    as [Hok Hall].
  - apply no_edges_cube_ok.
  - intros st0 i Hi%elem_of_seqZ Hst0.
    destruct (foldl_covers (cube_ok d)
      (λ j st, present (pair_of i (Z.lxor i (Z.shiftl 1 j))) st)
      (cube_edge i) (seqZ 0 d) st0) as [Hok Hall]; [done| | |].
    + intros st1 j Hj%elem_of_seqZ Hst1. apply cube_edge_ok; [lia..|done].
    + intros st1 j j' _ _. apply cube_edge_mono.
    + split; [done|]. intros j Hj. apply Hall, elem_of_seqZ. lia.
  - intros st0 i i' _ _ Hpresent j Hj.
    apply foldl_preserves; [by apply Hpresent|].
    intros st1 j' _. apply cube_edge_mono.
  - split; [done|]. intros i j Hi Hj. apply Hall; [|done]. apply elem_of_seqZ. lia.
Qed.

Lemma lxor_involutive a m : Z.lxor (Z.lxor a m) m = a.
Proof. by rewrite Z.lxor_assoc, Z.lxor_nilpotent, Z.lxor_0_r. Qed.

Lemma pair_of_eq a b s t :
  pair_of a b = pair_of s t → (a = s ∧ b = t) ∨ (a = t ∧ b = s).
Proof. unfold pair_of. intros [= Hmin Hmax]. lia. Qed.

(** What [generateHypercube] returns, for every dimension: [2 ^ d'] nodes in
    id order, where [d'] is the clamped dimension; every label is the
    binary numeral of the id padded to [d'] characters, which for
    [d' >= 1] is the string of the low [d'] bits; and an unordered pair is
    in the edge list, once, exactly when its ends differ in one bit. *)
Lemma generateHypercube_spec d :
  let d' := clamp_dimension d in
  let g := value (generateHypercube d) in
  nodes g = (λ i, CubeNode i (padStart (toString2 i) d')) <$> seqZ 0 (2 ^ d') ∧
  length (nodes g) = Z.to_nat (2 ^ d') ∧
  ids g = seqZ 0 (2 ^ d') ∧
  (1 ≤ d' → ∀ i, 0 ≤ i < 2 ^ d' →
     padStart (toString2 i) d' = bitstring (Z.to_nat d') i) ∧
  NoDup (unordered <$> edges g) ∧
  (∀ a b, pair_of a b ∈ unordered <$> edges g ↔
          0 ≤ a < 2 ^ d' ∧ ∃ j, 0 ≤ j < d' ∧ b = Z.lxor a (2 ^ j)).
Proof.
  intros d' g.
  assert (Hd' : 0 ≤ d' ≤ 10) by (unfold d', clamp_dimension; lia).
  assert (Hclamp : (if bool_decide (10 < (if bool_decide (d < 0) then 0 else d))
                    then 10 else if bool_decide (d < 0) then 0 else d) = d').
  { unfold d', clamp_dimension. repeat case_bool_decide; lia. }
  assert (Hnodes : nodes g
    = (λ i, CubeNode i (padStart (toString2 i) d')) <$> seqZ 0 (2 ^ d')).
  { unfold g, generateHypercube. simpl. by rewrite Hclamp. }
  assert (Hpow : 0 < 2 ^ d') by (apply Z.pow_pos_nonneg; lia).
  destruct (generateHypercube_well_formed d) as (Hids & _ & Hnd). fold g in Hids, Hnd.
  assert (Hlen : length (nodes g) = Z.to_nat (2 ^ d')).
  { by rewrite Hnodes, length_fmap, length_seqZ. }
  split_and!; [done|done| |by intros; apply binary_label|done|].
  { rewrite Hids, Hlen. f_equal. lia. }
  assert (Hedges : edges g = acc_edges
    (if bool_decide (0 < d')
     then foldl (λ st i, foldl (cube_edge i) st (seqZ 0 d')) no_edges
            (seqZ 0 (2 ^ d'))
     else no_edges)).
  { unfold g, generateHypercube. simpl. by rewrite Hclamp. }
  rewrite Hedges. intros a b. case_bool_decide as Hpos.
  - destruct (cube_loops_ok d') as [[Hacc _ Hshape] Hall]; [lia|].
    split.
    + intros (e & Heq & He)%list_elem_of_fmap.
      destruct Hacc as [Hrange _ _]. rewrite Forall_forall in Hrange, Hshape.
      destruct (Hrange e He) as (_ & Hs & _).
      destruct (Hshape e He) as (j & Hj & Ht).
      destruct (lxor_bit_range d' (source e) j Hs Hj) as [Hv _].
      rewrite Z.shiftl_1_l in Ht, Hv.
      apply pair_of_eq in Heq as [[-> ->]|[-> ->]].
      * split; [done|]. by exists j.
      * rewrite Ht. split; [done|]. exists j. split; [done|].
        by rewrite lxor_involutive.
    + intros (Ha & j & Hj & ->). rewrite <-Z.shiftl_1_l. by apply Hall.
  - simpl. rewrite elem_of_nil. split; [done|]. intros (_ & j & Hj & _). lia.
Qed.

Example hypercube_3_shape :
  let g := value (generateHypercube 3) in
  length (nodes g) = 8%nat ∧ length (edges g) = 12%nat ∧
  nodes g = [CubeNode 0 "000"; CubeNode 1 "001"; CubeNode 2 "010";
             CubeNode 3 "011"; CubeNode 4 "100"; CubeNode 5 "101";
             CubeNode 6 "110"; CubeNode 7 "111"].
Proof. split_and!; vm_compute; reflexivity. Qed.

(** C6, at the one dimension where the code departs from it.  The
    specification wants every label to be the [d']-bit zero-padded string of
    the node id, [d'] being the clamped dimension, and the generator's own
    comment says the padding ensures the fixed length [d].  For every
    [d <= 0] the clamped dimension is 0 and [generateHypercube] returns the
    single node 0 without edges, but the node's label is ["0"], one
    character long, whereas the 0-bit string of its id is empty.  (For
    clamped dimensions of at least one the labels, and for every dimension
    the nodes and the edge set, are as specified: see the lemma above.) *)
Theorem hypercube_zero_label :
  generateHypercube 0 = Logged (Graph [CubeNode 0 "0"] []) [] ∧
  (∀ d, d ≤ 0 →
     clamp_dimension d = 0 ∧
     value (generateHypercube d) = Graph [CubeNode 0 "0"] []) ∧
  String.length "0" = 1%nat ∧
  bitstring (Z.to_nat (clamp_dimension 0)) 0 = "" ∧
  padStart (toString2 0) (clamp_dimension 0) ≠ bitstring (Z.to_nat (clamp_dimension 0)) 0.
Proof.
  split_and!; [done| |done|done|done].
  intros d Hd. split; [unfold clamp_dimension; lia|].
  unfold generateHypercube. simpl.
  destruct (bool_decide (d < 0)) eqn:Hneg; [done|].
  apply bool_decide_eq_false in Hneg. by assert (d = 0) as -> by lia.
Qed.

(** * The search, the predecessor map and the paths in general *)

(** ** The queue and the predecessor map *)

Section bfs_tree.
Variables (adj : JsMap (list Z)) (allNodes : list node) (start : Z).
Variable R : Z → Z → Prop.
Hypothesis R_sound :
  ∀ u v, v ∈ neighbors adj u → v ∈ node_id <$> allNodes → R u v.
Hypothesis R_complete :
  ∀ u v, R u v → v ∈ neighbors adj u ∧ v ∈ node_id <$> allNodes.

Local Abbreviation bfs_inv := (bfs_inv allNodes start R).

Lemma bfs_init_pred_inv : pred_inv start (bfs_init start allNodes).
Proof.
  split; simpl.
  - apply NoDup_singleton.
  - done.
  - intros v u Hv. exfalso.
    apply fill_get in Hv; [done|]. intros ? ?. done.
Qed.

Lemma visit_pred_inv h st u v :
  bfs_inv h st → pred_inv start st → pred_inv start (visit u st v).
Proof.
  intros Hinv [Hnd Hhd Hback]. unfold visit.
  destruct (jsmap_get (distances st) v) as [[z| |]|] eqn:Hdv; [done| |done|done].
  assert (Hvq : v ∉ queue st).
  { intros [n Hn]%(inv_queue _ _ _ _ _ Hinv). congruence. }
  assert (Hvs : v ≠ start).
  { intros ->. rewrite (inv_start _ _ _ _ _ Hinv) in Hdv. done. }
  split; simpl.
  - apply NoDup_app. split_and!; [done| |apply NoDup_singleton].
    by intros w Hw ->%list_elem_of_singleton.
  - destruct (queue st); [done|]. done.
  - intros w pu. rewrite jsmap_get_set. case_decide as Hw.
    + subst w. intros _. split; [done|]. apply elem_of_app. right.
      apply list_elem_of_here.
    + intros [? ?]%Hback. split; [done|]. apply elem_of_app. by left.
Qed.

Lemma scan_pred_inv h u l st :
  bfs_inv h st → queue st !! h = Some u → (∀ v, v ∈ l → v ∈ neighbors adj u) →
  pred_inv start st → pred_inv start (foldl (visit u) st l).
Proof.
  revert st. induction l as [|v l IH]; intros st Hinv Hu Hl Hp; simpl; [done|].
  destruct (visit_inv adj allNodes start R R_sound R_complete h st u v Hinv Hu)
    as (Hinv1 & Hu1 & _).
  { apply Hl, list_elem_of_here. }
  apply IH; [done|done| |by eapply visit_pred_inv].
  intros w Hw. by apply Hl, list_elem_of_further.
Qed.

Lemma bfs_loop_pred_inv fuel h st st' :
  bfs_inv h st → pred_inv start st →
  bfs_loop adj fuel h st = Some st' → pred_inv start st'.
Proof.
  revert h st. induction fuel as [|fuel IH]; intros h st Hinv Hp; simpl.
  - destruct (queue st !! h); [done|]. by intros [= <-].
  - destruct (queue st !! h) as [u|] eqn:Hu; [|by intros [= <-]].
    destruct (dequeue_inv adj allNodes start R R_sound R_complete h u st Hinv Hu)
      as [Hinv' _].
    apply IH; [done|]. by apply (scan_pred_inv h).
Qed.

(** [bfs] returns, and both invariants hold of what it returns. *)
Lemma bfs_tree_returns :
  ∃ st, bfs start adj allNodes = Some st ∧
        bfs_inv (length (queue st)) st ∧ pred_inv start st.
Proof.
  destruct (bfs_returns adj allNodes start R R_sound R_complete) as (st & Hst & Hinv).
  exists st. split_and!; [done..|].
  eapply bfs_loop_pred_inv;
    [exact (bfs_init_inv adj allNodes start R R_complete)
    |apply bfs_init_pred_inv|exact Hst].
Qed.

Section tree.
Variable st : bfs_state.
Hypothesis Hinv : bfs_inv (length (queue st)) st.
Hypothesis Hpred : pred_inv start st.

(** The queue holds exactly the nodes with a finite distance. *)
Lemma queue_finite v :
  v ∈ queue st ↔ ∃ n : nat, jsmap_get (distances st) v = Some (Num (Z.of_nat n)).
Proof.
  split; [apply (inv_queue _ _ _ _ _ Hinv)|].
  intros [n Hn].
  by destruct (inv_dist _ _ _ _ _ Hinv v _ Hn) as [?|(_ & _ & ? & _)].
Qed.

Lemma queue_reachable v : v ∈ queue st ↔ reachable R start v.
Proof.
  rewrite queue_finite. split.
  - intros [n Hn].
    apply (bfs_finite allNodes start R st Hinv) in Hn as (m & _ & Hm & _).
    by exists m.
  - intros [n Hn].
    destruct (bfs_lower allNodes start R st Hinv n v Hn) as (k & Hk & _).
    destruct (inv_dist _ _ _ _ _ Hinv v _ Hk) as [?|(m & [= ->] & _)]; [done|].
    by exists m.
Qed.

(** A node holds a predecessor exactly when it is reachable and not the
    start; the predecessor is then one level closer to the start. *)
Lemma pred_linked v u :
  jsmap_get (predecessors st) v = Some (Some u) →
  v ≠ start ∧ R u v ∧
  ∃ n : nat, jsmap_get (distances st) u = Some (Num (Z.of_nat n)) ∧
             jsmap_get (distances st) v = Some (Num (Z.of_nat (S n))).
Proof.
  intros Hv. destruct (pinv_back _ _ Hpred v u Hv) as [Hne Hq].
  destruct (inv_pred _ _ _ _ _ Hinv v Hq Hne) as (u' & nu & Hu' & Hnu & Hnv & HR).
  rewrite Hv in Hu'. injection Hu' as <-.
  destruct (inv_dist _ _ _ _ _ Hinv u _ Hnu) as [?|(n & [= ->] & _)]; [done|].
  split_and!; [done..|]. exists n. split; [done|]. rewrite Hnv. do 2 f_equal. lia.
Qed.

Lemma pred_null v :
  v ∈ node_id <$> allNodes →
  jsmap_get (predecessors st) v = Some None ↔ v = start ∨ ¬ reachable R start v.
Proof.
  intros Hkey.
  assert (HP : is_Some (jsmap_get (predecessors st) v)).
  { apply jsmap_get_is_Some. rewrite (inv_keysP _ _ _ _ _ Hinv).
    by apply (bfs_KP adj allNodes start R R_complete v). }
  split.
  - intros Hnull. destruct (decide (v = start)) as [|Hne]; [by left|right].
    intros Hq%queue_reachable.
    destruct (inv_pred _ _ _ _ _ Hinv v Hq Hne) as (u & nu & Hu & _). congruence.
  - destruct HP as [[u|] Hu]; [|done].
    destruct (pred_linked v u Hu) as (Hne & _ & n & _ & Hn).
    intros [?|Hno]; [done|]. destruct Hno. apply queue_reachable, queue_finite.
    by exists (S n).
Qed.

(** The queue is sorted by distance. *)
Lemma queue_sorted i j vi vj ni nj :
  (i ≤ j)%nat → queue st !! i = Some vi → queue st !! j = Some vj →
  jsmap_get (distances st) vi = Some (Num ni) →
  jsmap_get (distances st) vj = Some (Num nj) → ni ≤ nj.
Proof. apply (inv_sorted _ _ _ _ _ Hinv). Qed.

Lemma queue_length : (length (queue st) ≤ S (length allNodes))%nat.
Proof.
  rewrite (inv_len _ _ _ _ _ Hinv).
  pose proof (linked_preds_le (predecessors st)) as Hle.
  pose proof (bfs_KP_length allNodes start) as Hlen.
  rewrite <-(inv_keysP _ _ _ _ _ Hinv) in Hlen. unfold jsmap_keys in Hlen.
  rewrite length_fmap in Hlen. lia.
Qed.
End tree.
End bfs_tree.

Lemma listed_sound adj allNodes u v :
  v ∈ neighbors adj u → v ∈ node_id <$> allNodes → listed adj allNodes u v.
Proof. by split. Qed.

Lemma listed_complete adj allNodes u v :
  listed adj allNodes u v → v ∈ neighbors adj u ∧ v ∈ node_id <$> allNodes.
Proof. done. Qed.

(** For the adjacency mapping built from a graph the listed links are the
    undirected links of the graph. *)
Lemma listed_linked g u v :
  listed (buildAdjacency g) (nodes g) u v ↔ linked g u v.
Proof. unfold listed. by rewrite buildAdjacency_linked. Qed.

Lemma bfs_listed adj allNodes start :
  ∃ r, bfs start adj allNodes = Some r ∧
       bfs_inv allNodes start (listed adj allNodes) (length (queue r)) r ∧
       pred_inv start r.
Proof.
  apply (bfs_tree_returns adj allNodes start (listed adj allNodes));
    [apply listed_sound|apply listed_complete].
Qed.

(** ** Breadth-first search on an arbitrary adjacency mapping *)

(** [bfs] needs nothing of its arguments.  On every adjacency mapping
    (symmetric or not, with or without entries for its ids), every node
    list and every start (a node or not) it returns; the distance map has
    one key per node id, plus the start; the predecessor map has one key
    per node id; the start is at distance 0; and every key holds the
    sentinel, exactly when no walk along the listed links leads from the
    start to it, or else the length of a shortest such walk. *)
Theorem bfs_directed_shortest (adj : JsMap (list Z)) (allNodes : list node)
    (start : Z) :
  ∃ r, bfs start adj allNodes = Some r ∧
    NoDup (jsmap_keys (distances r)) ∧
    (∀ v, v ∈ jsmap_keys (distances r) ↔ v = start ∨ v ∈ node_id <$> allNodes) ∧
    NoDup (jsmap_keys (predecessors r)) ∧
    (∀ v, v ∈ jsmap_keys (predecessors r) ↔ v ∈ node_id <$> allNodes) ∧
    jsmap_get (distances r) start = Some (Num 0) ∧
    ∀ v, v = start ∨ v ∈ node_id <$> allNodes →
      (jsmap_get (distances r) v = Some Infinity ∧
       ¬ reachable (listed adj allNodes) start v) ∨
      (∃ n, jsmap_get (distances r) v = Some (Num (Z.of_nat n)) ∧
            shortest (listed adj allNodes) start v n).
Proof.
  destruct (bfs_listed adj allNodes start) as (r & Hr & Hinv & _).
  pose proof (listed_complete adj allNodes) as Hc.
  exists r. split_and!.
  - done.
  - rewrite (inv_keysD _ _ _ _ _ Hinv). apply bfs_KD_NoDup.
  - intros v. rewrite (inv_keysD _ _ _ _ _ Hinv). by apply (bfs_KD adj _ _ _ Hc).
  - rewrite (inv_keysP _ _ _ _ _ Hinv). apply bfs_KP_NoDup.
  - intros v. rewrite (inv_keysP _ _ _ _ _ Hinv). by apply (bfs_KP adj _ _ _ Hc).
  - apply (inv_start _ _ _ _ _ Hinv).
  - intros v Hv. by apply (bfs_distance_cases adj _ _ _ Hc r Hinv).
Qed.

(** The predecessor map that [bfs] returns is a shortest-path tree.  A
    node holds [null] exactly when it is the start or out of reach; any
    other node holds a node that lists it and that is exactly one step
    closer to the start; ids that are not nodes have no entry. *)
Theorem bfs_predecessor_tree (adj : JsMap (list Z)) (allNodes : list node)
    (start : Z) :
  ∃ r, bfs start adj allNodes = Some r ∧
    (∀ v, v ∈ node_id <$> allNodes →
       jsmap_get (predecessors r) v = Some None
       ↔ v = start ∨ ¬ reachable (listed adj allNodes) start v) ∧
    (∀ v u, jsmap_get (predecessors r) v = Some (Some u) →
       v ≠ start ∧ listed adj allNodes u v ∧
       ∃ n : nat,
         jsmap_get (distances r) u = Some (Num (Z.of_nat n)) ∧
         jsmap_get (distances r) v = Some (Num (Z.of_nat (S n))) ∧
         shortest (listed adj allNodes) start u n ∧
         shortest (listed adj allNodes) start v (S n)) ∧
    (∀ v, v ∉ node_id <$> allNodes → jsmap_get (predecessors r) v = None).
Proof.
  destruct (bfs_listed adj allNodes start) as (r & Hr & Hinv & Hpred).
  pose proof (listed_sound adj allNodes) as Hs.
  pose proof (listed_complete adj allNodes) as Hc.
  exists r. split_and!.
  - done.
  - intros v Hv. by apply (pred_null adj allNodes start _ Hc r Hinv Hpred).
  - intros v u Hv.
    destruct (pred_linked allNodes start _ r Hinv Hpred v u Hv)
      as (Hne & HR & n & Hu & Hv').
    split_and!; [done..|]. exists n. split_and!; [done..| |].
    + apply (bfs_finite allNodes start _ r Hinv) in Hu as (m & Hm & ?).
      by apply Nat2Z.inj in Hm as <-.
    + apply (bfs_finite allNodes start _ r Hinv) in Hv' as (m & Hm & ?).
      by apply Nat2Z.inj in Hm as <-.
  - intros v Hv. apply jsmap_get_None. rewrite (inv_keysP _ _ _ _ _ Hinv).
    by rewrite (bfs_KP adj _ _ _ Hc).
Qed.

(** The [while] loop of [bfs] dequeues every node that can be reached from
    the start exactly once and no other node, the start first and the rest
    in order of distance; so its body runs at most once per node (once more
    when the start is no node). *)
Theorem bfs_dequeues_once (adj : JsMap (list Z)) (allNodes : list node)
    (start : Z) :
  ∃ r, bfs start adj allNodes = Some r ∧
    NoDup (queue r) ∧
    head (queue r) = Some start ∧
    (∀ v, v ∈ queue r ↔ reachable (listed adj allNodes) start v) ∧
    (length (queue r) ≤ S (length allNodes))%nat ∧
    (start ∈ node_id <$> allNodes →
     (length (queue r) ≤ length (remove_dups (node_id <$> allNodes)))%nat) ∧
    ∀ i j vi vj, (i ≤ j)%nat → queue r !! i = Some vi → queue r !! j = Some vj →
      ∃ ni nj : nat,
        shortest (listed adj allNodes) start vi ni ∧
        shortest (listed adj allNodes) start vj nj ∧ (ni ≤ nj)%nat.
Proof.
  destruct (bfs_listed adj allNodes start) as (r & Hr & Hinv & Hpred).
  pose proof (listed_sound adj allNodes) as Hs.
  pose proof (listed_complete adj allNodes) as Hc.
  assert (Hq : ∀ v, v ∈ queue r ↔ reachable (listed adj allNodes) start v).
  { intros v. by apply (queue_reachable allNodes start _ r Hinv). }
  exists r. split_and!.
  - done.
  - apply (pinv_NoDup _ _ Hpred).
  - apply (pinv_head _ _ Hpred).
  - done.
  - by apply (queue_length allNodes start _ r Hinv).
  - intros Hstart. apply submseteq_length, NoDup_submseteq.
    + apply (pinv_NoDup _ _ Hpred).
    + intros v [n Hn]%Hq. apply elem_of_remove_dups.
      destruct Hn as [|n u v w _ [_ ?]]; done.
  - intros i j vi vj Hij Hi Hj.
    destruct (inv_queue _ _ _ _ _ Hinv vi) as [ni Hni];
      [by eapply list_elem_of_lookup_2|].
    destruct (inv_queue _ _ _ _ _ Hinv vj) as [nj Hnj];
      [by eapply list_elem_of_lookup_2|].
    pose proof (inv_sorted _ _ _ _ _ Hinv i j vi vj _ _ Hij Hi Hj Hni Hnj).
    exists ni, nj.
    apply (bfs_finite allNodes start _ r Hinv) in Hni as (m & Hm & ?).
    apply Nat2Z.inj in Hm as <-.
    apply (bfs_finite allNodes start _ r Hinv) in Hnj as (m & Hm & ?).
    apply Nat2Z.inj in Hm as <-.
    split_and!; [done..|lia].
Qed.

(** ** Path reconstruction on an arbitrary predecessor map *)

Lemma pred_chain_cons P a b l :
  pred_chain P (a :: b :: l)
  ↔ jsmap_get P b = Some (Some a) ∧ pred_chain P (b :: l).
Proof. unfold pred_chain. simpl. naive_solver. Qed.

Lemma pred_chain_app P l1 l2 : pred_chain P (l1 ++ l2) → pred_chain P l2.
Proof.
  induction l1 as [|a l1 IH]; [done|]. intros Hch. apply IH.
  destruct l1 as [|b l1]; simpl in *.
  - destruct l2; [done|]. by apply pred_chain_cons in Hch as [_ ?].
  - by apply pred_chain_cons in Hch as [_ ?].
Qed.

Lemma pred_chain_lookup P l i a b :
  pred_chain P l → l !! i = Some a → l !! S i = Some b →
  jsmap_get P b = Some (Some a).
Proof.
  revert i. induction l as [|x l IH]; intros i Hch Ha Hb; [done|].
  destruct l as [|y l]; [done|]. apply pred_chain_cons in Hch as [Hxy Hch].
  destruct i as [|i]; simpl in *.
  - by injection Ha as <-; injection Hb as <-.
  - by apply (IH i).
Qed.

(** Equal nodes of a chain have equal nodes the same number of places
    further to the left. *)
Lemma pred_chain_shift P l i d x :
  pred_chain P l → l !! i = Some x → l !! (i + d)%nat = Some x →
  l !! 0%nat = l !! d.
Proof.
  intros Hch. revert x. induction i as [|i IH]; intros x Hi Hd.
  - simpl in Hd. congruence.
  - destruct (l !! i) as [a|] eqn:Ha.
    2:{ apply lookup_ge_None in Ha. apply lookup_lt_Some in Hi. lia. }
    destruct (l !! (i + d)%nat) as [b|] eqn:Hb.
    2:{ apply lookup_ge_None in Hb. apply lookup_lt_Some in Hd. simpl in Hd. lia. }
    pose proof (pred_chain_lookup P l i a x Hch Ha Hi) as H1.
    pose proof (pred_chain_lookup P l (i + d) b x Hch Hb Hd) as H2.
    rewrite H1 in H2. injection H2 as <-. by apply (IH a).
Qed.

(** A chain that meets its first node only at the front repeats no node. *)
Lemma pred_chain_NoDup P s l :
  pred_chain P (s :: l) → Forall (λ x, x ≠ s) l → NoDup (s :: l).
Proof.
  intros Hch Hne. apply NoDup_alt. intros i j x Hi Hj.
  assert (Hlt : ∀ i j, (i < j)%nat →
    (s :: l) !! i = Some x → (s :: l) !! j = Some x → False).
  { clear i j Hi Hj. intros i j Hij Hi Hj.
    replace j with (i + S (j - i - 1))%nat in Hj by lia.
    pose proof (pred_chain_shift P (s :: l) i _ x Hch Hi Hj) as H0.
    simpl in H0. symmetry in H0. apply list_elem_of_lookup_2 in H0.
    rewrite Forall_forall in Hne. by apply Hne in H0. }
  destruct (Nat.lt_trichotomy i j) as [?|[?|?]]; [|done|]; exfalso; eauto.
Qed.

Lemma walk_back_sound source P budget path cur p :
  walk_back source P budget (cur :: path) cur = Some p →
  pred_chain P (cur :: path) →
  ∃ pre, p = pre ++ cur :: path ∧ pred_chain P p ∧ (length pre ≤ budget)%nat ∧
    ((pre = [] ∧ cur = source) ∨
     (∃ pre', pre = source :: pre' ∧ Forall (λ x, x ≠ source) (pre' ++ [cur]))).
Proof.
  revert path cur. induction budget as [|budget IH]; intros path cur; simpl.
  - case_decide as Hcur; [|done]. intros [= <-] Hch. exists [].
    split_and!; [done|done|simpl; lia|by left].
  - case_decide as Hcur.
    { intros [= <-] Hch. exists []. split_and!; [done|done|simpl; lia|by left]. }
    destruct (jsmap_get P cur) as [[prev|]|] eqn:Hprev; [|done..].
    intros Hw Hch.
    destruct (IH (cur :: path) prev Hw) as (pre & -> & Hch' & Hlen & Hpre).
    { by apply pred_chain_cons. }
    exists (pre ++ [prev]). rewrite <-app_assoc. split_and!; [done|done| |].
    + rewrite length_app. simpl. lia.
    + right. destruct Hpre as [[-> ->]|(pre' & -> & Hne)].
      * exists []. split; [done|]. by apply Forall_singleton.
      * exists (pre' ++ [prev]). split; [done|].
        apply Forall_app. split; [done|]. by apply Forall_singleton.
Qed.

(** Whatever the predecessor map holds (a tree, cycles, dangling or missing
    entries), a path that [reconstructPath] returns starts at the source,
    ends at the target, lists each node right after its recorded
    predecessor, visits no node twice and has at most one node more than
    the map has entries. *)
Theorem reconstructPath_sound (source target : Z) (P : JsMap (option Z))
    (p : list Z) :
  reconstructPath source target P = Some p →
  head p = Some source ∧ last p = Some target ∧ pred_chain P p ∧
  NoDup p ∧ (length p ≤ S (jsmap_size P))%nat.
Proof.
  unfold reconstructPath. intros Hw.
  destruct (walk_back_sound _ _ _ _ _ _ Hw) as (pre & -> & Hch & Hlen & Hpre);
    [done|].
  split_and!.
  - destruct Hpre as [[-> ->]|(pre' & -> & _)]; done.
  - apply last_snoc.
  - done.
  - destruct Hpre as [[-> ->]|(pre' & -> & Hne)]; [apply NoDup_singleton|].
    rewrite <-app_comm_cons in *. by apply (pred_chain_NoDup P).
  - rewrite length_app. simpl. lia.
Qed.

Lemma reconstructPath_sound_witness :
  let P := [(1, Some 0); (2, Some 1); (3, Some 2); (0, Some 3); (4, None)] in
  reconstructPath 0 3 P = Some [0; 1; 2; 3] ∧
  head [0; 1; 2; 3] = Some 0 ∧ last [0; 1; 2; 3] = Some 3 ∧
  pred_chain P [0; 1; 2; 3] ∧ NoDup [0; 1; 2; 3] ∧
  (length [0; 1; 2; 3] ≤ S (jsmap_size P))%nat.
Proof.
  intros P.
  assert (Hp : reconstructPath 0 3 P = Some [0; 1; 2; 3]) by reflexivity.
  split; [exact Hp|]. exact (reconstructPath_sound 0 3 P _ Hp).
Defined.

(** [reconstructPath] gives up at once on a target, other than the source,
    without a recorded predecessor. *)
Lemma reconstructPath_no_pred source target P :
  target ≠ source →
  jsmap_get P target = None ∨ jsmap_get P target = Some None →
  reconstructPath source target P = None.
Proof.
  intros Hne Hget. unfold reconstructPath.
  destruct (jsmap_size P); simpl; rewrite decide_False by done; [done|].
  by destruct Hget as [-> | ->].
Qed.

(** On the predecessor map of a search over a graph, [reconstructPath]
    answers [null] exactly for the targets that cannot be reached from the
    source (ids that are no nodes among them). *)
Theorem reconstructPath_null_iff_unreachable (g : graph) (source target : Z) :
  ∃ r, bfs source (buildAdjacency g) (nodes g) = Some r ∧
       (reconstructPath source target (predecessors r) = None
        ↔ ¬ reachable (linked g) source target).
Proof.
  destruct (bfs_tree_returns (buildAdjacency g) (nodes g) source (linked g)
              (linked_sound g) (linked_complete g)) as (r & Hr & Hinv & Hpred).
  exists r. split; [done|]. split.
  - intros Hnone Hq%(queue_reachable (nodes g) source _ r Hinv).
    apply (queue_finite (nodes g) source _ r Hinv) in Hq as [n Hn].
    destruct (reconstructPath_reaches _ _ _ r Hinv n target Hn) as (p & Hp & _).
    congruence.
  - intros Hno. apply reconstructPath_no_pred.
    + intros ->. apply Hno, reachable_refl.
    + destruct (decide (target ∈ node_id <$> nodes g)) as [Hin|Hout].
      * right. apply (pred_null _ _ _ _ (linked_complete g) r Hinv Hpred); auto.
      * left. apply jsmap_get_None. rewrite (inv_keysP _ _ _ _ _ Hinv).
        by rewrite (bfs_KP _ _ _ _ (linked_complete g)).
Qed.

(** ** The adjacency mapping in full *)

Lemma push_neighbor_neighbors adj a b u :
  neighbors (push_neighbor adj a b) u
  = neighbors adj u ++ (if decide (a = u ∧ u ∈ jsmap_keys adj) then [b] else []).
Proof.
  unfold push_neighbor, neighbors.
  destruct (jsmap_get adj a) as [l|] eqn:Hget.
  - assert (a ∈ jsmap_keys adj) by (apply jsmap_get_is_Some; by rewrite Hget).
    rewrite jsmap_get_set. destruct (decide (a = u)) as [->|Hne]; simpl.
    + rewrite Hget. simpl. by rewrite decide_True.
    + rewrite decide_False by naive_solver. by rewrite app_nil_r.
  - apply jsmap_get_None in Hget.
    rewrite decide_False; [by rewrite app_nil_r|]. by intros [-> ?].
Qed.

Lemma adjacency_edges_neighbors (es : list edge) (adj : JsMap (list Z)) u :
  neighbors (foldl (λ adj e,
      push_neighbor (push_neighbor adj (source e) (target e))
        (target e) (source e)) adj es) u
  = neighbors adj u ++ (if decide (u ∈ jsmap_keys adj) then partners u es else []).
Proof.
  revert adj. induction es as [|e es IH]; intros adj; simpl.
  - unfold partners. simpl. case_decide; by rewrite app_nil_r.
  - rewrite IH, !push_neighbor_keys, !push_neighbor_neighbors, push_neighbor_keys.
    unfold partners. simpl. rewrite <-!app_assoc. f_equal.
    destruct (decide (u ∈ jsmap_keys adj)) as [Hin|Hout].
    + repeat case_decide; try done; naive_solver.
    + by rewrite !decide_False by naive_solver.
Qed.

Lemma partners_length u es :
  length (partners u es)
  = (length (filter (λ e, source e = u) es)
     + length (filter (λ e, target e = u) es))%nat.
Proof.
  unfold partners. induction es as [|e es IH]; [done|].
  rewrite bind_cons, !length_app, IH, !filter_cons.
  destruct (decide (source e = u)), (decide (target e = u)); simpl; lia.
Qed.

Lemma buildAdjacency_keys_NoDup g : NoDup (jsmap_keys (buildAdjacency g)).
Proof.
  unfold buildAdjacency. rewrite adjacency_edges_keys. apply fill_NoDup. constructor.
Qed.

(** What the adjacency builder produces, for every graph: one entry per
    node id; under a node [u], for each edge in the order of the edge list,
    the target if [u] is its source and then the source if [u] is its
    target, so that the length of the list is the degree of [u] (an edge to
    an id that is no node is dropped at that end only); and nothing under an
    id that is no node. *)
Theorem buildAdjacency_exact (g : graph) :
  NoDup (jsmap_keys (buildAdjacency g)) ∧
  (∀ u, u ∈ jsmap_keys (buildAdjacency g) ↔ u ∈ ids g) ∧
  (∀ u, u ∈ ids g →
     jsmap_get (buildAdjacency g) u = Some (partners u (edges g)) ∧
     length (neighbors (buildAdjacency g) u) = degree g u) ∧
  (∀ u, u ∉ ids g →
     jsmap_get (buildAdjacency g) u = None ∧ neighbors (buildAdjacency g) u = []).
Proof.
  assert (Hn : ∀ u, neighbors (buildAdjacency g) u
    = if decide (u ∈ ids g) then partners u (edges g) else []).
  { intros u. unfold buildAdjacency. rewrite adjacency_edges_neighbors.
    rewrite adjacency_nodes_empty by done. simpl.
    destruct (decide (u ∈ ids g)) as [Hin|Hout].
    - rewrite decide_True; [done|]. apply fill_keys. by right.
    - rewrite decide_False; [done|]. rewrite fill_keys.
      unfold jsmap_keys. simpl. rewrite elem_of_nil. naive_solver. }
  split_and!.
  - apply buildAdjacency_keys_NoDup.
  - apply buildAdjacency_keys.
  - intros u Hu. specialize (Hn u). rewrite decide_True in Hn by done.
    split.
    + apply buildAdjacency_keys, jsmap_get_is_Some in Hu as [l Hl].
      unfold neighbors in Hn. rewrite Hl in Hn. simpl in Hn. by rewrite Hl, Hn.
    + rewrite Hn. apply partners_length.
  - intros u Hu. specialize (Hn u). rewrite decide_False in Hn by done.
    split; [|done]. apply jsmap_get_None. by rewrite buildAdjacency_keys.
Qed.

Lemma sumZ_add {A} (f g : A → Z) l :
  sumZ (λ x, f x + g x) l = sumZ f l + sumZ g l.
Proof. induction l as [|x l IH]; simpl; lia. Qed.

Lemma sumZ_indicator (a : Z) (l : list Z) :
  NoDup l → a ∈ l → sumZ (λ u, if decide (a = u) then 1 else 0) l = 1.
Proof.
  induction 1 as [|b l Hb Hnd IH]; [by intros ?%elem_of_nil|].
  rewrite sumZ_cons. intros [->|Hin]%elem_of_cons.
  - rewrite decide_True by done.
    rewrite (sumZ_const 0); [lia|]. intros u Hu. rewrite decide_False; [done|].
    by intros ->.
  - rewrite decide_False by (by intros ->). rewrite IH by done. lia.
Qed.

(** Sorting a list into classes that cover it loses and repeats nothing. *)
Lemma sumZ_classes {A} (f : A → Z) (l : list Z) (m : list A) :
  NoDup l → (∀ x, x ∈ m → f x ∈ l) →
  sumZ (λ u, Z.of_nat (length (filter (λ x, f x = u) m))) l = Z.of_nat (length m).
Proof.
  intros Hnd. induction m as [|x m IH]; intros Hin.
  - rewrite (sumZ_const 0); [simpl; lia|]. done.
  - rewrite (sumZ_ext _ (λ u, (if decide (f x = u) then 1 else 0)
                              + Z.of_nat (length (filter (λ x, f x = u) m)))).
    + rewrite sumZ_add, IH by (intros y Hy; by apply Hin, list_elem_of_further).
      rewrite sumZ_indicator; [simpl length; lia|done|].
      apply Hin, list_elem_of_here.
    + intros u _. rewrite filter_cons. case_decide; simpl length; lia.
Qed.

(** The degrees of the nodes add up to twice the number of edges. *)
Lemma degree_sum g :
  NoDup (ids g) →
  Forall (λ e, source e ∈ ids g ∧ target e ∈ ids g) (edges g) →
  sumZ (λ u, Z.of_nat (degree g u)) (ids g) = 2 * Z.of_nat (length (edges g)).
Proof.
  intros Hnd Hends. rewrite Forall_forall in Hends.
  rewrite (sumZ_ext _ (λ u,
    Z.of_nat (length (filter (λ e, source e = u) (edges g)))
    + Z.of_nat (length (filter (λ e, target e = u) (edges g))))).
  - rewrite sumZ_add, !sumZ_classes; [lia|done| |done|].
    + intros e He. by apply Hends.
    + intros e He. by apply Hends.
  - intros u Hu. unfold degree. lia.
Qed.

Lemma neighbors_degree g u :
  u ∈ ids g → length (neighbors (buildAdjacency g) u) = degree g u.
Proof.
  intros Hu. unfold buildAdjacency. rewrite adjacency_edges_neighbors.
  rewrite adjacency_nodes_empty by done. simpl.
  rewrite decide_True by (apply fill_keys; by right).
  apply partners_length.
Qed.

(** In a graph with distinct node ids whose edges all join nodes, the
    neighbour lists of the adjacency mapping hold two entries per edge. *)
Theorem buildAdjacency_handshake (g : graph) :
  NoDup (ids g) →
  Forall (λ e, source e ∈ ids g ∧ target e ∈ ids g) (edges g) →
  sumZ (λ u, Z.of_nat (length (neighbors (buildAdjacency g) u))) (ids g)
  = 2 * Z.of_nat (length (edges g)).
Proof.
  intros Hnd Hends. rewrite <-(degree_sum g Hnd Hends).
  apply sumZ_ext. intros u Hu. by rewrite neighbors_degree.
Qed.

Lemma buildAdjacency_handshake_witness :
  NoDup (ids two_rings) ∧
  sumZ (λ u, Z.of_nat (length (neighbors (buildAdjacency two_rings) u)))
    (ids two_rings) = 2 * Z.of_nat (length (edges two_rings)).
Proof.
  assert (Hnd : NoDup (ids two_rings)) by by_evaluation.
  split; [exact Hnd|].
  apply (buildAdjacency_handshake two_rings Hnd). by_evaluation.
Defined.

(** * The metrics in general *)

(** ** What the metrics of a connected graph are *)

(** The result of [calculateGraphMetrics] on a connected graph with
    distinct ids, in terms of the distances that the searches record. *)
Lemma metrics_connected_value g :
  NoDup (ids g) → (2 ≤ length (nodes g))%nat →
  (∀ a b, a ∈ ids g → b ∈ ids g → reachable (linked g) a b) →
  calculateGraphMetrics g (buildAdjacency g)
  = Some (Metrics
      (Num (maxZ (λ a, maxZ (hop_count g a) (ids g) 0) (ids g) 0))
      (Frac (toFixed3 (Qmake (pair_sum (hop_count g) (ids g))
                             (Z.to_pos (pair_count (ids g))))))
      true).
Proof.
  intros Hnd Hn Hconn.
  assert (Hcount : pair_count (ids g)
    = Z.of_nat (length (nodes g)) * (Z.of_nat (length (nodes g)) - 1)).
  { rewrite pair_count_NoDup by done. unfold ids. by rewrite length_fmap. }
  assert (Hsum : sumZ (λ a, sumZ (hop_count g a) (ids g)) (ids g)
                 = pair_sum (hop_count g) (ids g)).
  { apply sumZ_ext. intros a Ha. apply sumZ_ext. intros b Hb.
    case_decide as Hab; [|done]. by apply hop_count_zero. }
  assert (Hpairs :
    sumZ (λ a, sumZ (λ b, if decide (0 < hop_count g a b) then 1 else 0) (ids g))
      (ids g)
    = pair_count (ids g)).
  { apply sumZ_ext. intros a Ha. apply sumZ_ext. intros b Hb.
    pose proof (hop_count_nonneg g Hconn a b Ha Hb) as Hge.
    pose proof (hop_count_zero g Hconn a b Ha Hb) as [Hz1 Hz2].
    destruct (decide (0 < hop_count g a b)) as [Hpos|Hpos],
      (decide (a = b)) as [Hab|Hab]; try done.
    - specialize (Hz2 Hab). lia.
    - destruct Hab. apply Hz1. lia. }
  unfold calculateGraphMetrics. rewrite bool_decide_eq_false_2 by lia.
  destruct (connected_sources g Hnd Hconn (imap pair (nodes g)) 0 0 0 0)
    as (first' & Hfold).
  { intros e (i & nd & -> & Hi)%elem_of_lookup_imap. simpl.
    by eapply list_elem_of_lookup_2. }
  { destruct (nodes g); [done|]. rewrite imap_cons. by left. }
  rewrite Hfold. simpl. rewrite imap_pair_nodes. fold (ids g).
  rewrite Hsum, Hpairs.
  rewrite bool_decide_eq_true_2; [done|]. rewrite Hcount. nia.
Qed.

(** ** The connectivity verdict is exact *)

Lemma remove_dups_length_le (l : list Z) : (length (remove_dups l) ≤ length l)%nat.
Proof.
  induction l as [|x l IH]; simpl; [done|]. case_decide; simpl; lia.
Qed.

Lemma remove_dups_length_lt (l : list Z) :
  ¬ NoDup l → (length (remove_dups l) < length l)%nat.
Proof.
  induction l as [|x l IH]; simpl; intros Hdup.
  - destruct Hdup. constructor.
  - pose proof (remove_dups_length_le l). case_decide as Hx; simpl; [lia|].
    assert (¬ NoDup l) by (intros ?; apply Hdup; by constructor).
    specialize (IH ltac:(done)). lia.
Qed.

(** With a repeated node id the first search cannot count as many entries
    as the node list is long, whatever the adjacency mapping. *)
Lemma metrics_duplicate_ids g adj :
  ¬ NoDup (ids g) →
  calculateGraphMetrics g adj = Some (Metrics Infinity FInfinity false).
Proof.
  intros Hdup.
  destruct (calculateGraphMetrics_total g adj) as [m Hm]. rewrite Hm. f_equal.
  apply (calculateGraphMetrics_disconnected _ _ _ Hm).
  destruct (isConnected m) eqn:Hconn; [exfalso|done].
  revert Hm Hconn. unfold calculateGraphMetrics.
  pose proof (remove_dups_length_lt _ Hdup) as Hlt.
  assert (Hlen : length (ids g) = length (nodes g)) by apply length_fmap.
  set (n := Z.of_nat (length (nodes g))).
  case_bool_decide as Hn.
  { destruct Hdup. unfold ids. subst n.
    destruct (nodes g) as [|nd [|nd' ns]]; simpl in *.
    - constructor.
    - apply NoDup_singleton.
    - lia. }
  assert (∃ nd ns, nodes g = nd :: ns) as (nd & ns & Hnodes).
  { subst n. destruct (nodes g) as [|nd ns]; [simpl in Hn; lia|by eauto]. }
  rewrite Hnodes, imap_cons. cbn [foldl].
  destruct (bfs_listed adj (nodes g) (node_id nd)) as (r & Hr & Hinv & _).
  rewrite (metrics_source_eq _ _ _ _ _ _ _ Hr).
  destruct (foldl _ _ _) as [t|] eqn:Hfold; simpl; [|done].
  intros [= <-]. simpl. intros Hconn.
  apply (metrics_fold_connected _ _ _ _ _ _ Hfold) in Hconn.
  unfold source_totals in Hconn. simpl in Hconn.
  rewrite forEach_reachableCount in Hconn. simpl in Hconn.
  case_bool_decide as Hcount; [done|]. apply Hcount.
  pose proof (reached_le (distances r)) as [_ Hle].
  assert (Hkeys : (length (distances r) ≤ length (remove_dups (ids g)))%nat).
  { rewrite <-(length_fmap fst (distances r)).
    change (fst <$> distances r) with (jsmap_keys (distances r)).
    rewrite (inv_keysD _ _ _ _ _ Hinv).
    apply submseteq_length, NoDup_submseteq; [apply bfs_KD_NoDup|].
    intros v Hv. apply elem_of_remove_dups.
    apply (bfs_KD adj _ _ _ (listed_complete adj (nodes g))) in Hv as [->|Hv].
    - unfold ids. rewrite Hnodes. apply list_elem_of_here.
    - done. }
  subst n. lia.
Qed.

(** [calculateGraphMetrics] answers [isConnected = true] exactly for the
    graphs whose node ids are distinct and whose nodes can all reach one
    another; it never fails.  A graph in which an id occurs twice is
    reported as disconnected whatever its edges are. *)
Theorem isConnected_exact (g : graph) :
  ∃ m, calculateGraphMetrics g (buildAdjacency g) = Some m ∧
       (isConnected m = true
        ↔ NoDup (ids g) ∧
          ∀ a b, a ∈ ids g → b ∈ ids g → reachable (linked g) a b).
Proof.
  destruct (calculateGraphMetrics_total g (buildAdjacency g)) as [m Hm].
  exists m. split; [done|]. split.
  - intros Hconn. split; [|by apply (metrics_connected_sound g m)].
    destruct (decide (NoDup (ids g))) as [|Hdup]; [done|].
    rewrite (metrics_duplicate_ids g _ Hdup) in Hm. injection Hm as <-. done.
  - intros [Hnd Hreach].
    destruct (decide (2 ≤ length (nodes g))%nat) as [Hn|Hn].
    + rewrite (metrics_connected_value g Hnd Hn Hreach) in Hm. by injection Hm as <-.
    + revert Hm. unfold calculateGraphMetrics.
      rewrite bool_decide_eq_true_2 by lia. by intros [= <-].
Qed.

(** ** Distances are symmetric *)

Lemma shortest_sym R u v n :
  (∀ a b, R a b → R b a) → shortest R u v n → shortest R v u n.
Proof.
  intros Hsym [Hn Hmin]. split; [by apply hops_sym|].
  intros m Hm. apply Hmin. by apply hops_sym.
Qed.

(** The distance that a search from [a] records for [b] is the one that a
    search from [b] records for [a], the sentinel included: the adjacency
    builder enters every edge at both ends. *)
Theorem bfs_distance_symmetric (g : graph) (a b : Z) :
  a ∈ ids g → b ∈ ids g →
  ∃ ra rb,
    bfs a (buildAdjacency g) (nodes g) = Some ra ∧
    bfs b (buildAdjacency g) (nodes g) = Some rb ∧
    jsmap_get (distances ra) b = jsmap_get (distances rb) a.
Proof.
  intros Ha Hb.
  destruct (bfs_graph g a) as (ra & Hra & Hinva).
  destruct (bfs_graph g b) as (rb & Hrb & Hinvb).
  exists ra, rb. split_and!; [done..|].
  destruct (bfs_distance_cases _ _ _ _ (linked_complete g) ra Hinva b)
    as [[-> Hno]|(n & -> & Hn)]; [by right| |];
    (destruct (bfs_distance_cases _ _ _ _ (linked_complete g) rb Hinvb a)
      as [[-> Hno']|(m & -> & Hm)]; [by right| |]).
  - done.
  - destruct Hno. apply reachable_sym; [apply linked_sym|]. exists m. apply Hm.
  - destruct Hno'. apply reachable_sym; [apply linked_sym|]. exists n. apply Hn.
  - apply (shortest_sym _ _ _ _ (linked_sym g)) in Hm.
    by rewrite (shortest_unique _ _ _ _ _ Hn Hm).
Qed.

Lemma bfs_distance_symmetric_witness :
  ∃ ra rb,
    bfs 0 (buildAdjacency two_rings) (nodes two_rings) = Some ra ∧
    bfs 4 (buildAdjacency two_rings) (nodes two_rings) = Some rb ∧
    jsmap_get (distances ra) 4 = jsmap_get (distances rb) 0.
Proof.
  apply (bfs_distance_symmetric two_rings 0 4); by_evaluation.
Defined.

(** ** Bounds on the metrics *)

Lemma sumZ_le {A} (f g : A → Z) l :
  (∀ x, x ∈ l → f x ≤ g x) → sumZ f l ≤ sumZ g l.
Proof.
  induction l as [|x l IH]; intros Hfg; simpl; [lia|].
  pose proof (Hfg x (list_elem_of_here _ _)).
  assert (sumZ f l ≤ sumZ g l); [|lia].
  apply IH. intros y Hy. by apply Hfg, list_elem_of_further.
Qed.

Lemma sumZ_scale {A} (c : Z) (f : A → Z) l :
  sumZ (λ x, c * f x) l = c * sumZ f l.
Proof. induction l as [|x l IH]; simpl; lia. Qed.

Lemma maxZ_le {A} (f : A → Z) l init B :
  init ≤ B → (∀ x, x ∈ l → f x ≤ B) → maxZ f l init ≤ B.
Proof.
  unfold maxZ. revert init. induction l as [|x l IH]; intros init Hinit Hf; simpl.
  - done.
  - apply IH.
    + pose proof (Hf x (list_elem_of_here _ _)). lia.
    + intros y Hy. by apply Hf, list_elem_of_further.
Qed.

(** Rounding to thousandths does not cross an integer. *)
Lemma toFixed3_between (lo hi : Z) (x : Q) :
  (inject_Z lo <= x)%Q → (x <= inject_Z hi)%Q →
  (inject_Z lo <= toFixed3 x)%Q ∧ (toFixed3 x <= inject_Z hi)%Q.
Proof.
  intros Hlo Hhi. unfold toFixed3.
  set (y := (x * (1000 # 1) + (1 # 2))%Q).
  assert (H1 : (inject_Z (lo * 1000) <= y)%Q).
  { unfold y. rewrite inject_Z_mult.
    change (inject_Z 1000) with (1000 # 1)%Q. lra. }
  assert (H2 : (y <= inject_Z (hi * 1000) + (1 # 2))%Q).
  { unfold y. rewrite inject_Z_mult.
    change (inject_Z 1000) with (1000 # 1)%Q. lra. }
  apply Qfloor_resp_le in H1. rewrite Qfloor_Z in H1.
  pose proof (Qfloor_le y) as H3.
  assert (H4 : (inject_Z (Qfloor y) <= inject_Z (hi * 1000) + (1 # 2))%Q) by lra.
  assert (H5 : Qfloor y ≤ hi * 1000).
  { revert H4. generalize (Qfloor y). intros k.
    unfold Qle, inject_Z, Qplus. simpl. lia. }
  revert H1 H5. generalize (Qfloor y). intros k H1 H5.
  split; unfold Qle, inject_Z; simpl; lia.
Qed.

(** The distances of a search from a node stay below the number of nodes. *)
Lemma hop_count_bound g a b :
  a ∈ ids g → b ∈ ids g → hop_count g a b < Z.of_nat (length (nodes g)).
Proof.
  intros Ha Hb. unfold hop_count.
  destruct (bfs_tree_returns (buildAdjacency g) (nodes g) a (linked g)
              (linked_sound g) (linked_complete g)) as (r & -> & Hinv & Hpred).
  assert (Hq : (length (queue r) ≤ length (nodes g))%nat).
  { pose proof (remove_dups_length_le (ids g)) as Hle.
    unfold ids at 2 in Hle. rewrite length_fmap in Hle.
    etrans; [|exact Hle].
    apply submseteq_length, NoDup_submseteq; [apply (pinv_NoDup _ _ Hpred)|].
    intros v [n Hn]%(queue_reachable (nodes g) a _ r Hinv).
    apply elem_of_remove_dups. by destruct (hops_linked_last g n a v Hn) as [->|?]. }
  assert (0 < length (nodes g))%nat.
  { unfold ids in Ha. destruct (nodes g); [by apply elem_of_nil in Ha|simpl; lia]. }
  destruct (jsmap_get (distances r) b) as [[k| |]|] eqn:Hk; try lia.
  apply (inv_bound _ _ _ _ _ Hinv) in Hk. lia.
Qed.

(** For a connected graph with distinct ids and at least two nodes the
    reported diameter is an integer between 1 and the number of nodes less
    one, and the reported average path length lies between 1 and the
    diameter. *)
Theorem metrics_bounds (g : graph) :
  NoDup (ids g) → (2 ≤ length (nodes g))%nat →
  (∀ a b, a ∈ ids g → b ∈ ids g → reachable (linked g) a b) →
  ∃ (diam : Z) (avg : Q),
    calculateGraphMetrics g (buildAdjacency g)
    = Some (Metrics (Num diam) (Frac avg) true) ∧
    1 ≤ diam ≤ Z.of_nat (length (nodes g)) - 1 ∧
    (inject_Z 1 <= avg)%Q ∧ (avg <= inject_Z diam)%Q.
Proof.
  intros Hnd Hn Hconn. eexists _, _.
  split; [by apply metrics_connected_value|].
  set (d := hop_count g).
  set (diam := maxZ (λ a, maxZ (d a) (ids g) 0) (ids g) 0).
  assert (Hup : ∀ a b, a ∈ ids g → b ∈ ids g → d a b ≤ diam).
  { intros a b Ha Hb. trans (maxZ (d a) (ids g) 0).
    - by apply maxZ_upper.
    - by apply (maxZ_upper (λ a, maxZ (d a) (ids g) 0)). }
  assert (Hpos : ∀ a b, a ∈ ids g → b ∈ ids g → a ≠ b → 1 ≤ d a b).
  { intros a b Ha Hb Hab.
    pose proof (hop_count_nonneg g Hconn a b Ha Hb).
    pose proof (hop_count_zero g Hconn a b Ha Hb) as [Hz _].
    destruct (decide (d a b = 0)) as [?%Hz|?]; [done|]. unfold d in *. lia. }
  assert (Hdiam : 1 ≤ diam ≤ Z.of_nat (length (nodes g)) - 1).
  { split.
    - destruct (ids g) as [|x [|y l]] eqn:Hids.
      + apply (f_equal length) in Hids. unfold ids in Hids.
        rewrite length_fmap in Hids. simpl in Hids. lia.
      + apply (f_equal length) in Hids. unfold ids in Hids.
        rewrite length_fmap in Hids. simpl in Hids. lia.
      + rewrite <-Hids in *.
        assert (Hx : x ∈ ids g) by (rewrite Hids; apply list_elem_of_here).
        assert (Hy : y ∈ ids g).
        { rewrite Hids. apply list_elem_of_further, list_elem_of_here. }
        assert (Hxy : x ≠ y).
        { rewrite Hids in Hnd. apply NoDup_cons in Hnd as [Hnot _].
          intros ->. apply Hnot, list_elem_of_here. }
        specialize (Hpos x y Hx Hy Hxy). specialize (Hup x y Hx Hy). lia.
    - apply maxZ_le; [lia|]. intros a Ha. apply maxZ_le; [lia|]. intros b Hb.
      pose proof (hop_count_bound g a b Ha Hb). unfold d. lia. }
  split; [done|].
  assert (Hcount : 0 < pair_count (ids g)).
  { rewrite pair_count_NoDup by done. unfold ids. rewrite length_fmap. nia. }
  assert (Hlo : pair_count (ids g) ≤ pair_sum d (ids g)).
  { apply sumZ_le. intros a Ha. apply sumZ_le. intros b Hb.
    case_decide; [lia|]. by apply Hpos. }
  assert (Hhi : pair_sum d (ids g) ≤ diam * pair_count (ids g)).
  { unfold pair_count. rewrite <-sumZ_scale. apply sumZ_le. intros a Ha.
    rewrite <-sumZ_scale. apply sumZ_le. intros b Hb.
    case_decide; [lia|]. specialize (Hup a b Ha Hb). lia. }
  apply toFixed3_between.
  - unfold Qle, inject_Z. simpl. rewrite Z2Pos.id by done. lia.
  - unfold Qle, inject_Z. simpl. rewrite Z2Pos.id by done. lia.
Qed.

Lemma metrics_bounds_witness :
  ∃ (diam : Z) (avg : Q),
    calculateGraphMetrics (generateTorus 3 4) (buildAdjacency (generateTorus 3 4))
    = Some (Metrics (Num diam) (Frac avg) true) ∧
    1 ≤ diam ≤ Z.of_nat (length (nodes (generateTorus 3 4))) - 1 ∧
    (inject_Z 1 <= avg)%Q ∧ (avg <= inject_Z diam)%Q.
Proof.
  apply (metrics_bounds (generateTorus 3 4)).
  - by_evaluation.
  - vm_compute. lia.
  - apply (metrics_connected_sound _ (Metrics (Num 3) (Frac (1818 # 1000)) true)).
    + vm_compute. reflexivity.
    + reflexivity.
Defined.

(** * The generators in general *)

(** ** Loops of [addEdge] calls *)

Lemma no_edges_keys_ok n : keys_ok n no_edges.
Proof.
  split; simpl; [apply no_edges_ok|].
  intros k Hk. by apply not_elem_of_empty in Hk.
Qed.

Lemma addEdge_mono p st u v : present p st → present p (addEdge st u v).
Proof.
  unfold present, addEdge. destruct (_ && _); [|done]. simpl.
  rewrite fmap_app, elem_of_app. by left.
Qed.

Lemma addEdge_origin p st u v :
  present p (addEdge st u v) → present p st ∨ (u ≠ v ∧ p = pair_of u v).
Proof.
  unfold present, addEdge. destruct (_ && _) eqn:Hnew; [|by left]. simpl.
  apply andb_prop in Hnew as [_ Hne%bool_decide_eq_true].
  rewrite fmap_app, elem_of_app. intros [?|Hp]; [by left|right].
  apply list_elem_of_singleton in Hp as ->. split; [lia|done].
Qed.

Lemma addEdge_keys_ok n st u v :
  keys_ok n st → 0 ≤ u < n → 0 ≤ v < n →
  keys_ok n (addEdge st u v) ∧ (u ≠ v → present (pair_of u v) (addEdge st u v)).
Proof.
  intros [Hacc Hback] Hu Hv.
  assert (Hacc' : acc_ok n (addEdge st u v)) by (by apply addEdge_ok).
  unfold present. unfold addEdge in *.
  destruct (bool_decide (_ ∉ _)) eqn:Hkey; simpl.
  - destruct (bool_decide (_ ≠ _)) eqn:Hne; simpl.
    + split; [split; simpl|].
      * done.
      * intros k [->%elem_of_singleton|Hk]%elem_of_union.
        -- exists (Edge u v). split; [|done]. apply elem_of_app. right.
           apply list_elem_of_here.
        -- destruct (Hback k Hk) as (e & He & ->). exists e. split; [|done].
           apply elem_of_app. by left.
      * intros _. rewrite fmap_app, elem_of_app. right. apply list_elem_of_here.
    + split; [done|]. apply bool_decide_eq_false in Hne. lia.
  - split; [done|]. intros Hne.
    apply bool_decide_eq_false in Hkey.
    assert (Hin : edgeKey (Z.min u v) (Z.max u v) ∈ addedEdges st).
    { destruct (decide (edgeKey (Z.min u v) (Z.max u v) ∈ addedEdges st)); done. }
    destruct (Hback _ Hin) as (e & He & Heq).
    apply list_elem_of_fmap. exists e. split; [|done].
    destruct Hacc as [Hrange _ _]. rewrite Forall_forall in Hrange.
    destruct (Hrange e He) as (_ & ? & ?).
    apply edgeKey_inj in Heq as [Hmin Hmax]; [|lia|unfold unordered; simpl; lia].
    unfold pair_of. rewrite Hmin, Hmax. by destruct (unordered e).
Qed.

(** A run of [addEdge] calls on endpoints in range records exactly the
    unordered pairs of the calls that are not loops, each once. *)
Lemma add_all_spec n calls st :
  keys_ok n st → Forall (λ c, 0 ≤ c.1 < n ∧ 0 ≤ c.2 < n) calls →
  keys_ok n (add_all st calls) ∧
  ∀ p, present p (add_all st calls)
       ↔ present p st ∨ ∃ c, c ∈ calls ∧ c.1 ≠ c.2 ∧ p = pair_of c.1 c.2.
Proof.
  unfold add_all. revert st. induction calls as [|c calls IH]; intros st Hst Hin.
  - simpl. split; [done|]. intros p. split; [by left|].
    intros [?|(c & ?%elem_of_nil & _)]; done.
  - apply Forall_cons in Hin as [[Hc1 Hc2] Hin]. simpl.
    destruct (addEdge_keys_ok n st c.1 c.2 Hst Hc1 Hc2) as [Hst1 Hnew].
    destruct (IH _ Hst1 Hin) as [Hend Hiff]. split; [done|].
    intros p. rewrite Hiff. split.
    + intros [[?|[? ->]]%addEdge_origin|(c' & ? & ? & ->)].
      * by left.
      * right. exists c. split; [apply list_elem_of_here|done].
      * right. exists c'. split; [by apply list_elem_of_further|done].
    + intros [?|(c' & [->|?]%elem_of_cons & Hne & ->)].
      * left. by apply addEdge_mono.
      * left. by apply Hnew.
      * right. by exists c'.
Qed.

Lemma foldl_bind {A B C} (f : A → B → A) (g : C → list B) (l : list C) (a : A) :
  foldl f a (l ≫= g) = foldl (λ a x, foldl f a (g x)) a l.
Proof.
  revert a. induction l as [|x l IH]; intros a; [done|].
  by rewrite bind_cons, foldl_app, IH.
Qed.

Lemma foldl_pointwise {A B} (f g : A → B → A) (l : list B) (a : A) :
  (∀ a x, f a x = g a x) → foldl f a l = foldl g a l.
Proof.
  intros Hfg. revert a. induction l as [|x l IH]; intros a; simpl; [done|].
  by rewrite Hfg, IH.
Qed.

Lemma present_no_edges p : ¬ present p no_edges.
Proof. unfold present. simpl. apply not_elem_of_nil. Qed.

(** Every recorded edge is one of the calls. *)
Lemma add_all_edges calls st e :
  e ∈ acc_edges (add_all st calls) →
  e ∈ acc_edges st ∨ ∃ c, c ∈ calls ∧ e = Edge c.1 c.2.
Proof.
  unfold add_all. revert st. induction calls as [|c calls IH]; intros st; simpl.
  - by left.
  - intros [He|(c' & ? & ->)]%IH.
    + unfold addEdge in He. destruct (_ && _); [|by left]. simpl in He.
      apply elem_of_app in He as [?| ->%list_elem_of_singleton]; [by left|].
      right. exists c. split; [apply list_elem_of_here|done].
    + right. exists c'. split; [by apply list_elem_of_further|done].
Qed.

Lemma linked_of_pair g u v :
  u ∈ ids g → v ∈ ids g → pair_of u v ∈ unordered <$> edges g → linked g u v.
Proof.
  intros Hu Hv (e & Heq & He)%list_elem_of_fmap.
  split_and!; [done..|]. exists e. split; [done|].
  destruct e as [s t]. simpl.
  change (unordered (Edge s t)) with (pair_of s t) in Heq.
  apply pair_of_eq in Heq. naive_solver.
Qed.

Lemma pair_of_linked g u v :
  linked g u v → pair_of u v ∈ unordered <$> edges g.
Proof.
  intros (_ & _ & e & He & Hends). apply list_elem_of_fmap. exists e.
  split; [|done]. destruct e as [s t]. unfold pair_of, unordered. simpl in *.
  destruct Hends as [[-> ->]|[-> ->]]; f_equal; lia.
Qed.

(** ** Connectivity from links to smaller ids *)

(** If every node but 0 is linked to a node with a smaller id, every node
    can be reached from every other. *)
Lemma connected_by_descent g n :
  ids g = seqZ 0 n →
  (∀ v, 0 < v < n → ∃ u, 0 ≤ u < v ∧ linked g u v) →
  ∀ a b, a ∈ ids g → b ∈ ids g → reachable (linked g) a b.
Proof.
  intros Hids Hdown.
  assert (Hroot : ∀ k : nat, ∀ v, 0 ≤ v < n → v ≤ Z.of_nat k →
    reachable (linked g) 0 v).
  { induction k as [|k IH]; intros v Hv Hk.
    - assert (v = 0) as -> by lia. apply reachable_refl.
    - destruct (decide (v = 0)) as [->|Hne]; [apply reachable_refl|].
      destruct (Hdown v) as (u & Hu & Hlink); [lia|].
      eapply reachable_trans; [apply (IH u); lia|].
      exists 1%nat. eapply hops_S; [constructor|done]. }
  intros a b Ha Hb. rewrite Hids in Ha, Hb.
  apply elem_of_seqZ in Ha, Hb.
  eapply reachable_trans.
  - apply reachable_sym; [apply linked_sym|]. apply (Hroot (Z.to_nat a)); lia.
  - apply (Hroot (Z.to_nat b)); lia.
Qed.

(** ** Ring *)

Lemma generateRing_nodes n skip :
  nodes (value (generateRing n skip)) = RingNode <$> seqZ 0 n.
Proof.
  unfold generateRing. case_bool_decide as Hn1; simpl.
  - by rewrite seqZ_nil by lia.
  - by case_bool_decide.
Qed.

Lemma generateRing_ids n skip : ids (value (generateRing n skip)) = seqZ 0 n.
Proof.
  unfold ids. rewrite generateRing_nodes, <-list_fmap_compose.
  rewrite <-(list_fmap_id (seqZ 0 n)) at 2. by apply list_fmap_ext.
Qed.

Lemma generateRing_edges_small n skip :
  n ≤ 1 → edges (value (generateRing n skip)) = [].
Proof.
  intros Hn. unfold generateRing. case_bool_decide; [done|].
  by rewrite (bool_decide_eq_true_2 (n ≤ 1)).
Qed.

Lemma generateRing_edges_calls n skip :
  2 ≤ n →
  edges (value (generateRing n skip))
  = acc_edges (add_all no_edges (ring_calls n (clamp_skip n skip))).
Proof.
  intros Hn. unfold generateRing.
  rewrite !bool_decide_eq_false_2 by lia. simpl.
  unfold ring_calls, add_all, clamp_skip. rewrite foldl_app, foldl_fmap. simpl.
  destruct (_ && _); [|done]. by rewrite foldl_fmap.
Qed.

Lemma clamp_skip_range n skip :
  2 ≤ n → 1 ≤ clamp_skip n skip < n ∧ 2 * clamp_skip n skip ≤ Z.max 2 n.
Proof.
  intros Hn. unfold clamp_skip.
  pose proof (Z.div_lt n 2 ltac:(lia) ltac:(lia)).
  pose proof (Z.mul_div_le n 2 ltac:(lia)). lia.
Qed.

(** Going [k] places round a ring of [n] nodes. *)
Lemma ring_step_mod n i k :
  2 ≤ n → 0 ≤ i < n → 1 ≤ k < n →
  0 ≤ (i + k) `rem` n < n ∧ (i + k) `rem` n ≠ i ∧ ((i + k) `rem` n - i) `mod` n = k.
Proof.
  intros Hn Hi Hk. rewrite Z.rem_mod_nonneg by lia.
  assert (Hmod : ((i + k) `mod` n - i) `mod` n = k).
  { rewrite Zminus_mod_idemp_l. replace (i + k - i) with k by lia.
    apply Z.mod_small. lia. }
  split; [apply Z.mod_pos_bound; lia|]. split; [|done].
  intros Heq. rewrite Heq, Z.sub_diag, Z.mod_0_l in Hmod by lia. lia.
Qed.

Lemma ring_mod_step n a b k :
  2 ≤ n → 0 ≤ a < n → 0 ≤ b < n → (b - a) `mod` n = k → b = (a + k) `rem` n.
Proof.
  intros Hn Ha Hb <-. pose proof (Z.mod_pos_bound (b - a) n ltac:(lia)).
  rewrite Z.rem_mod_nonneg by lia. rewrite Zplus_mod_idemp_r.
  replace (a + (b - a)) with b by lia. symmetry. apply Z.mod_small. lia.
Qed.

Lemma pair_of_comm a b : pair_of a b = pair_of b a.
Proof. unfold pair_of. f_equal; lia. Qed.

Lemma ring_calls_range n s :
  2 ≤ n → 1 ≤ s < n →
  Forall (λ c, 0 ≤ c.1 < n ∧ 0 ≤ c.2 < n) (ring_calls n s).
Proof.
  intros Hn Hs. unfold ring_calls. apply Forall_app. split.
  - apply Forall_fmap, Forall_forall. intros i Hi%elem_of_seqZ. simpl.
    split; [lia|]. apply rem_range; lia.
  - destruct (_ && _); [|constructor].
    apply Forall_fmap, Forall_forall. intros i Hi%elem_of_seqZ. simpl.
    split; [lia|]. apply rem_range; lia.
Qed.

Lemma ring_calls_elem n s c :
  c ∈ ring_calls n s ↔
  ∃ i, 0 ≤ i < n ∧
       (c = (i, (i + 1) `rem` n) ∨ (2 ≤ s ∧ 3 ≤ n ∧ c = (i, (i + s) `rem` n))).
Proof.
  unfold ring_calls. rewrite elem_of_app, list_elem_of_fmap.
  setoid_rewrite elem_of_seqZ. split.
  - intros [(i & -> & Hi)|Hc].
    + exists i. split; [lia|by left].
    + destruct (bool_decide (1 < s)) eqn:Hs; simpl in Hc;
        [|by apply elem_of_nil in Hc].
      destruct (bool_decide (3 ≤ n)) eqn:Hn; [|by apply elem_of_nil in Hc].
      apply bool_decide_eq_true in Hs, Hn.
      apply list_elem_of_fmap in Hc as (i & -> & Hi%elem_of_seqZ).
      exists i. split; [lia|]. right. split_and!; [lia|done|done].
  - intros (i & Hi & [->|(Hs & Hn & ->)]).
    + left. exists i. split; [done|lia].
    + right. rewrite !bool_decide_eq_true_2 by lia. simpl.
      apply list_elem_of_fmap. exists i. split; [done|]. apply elem_of_seqZ. lia.
Qed.

(** The two ends of a recorded pair are one or [s] places apart. *)
Lemma ring_pairs n skip a b :
  2 ≤ n →
  let s := clamp_skip n skip in
  pair_of a b ∈ unordered <$> edges (value (generateRing n skip)) ↔
  0 ≤ a < n ∧ 0 ≤ b < n ∧
  ((b - a) `mod` n = 1 ∨ (a - b) `mod` n = 1 ∨
   (2 ≤ s ∧ 3 ≤ n ∧ ((b - a) `mod` n = s ∨ (a - b) `mod` n = s))).
Proof.
  intros Hn s. destruct (clamp_skip_range n skip Hn) as [Hs _]. fold s in Hs.
  rewrite generateRing_edges_calls by done. fold s.
  destruct (add_all_spec n (ring_calls n s) no_edges (no_edges_keys_ok n)
              (ring_calls_range n s Hn Hs)) as [_ Hiff].
  unfold present in Hiff. rewrite Hiff. clear Hiff. split.
  - intros [Hp|(c & Hc & Hne & Hp)]; [by apply present_no_edges in Hp|].
    apply ring_calls_elem in Hc as (i & Hi & [->|(Hs2 & Hn3 & ->)]); simpl in *.
    + destruct (ring_step_mod n i 1 Hn Hi ltac:(lia)) as (Hj & _ & Hmod).
      apply pair_of_eq in Hp as [[-> ->]|[-> ->]]; split_and!; try done; tauto.
    + destruct (ring_step_mod n i s Hn Hi Hs) as (Hj & _ & Hmod).
      apply pair_of_eq in Hp as [[-> ->]|[-> ->]]; split_and!; try done; tauto.
  - intros (Ha & Hb & Hcase). right.
    destruct Hcase as [H1|[H1|(Hs2 & Hn3 & [H1|H1])]].
    + pose proof (ring_mod_step n a b 1 Hn Ha Hb H1) as Hstep.
      destruct (ring_step_mod n a 1 Hn Ha ltac:(lia)) as (_ & Hne & _).
      rewrite <-Hstep in Hne. exists (a, b). simpl.
      split_and!; [|done|done]. apply ring_calls_elem. exists a.
      split; [done|]. left. by rewrite <-Hstep.
    + pose proof (ring_mod_step n b a 1 Hn Hb Ha H1) as Hstep.
      destruct (ring_step_mod n b 1 Hn Hb ltac:(lia)) as (_ & Hne & _).
      rewrite <-Hstep in Hne. exists (b, a). simpl.
      split_and!; [|done|apply pair_of_comm]. apply ring_calls_elem. exists b.
      split; [done|]. left. by rewrite <-Hstep.
    + pose proof (ring_mod_step n a b s Hn Ha Hb H1) as Hstep.
      destruct (ring_step_mod n a s Hn Ha Hs) as (_ & Hne & _).
      rewrite <-Hstep in Hne. exists (a, b). simpl.
      split_and!; [|done|done]. apply ring_calls_elem. exists a.
      split; [done|]. right. by rewrite <-Hstep.
    + pose proof (ring_mod_step n b a s Hn Hb Ha H1) as Hstep.
      destruct (ring_step_mod n b s Hn Hb Hs) as (_ & Hne & _).
      rewrite <-Hstep in Hne. exists (b, a). simpl.
      split_and!; [|done|apply pair_of_comm]. apply ring_calls_elem. exists b.
      split; [done|]. right. by rewrite <-Hstep.
Qed.

(** What [generateRing] returns, for every [n] and [skip]: the nodes
    [0 .. n-1] in order; no edge when [n <= 1]; otherwise every edge leads
    from a node to the node one place or [s] places further round the ring,
    [s] being the clamped skip, and an unordered pair of nodes is in the
    edge list, once, exactly when its ends are one place apart or, for
    [s >= 2] and [n >= 3], [s] places apart. *)
Theorem generateRing_spec (n skip : Z) :
  let s := clamp_skip n skip in
  let g := value (generateRing n skip) in
  nodes g = RingNode <$> seqZ 0 n ∧
  ids g = seqZ 0 n ∧
  NoDup (unordered <$> edges g) ∧
  (n ≤ 1 → edges g = []) ∧
  (∀ e, e ∈ edges g →
     e = Edge (source e) ((source e + 1) `mod` n) ∨
     e = Edge (source e) ((source e + s) `mod` n)) ∧
  (2 ≤ n → ∀ a b,
     pair_of a b ∈ unordered <$> edges g ↔
     0 ≤ a < n ∧ 0 ≤ b < n ∧
     ((b - a) `mod` n = 1 ∨ (a - b) `mod` n = 1 ∨
      (2 ≤ s ∧ 3 ≤ n ∧ ((b - a) `mod` n = s ∨ (a - b) `mod` n = s)))).
Proof.
  intros s g. split_and!.
  - apply generateRing_nodes.
  - apply generateRing_ids.
  - apply generateRing_well_formed.
  - apply generateRing_edges_small.
  - intros e He. destruct (decide (n ≤ 1)) as [Hn|Hn].
    { unfold g in He. rewrite generateRing_edges_small in He by done.
      by apply elem_of_nil in He. }
    unfold g in He. rewrite generateRing_edges_calls in He by lia.
    apply add_all_edges in He as [He|(c & Hc & ->)]; [by apply elem_of_nil in He|].
    apply ring_calls_elem in Hc as (i & Hi & [->|(_ & _ & ->)]); simpl.
    + left. by rewrite Z.rem_mod_nonneg by lia.
    + right. destruct (clamp_skip_range n skip) as [? _]; [lia|].
      by rewrite Z.rem_mod_nonneg by lia.
  - intros Hn a b. by apply ring_pairs.
Qed.

Lemma generateRing_connected n skip :
  let g := value (generateRing n skip) in
  ∀ a b, a ∈ ids g → b ∈ ids g → reachable (linked g) a b.
Proof.
  intros g. apply (connected_by_descent g n); [apply generateRing_ids|].
  intros v Hv. exists (v - 1). split; [lia|].
  assert (Hids : ∀ x, 0 ≤ x < n → x ∈ ids g).
  { intros x Hx. unfold g. rewrite generateRing_ids. apply elem_of_seqZ. lia. }
  apply linked_of_pair; [apply Hids; lia..|].
  apply ring_pairs; [lia|]. split_and!; [lia..|]. left.
  replace (v - (v - 1)) with 1 by lia. apply Z.mod_small. lia.
Qed.

(** ** Torus *)

Lemma torus_cell_calls_eq rows cols r st c :
  torus_cell rows cols r st c = add_all st (torus_cell_calls rows cols r c).
Proof.
  unfold torus_cell, torus_cell_calls, add_all.
  by destruct (bool_decide (1 < rows)), (bool_decide (1 < cols)).
Qed.

Lemma generateTorus_nodes rows cols :
  1 ≤ rows → 1 ≤ cols → nodes (generateTorus rows cols) = grid_nodes rows cols.
Proof.
  intros Hr Hc. unfold generateTorus.
  by rewrite !bool_decide_eq_false_2 by lia.
Qed.

Lemma generateTorus_empty rows cols :
  rows < 1 ∨ cols < 1 → generateTorus rows cols = Graph [] [].
Proof.
  intros Hrc. unfold generateTorus.
  destruct (bool_decide (rows < 1)) eqn:Hr; [done|].
  apply bool_decide_eq_false in Hr. by rewrite bool_decide_eq_true_2 by lia.
Qed.

Lemma generateTorus_edges_calls rows cols :
  1 ≤ rows → 1 ≤ cols →
  edges (generateTorus rows cols)
  = acc_edges (add_all no_edges (torus_calls rows cols)).
Proof.
  intros Hr Hc. unfold generateTorus.
  rewrite !bool_decide_eq_false_2 by lia. simpl.
  unfold torus_calls, add_all. rewrite foldl_bind. f_equal.
  apply foldl_pointwise. intros st r. rewrite foldl_bind.
  apply foldl_pointwise. intros st' c. apply torus_cell_calls_eq.
Qed.

Lemma nodeAt_wrap rows cols r c :
  0 < rows → 0 < cols → 0 ≤ r → r ≤ rows → 0 ≤ c → c ≤ cols →
  nodeAt rows cols r c = (r `mod` rows) * cols + c `mod` cols.
Proof.
  intros. unfold nodeAt. rewrite !Z.rem_mod_nonneg by lia.
  rewrite <-(Z.mul_1_l rows) at 1. rewrite <-(Z.mul_1_l cols) at 2.
  by rewrite !Z.mod_add by lia.
Qed.

Lemma torus_cell_calls_elem rows cols r c x :
  0 < rows → 0 < cols → 0 ≤ r < rows → 0 ≤ c < cols →
  x ∈ torus_cell_calls rows cols r c ↔
  (1 < rows ∧ x = (r * cols + c, ((r + 1) `mod` rows) * cols + c)) ∨
  (1 < cols ∧ x = (r * cols + c, r * cols + (c + 1) `mod` cols)).
Proof.
  intros Hrows Hcols Hr Hc. unfold torus_cell_calls.
  rewrite !nodeAt_wrap by lia.
  rewrite (Z.mod_small r), (Z.mod_small c) by lia.
  rewrite elem_of_app. repeat case_bool_decide;
    rewrite ?list_elem_of_singleton, ?elem_of_nil; naive_solver.
Qed.

Lemma torus_calls_elem rows cols x :
  0 < rows → 0 < cols →
  x ∈ torus_calls rows cols ↔
  ∃ r c, 0 ≤ r < rows ∧ 0 ≤ c < cols ∧
    ((1 < rows ∧ x = (r * cols + c, ((r + 1) `mod` rows) * cols + c)) ∨
     (1 < cols ∧ x = (r * cols + c, r * cols + (c + 1) `mod` cols))).
Proof.
  intros Hrows Hcols. unfold torus_calls. rewrite list_elem_of_bind. split.
  - intros (r & (c & Hx & Hc%elem_of_seqZ)%list_elem_of_bind & Hr%elem_of_seqZ).
    exists r, c. split_and!; [lia..|].
    apply torus_cell_calls_elem in Hx; [done|lia..].
  - intros (r & c & Hr & Hc & Hx). exists r. split; [|apply elem_of_seqZ; lia].
    apply list_elem_of_bind. exists c. split; [|apply elem_of_seqZ; lia].
    by apply torus_cell_calls_elem.
Qed.

Lemma torus_calls_range rows cols :
  0 < rows → 0 < cols →
  Forall (λ c, 0 ≤ c.1 < rows * cols ∧ 0 ≤ c.2 < rows * cols)
    (torus_calls rows cols).
Proof.
  intros Hrows Hcols. apply Forall_forall. intros x Hx.
  apply torus_calls_elem in Hx as (r & c & Hr & Hc & Hx); [|done..].
  pose proof (Z.mod_pos_bound (r + 1) rows Hrows).
  pose proof (Z.mod_pos_bound (c + 1) cols Hcols).
  destruct Hx as [[_ ->]|[_ ->]]; simpl; nia.
Qed.

Lemma mod_succ_ne r n : 1 < n → 0 ≤ r < n → (r + 1) `mod` n ≠ r.
Proof.
  intros Hn Hr Heq.
  destruct (decide (r + 1 < n)) as [Hlt|Hge].
  - rewrite Z.mod_small in Heq by lia. lia.
  - assert (r + 1 = n) as Hrn by lia. rewrite Hrn, Z.mod_same in Heq by lia. lia.
Qed.

(** The recorded pairs of [generateTorus]: every cell with the cell below
    and the cell to its right, both taken round the edge of the grid. *)
Lemma torus_pairs rows cols a b :
  1 ≤ rows → 1 ≤ cols →
  pair_of a b ∈ unordered <$> edges (generateTorus rows cols) ↔
  ∃ r c, 0 ≤ r < rows ∧ 0 ≤ c < cols ∧
    ((1 < rows ∧
      pair_of a b = pair_of (r * cols + c) (((r + 1) `mod` rows) * cols + c)) ∨
     (1 < cols ∧
      pair_of a b = pair_of (r * cols + c) (r * cols + (c + 1) `mod` cols))).
Proof.
  intros Hrows Hcols. rewrite generateTorus_edges_calls by done.
  destruct (add_all_spec (rows * cols) (torus_calls rows cols) no_edges
              (no_edges_keys_ok _) (torus_calls_range rows cols ltac:(lia) ltac:(lia)))
    as [_ Hiff].
  unfold present in Hiff. rewrite Hiff. clear Hiff. split.
  - intros [Hp|(x & Hx & Hne & Hp)]; [by apply present_no_edges in Hp|].
    apply torus_calls_elem in Hx as (r & c & Hr & Hc & Hx); [|lia..].
    exists r, c. split_and!; [lia..|].
    destruct Hx as [[? ->]|[? ->]]; simpl in *; auto.
  - intros (r & c & Hr & Hc & Hcase). right.
    destruct Hcase as [[Hrows' Hp]|[Hcols' Hp]].
    + exists (r * cols + c, ((r + 1) `mod` rows) * cols + c). simpl.
      split_and!.
      * apply torus_calls_elem; [lia..|]. exists r, c. auto.
      * pose proof (mod_succ_ne r rows Hrows' Hr). nia.
      * done.
    + exists (r * cols + c, r * cols + (c + 1) `mod` cols). simpl.
      split_and!.
      * apply torus_calls_elem; [lia..|]. exists r, c. auto.
      * pose proof (mod_succ_ne c cols Hcols' Hc). lia.
      * done.
Qed.

(** What [generateTorus] returns, for all parameters: nothing when a
    dimension is below 1; otherwise the [rows * cols] nodes in row-major
    order, each with its row and column, and an unordered pair of nodes in
    the edge list, once, exactly when one of them is the cell below or the
    cell to the right of the other, counted round the edge of the grid; a
    grid of one row has no vertical pairs and a grid of one column no
    horizontal ones. *)
Theorem generateTorus_spec (rows cols : Z) :
  let g := generateTorus rows cols in
  (rows < 1 ∨ cols < 1 → g = Graph [] []) ∧
  (1 ≤ rows → 1 ≤ cols →
   nodes g = grid_nodes rows cols ∧
   ids g = seqZ 0 (rows * cols) ∧
   NoDup (unordered <$> edges g) ∧
   (∀ e, e ∈ edges g → ∃ r c, 0 ≤ r < rows ∧ 0 ≤ c < cols ∧
      source e = r * cols + c ∧
      (target e = ((r + 1) `mod` rows) * cols + c ∨
       target e = r * cols + (c + 1) `mod` cols)) ∧
   ∀ a b, pair_of a b ∈ unordered <$> edges g ↔
     ∃ r c, 0 ≤ r < rows ∧ 0 ≤ c < cols ∧
       ((1 < rows ∧
         pair_of a b = pair_of (r * cols + c) (((r + 1) `mod` rows) * cols + c)) ∨
        (1 < cols ∧
         pair_of a b = pair_of (r * cols + c) (r * cols + (c + 1) `mod` cols)))).
Proof.
  intros g. split; [apply generateTorus_empty|]. intros Hrows Hcols.
  split_and!.
  - by apply generateTorus_nodes.
  - unfold ids, g. rewrite generateTorus_nodes by done.
    apply grid_node_ids; lia.
  - apply generateTorus_well_formed.
  - intros e He. unfold g in He. rewrite generateTorus_edges_calls in He by done.
    apply add_all_edges in He as [He|(x & Hx & ->)]; [by apply elem_of_nil in He|].
    apply torus_calls_elem in Hx as (r & c & Hr & Hc & Hx); [|lia..].
    exists r, c. split_and!; [lia..| |]; destruct Hx as [[_ ->]|[_ ->]]; simpl; auto.
  - intros a b. by apply torus_pairs.
Qed.

Lemma generateTorus_connected rows cols :
  let g := generateTorus rows cols in
  ∀ a b, a ∈ ids g → b ∈ ids g → reachable (linked g) a b.
Proof.
  intros g.
  destruct (decide (1 ≤ rows ∧ 1 ≤ cols)) as [[Hrows Hcols]|Hsmall].
  2:{ unfold g. rewrite generateTorus_empty by lia. by intros a b ?%elem_of_nil. }
  assert (Hids : ids g = seqZ 0 (rows * cols)).
  { unfold ids, g. rewrite generateTorus_nodes by done. apply grid_node_ids; lia. }
  apply (connected_by_descent g (rows * cols) Hids).
  intros v Hv.
  pose proof (Z.div_mod v cols ltac:(lia)) as Hdm.
  pose proof (Z.mod_pos_bound v cols ltac:(lia)) as Hc.
  set (r := v `div` cols) in *. set (c := v `mod` cols) in *.
  assert (Hr : 0 ≤ r < rows).
  { split; [apply Z.div_pos; lia|apply Z.div_lt_upper_bound; lia]. }
  assert (Hin : ∀ x, 0 ≤ x < rows * cols → x ∈ ids g).
  { intros x Hx. rewrite Hids. apply elem_of_seqZ. lia. }
  destruct (decide (0 < c)) as [Hpos|Hzero].
  - exists (v - 1). split; [lia|]. apply linked_of_pair; [apply Hin; lia..|].
    apply torus_pairs; [done..|]. exists r, (c - 1). split_and!; [lia..|].
    right. split; [lia|]. replace (c - 1 + 1) with c by lia.
    rewrite (Z.mod_small c) by lia. f_equal; lia.
  - assert (c = 0) as Hc0 by lia. assert (0 < r) by nia.
    exists (v - cols). split; [nia|]. apply linked_of_pair; [apply Hin; nia..|].
    apply torus_pairs; [done..|]. exists (r - 1), 0. split_and!; [lia..|].
    left. split; [lia|]. replace (r - 1 + 1) with r by lia.
    rewrite (Z.mod_small r) by lia. f_equal; lia.
Qed.

(** ** Mesh *)

Lemma mesh_cell_exact cols r c st :
  0 ≤ r → 0 ≤ c < cols → cell_ok cols r c st →
  ∃ st', mesh_cell r st c = Some st' ∧ cell_ok cols r (c + 1) st' ∧
         mesh_nodes st' = mesh_nodes st ++ [GridNode (r * cols + c) r c] ∧
         mesh_edges st' = mesh_edges st ++ mesh_cell_edges cols r c.
Proof.
  intros Hr Hc Hok.
  destruct (mesh_cell_ok cols r c st Hr Hc Hok) as (st' & Hst' & Hok').
  exists st'. split; [done|]. split; [done|].
  destruct Hok as [Hcnt _ Hgrid Hline Hrow _ _].
  unfold mesh_cell in Hst'. rewrite !grid_at_alter in Hst' by done.
  rewrite !decide_False in Hst' by lia. unfold mesh_cell_edges.
  destruct (bool_decide (0 < c)) eqn:Hc0.
  - apply bool_decide_eq_true in Hc0. rewrite Hline in Hst' by lia.
    destruct (bool_decide (0 < r)) eqn:Hr0.
    + apply bool_decide_eq_true in Hr0. rewrite Hgrid in Hst' by lia.
      simpl in Hst'. injection Hst' as <-. simpl. rewrite Hcnt.
      split; [done|]. rewrite <-app_assoc. simpl. do 4 f_equal; lia.
    + simpl in Hst'. injection Hst' as <-. simpl. rewrite Hcnt.
      split; [done|]. do 3 f_equal; lia.
  - destruct (bool_decide (0 < r)) eqn:Hr0.
    + apply bool_decide_eq_true in Hr0. rewrite Hgrid in Hst' by lia.
      simpl in Hst'. injection Hst' as <-. simpl. rewrite Hcnt.
      split; [done|]. do 3 f_equal; lia.
    + simpl in Hst'. injection Hst' as <-. simpl. rewrite Hcnt.
      by rewrite app_nil_r.
Qed.

Lemma mesh_cells_exact cols r st (k : nat) c :
  0 ≤ r → 0 ≤ c → c + Z.of_nat k ≤ cols → cell_ok cols r c st →
  ∃ st', foldl (λ acc c, acc ≫= λ s, mesh_cell r s c) (Some st)
           (seqZ c (Z.of_nat k)) = Some st' ∧
         cell_ok cols r (c + Z.of_nat k) st' ∧
         mesh_nodes st'
         = mesh_nodes st
           ++ ((λ c, GridNode (r * cols + c) r c) <$> seqZ c (Z.of_nat k)) ∧
         mesh_edges st'
         = mesh_edges st ++ (seqZ c (Z.of_nat k) ≫= mesh_cell_edges cols r).
Proof.
  revert st c. induction k as [|k IH]; intros st c Hr Hc Hk Hst.
  - exists st. simpl. rewrite Z.add_0_r, !app_nil_r. done.
  - rewrite seqZ_cons by lia. simpl.
    destruct (mesh_cell_exact cols r c st) as (st1 & -> & Hst1 & Hn1 & He1);
      [lia..|done|].
    replace (Z.pred (Z.of_nat (S k))) with (Z.of_nat k) by lia.
    destruct (IH st1 (Z.succ c)) as (st' & Hst' & Hok & Hn & He); [lia..| |].
    { by replace (Z.succ c) with (c + 1) by lia. }
    exists st'. split; [done|].
    replace (c + Z.of_nat (S k)) with (Z.succ c + Z.of_nat k) by lia.
    split; [done|]. rewrite Hn, He, Hn1, He1, <-!app_assoc. done.
Qed.

Lemma mesh_row_exact cols r st :
  0 ≤ r → 0 < cols → row_ok cols r st →
  ∃ st', mesh_row cols st r = Some st' ∧ row_ok cols (r + 1) st' ∧
         mesh_nodes st'
         = mesh_nodes st ++ ((λ c, GridNode (r * cols + c) r c) <$> seqZ 0 cols) ∧
         mesh_edges st'
         = mesh_edges st ++ (seqZ 0 cols ≫= mesh_cell_edges cols r).
Proof.
  intros Hr Hcols Hok.
  destruct (mesh_row_ok cols r st Hr Hcols Hok) as (st' & Hst' & Hok').
  exists st'. split; [done|]. split; [done|].
  destruct Hok as [Hcnt Hids Hgrid Hedges Hnd]. unfold mesh_row in Hst'.
  set (st0 := MeshState _ _ _ _) in Hst'.
  assert (Hst0 : cell_ok cols r 0 st0).
  { split; simpl; try done.
    - lia.
    - intros r' c' Hr' Hc'. unfold grid_at. rewrite lookup_insert_ne by lia.
      by apply Hgrid.
    - intros c' Hc'. lia.
    - rewrite lookup_insert_eq. by eauto. }
  destruct (mesh_cells_exact cols r st0 (Z.to_nat cols) 0)
    as (st1 & Hst1 & _ & Hn & He); [lia..|done|].
  rewrite Z2Nat.id in Hst1, Hn, He by lia.
  rewrite Hst' in Hst1. injection Hst1 as <-. done.
Qed.

Lemma mesh_rows_exact cols st (k : nat) r :
  0 ≤ r → 0 < cols → row_ok cols r st →
  ∃ st', foldl (λ acc r, acc ≫= λ s, mesh_row cols s r) (Some st)
           (seqZ r (Z.of_nat k)) = Some st' ∧
         row_ok cols (r + Z.of_nat k) st' ∧
         mesh_nodes st'
         = mesh_nodes st
           ++ (r ← seqZ r (Z.of_nat k);
               (λ c, GridNode (r * cols + c) r c) <$> seqZ 0 cols) ∧
         mesh_edges st'
         = mesh_edges st
           ++ (r ← seqZ r (Z.of_nat k); c ← seqZ 0 cols; mesh_cell_edges cols r c).
Proof.
  revert st r. induction k as [|k IH]; intros st r Hr Hcols Hst.
  - exists st. simpl. rewrite Z.add_0_r, !app_nil_r. done.
  - rewrite seqZ_cons by lia. simpl.
    destruct (mesh_row_exact cols r st) as (st1 & -> & Hst1 & Hn1 & He1);
      [lia..|done|].
    replace (Z.pred (Z.of_nat (S k))) with (Z.of_nat k) by lia.
    destruct (IH st1 (Z.succ r)) as (st' & Hst' & Hok & Hn & He); [lia..| |].
    { by replace (Z.succ r) with (r + 1) by lia. }
    exists st'. split; [done|].
    replace (r + Z.of_nat (S k)) with (Z.succ r + Z.of_nat k) by lia.
    split; [done|]. rewrite Hn, He, Hn1, He1, <-!app_assoc. done.
Qed.

Lemma generateMesh_empty rows cols :
  rows < 1 ∨ cols < 1 → generateMesh rows cols = Some (Graph [] []).
Proof.
  intros Hrc. unfold generateMesh.
  destruct (bool_decide (rows < 1)) eqn:Hr; [done|].
  apply bool_decide_eq_false in Hr. by rewrite bool_decide_eq_true_2 by lia.
Qed.

(** The graph that [generateMesh] builds, in closed form. *)
Lemma generateMesh_closed rows cols :
  1 ≤ rows → 1 ≤ cols →
  generateMesh rows cols
  = Some (Graph (grid_nodes rows cols)
            (r ← seqZ 0 rows; c ← seqZ 0 cols; mesh_cell_edges cols r c)).
Proof.
  intros Hrows Hcols. unfold generateMesh.
  rewrite !bool_decide_eq_false_2 by lia. simpl.
  destruct (mesh_rows_exact cols (MeshState [] [] 0 ∅) (Z.to_nat rows) 0)
    as (st & Hst & _ & Hn & He); [lia..| |].
  { split; simpl; try done; [|constructor].
    intros r' c' Hr'. lia. }
  rewrite Z2Nat.id in Hst, Hn, He by lia. rewrite Hst. simpl.
  by rewrite Hn, He.
Qed.

Lemma mesh_edges_elem rows cols e :
  e ∈ (r ← seqZ 0 rows; c ← seqZ 0 cols; mesh_cell_edges cols r c) ↔
  ∃ r c, 0 ≤ r < rows ∧ 0 ≤ c < cols ∧
    ((0 < c ∧ e = Edge (r * cols + c) (r * cols + c - 1)) ∨
     (0 < r ∧ e = Edge (r * cols + c) (r * cols + c - cols))).
Proof.
  rewrite list_elem_of_bind. setoid_rewrite list_elem_of_bind.
  setoid_rewrite elem_of_seqZ. unfold mesh_cell_edges. split.
  - intros (r & (c & He & Hc) & Hr). exists r, c. split_and!; [lia..|].
    apply elem_of_app in He as [He|He]; case_bool_decide;
      rewrite ?list_elem_of_singleton, ?elem_of_nil in He; naive_solver.
  - intros (r & c & Hr & Hc & He). exists r. split; [|lia].
    exists c. split; [|lia]. apply elem_of_app.
    destruct He as [[? ->]|[? ->]]; [left|right];
      rewrite bool_decide_eq_true_2 by done; apply list_elem_of_here.
Qed.

Lemma length_bind_seqZ {A} (f : Z → list A) (g : Z → Z) (k : nat) :
  (∀ i, 0 ≤ i < Z.of_nat k → Z.of_nat (length (f i)) = g i) →
  Z.of_nat (length (seqZ 0 (Z.of_nat k) ≫= f)) = sumZ g (seqZ 0 (Z.of_nat k)).
Proof.
  induction k as [|k IH]; intros Hf; [done|].
  rewrite seqZ_S, bind_app, length_app. simpl.
  rewrite app_nil_r, Nat2Z.inj_add, IH, Hf by (try intros; try apply Hf; lia).
  clear. generalize (seqZ 0 (Z.of_nat k)). intros l.
  induction l as [|x l IHl]; simpl; lia.
Qed.

Lemma sumZ_seqZ_linear (a b : Z) (k : nat) :
  sumZ (λ i, a + (if bool_decide (0 < i) then b else 0)) (seqZ 0 (Z.of_nat k))
  = Z.of_nat k * a + (Z.of_nat k - (if decide (k = 0%nat) then 0 else 1)) * b.
Proof.
  induction k as [|k IH]; [done|].
  rewrite seqZ_S. simpl.
  assert (Hsnoc : ∀ (f : Z → Z) l x, sumZ f (l ++ [x]) = sumZ f l + f x).
  { intros f l x. induction l as [|y l IHl]; simpl; lia. }
  rewrite Hsnoc, IH. destruct k as [|k]; [simpl; lia|].
  rewrite bool_decide_eq_true_2 by lia. rewrite decide_False by done. lia.
Qed.

Lemma mesh_edges_length rows cols :
  1 ≤ rows → 1 ≤ cols →
  Z.of_nat (length (r ← seqZ 0 rows; c ← seqZ 0 cols; mesh_cell_edges cols r c))
  = rows * (cols - 1) + (rows - 1) * cols.
Proof.
  intros Hrows Hcols.
  rewrite <-(Z2Nat.id rows), <-(Z2Nat.id cols) by lia.
  set (R := Z.to_nat rows). set (C := Z.to_nat cols).
  assert (HR : (1 ≤ R)%nat) by lia. assert (HC : (1 ≤ C)%nat) by lia.
  clearbody R C. clear Hrows Hcols.
  rewrite (length_bind_seqZ _
    (λ r, (Z.of_nat C - 1) + (if bool_decide (0 < r) then Z.of_nat C else 0))).
  - rewrite sumZ_seqZ_linear. rewrite decide_False by lia. lia.
  - intros r Hr.
    rewrite (length_bind_seqZ _
      (λ c, (if bool_decide (0 < r) then 1 else 0)
            + (if bool_decide (0 < c) then 1 else 0))).
    + rewrite sumZ_seqZ_linear. rewrite decide_False by lia.
      case_bool_decide; lia.
    + intros c Hc. unfold mesh_cell_edges. rewrite length_app.
      repeat case_bool_decide; simpl; lia.
Qed.

(** What [generateMesh] returns, for all parameters: an empty graph when a
    dimension is below 1; otherwise (it never reads an unwritten grid cell)
    the [rows * cols] nodes in row-major order, each with its row and
    column, and, cell by cell in the same order, the edge to the left
    neighbour, if there is one, followed by the edge to the upper
    neighbour, if there is one: [rows * (cols - 1) + (rows - 1) * cols]
    edges in all. *)
Theorem generateMesh_spec (rows cols : Z) :
  (rows < 1 ∨ cols < 1 → generateMesh rows cols = Some (Graph [] [])) ∧
  (1 ≤ rows → 1 ≤ cols →
   ∃ g, generateMesh rows cols = Some g ∧
     nodes g = grid_nodes rows cols ∧
     ids g = seqZ 0 (rows * cols) ∧
     Z.of_nat (length (nodes g)) = rows * cols ∧
     edges g = (r ← seqZ 0 rows; c ← seqZ 0 cols; mesh_cell_edges cols r c) ∧
     Z.of_nat (length (edges g)) = rows * (cols - 1) + (rows - 1) * cols ∧
     ∀ e, e ∈ edges g ↔
       ∃ r c, 0 ≤ r < rows ∧ 0 ≤ c < cols ∧
         ((0 < c ∧ e = Edge (r * cols + c) (r * cols + c - 1)) ∨
          (0 < r ∧ e = Edge (r * cols + c) (r * cols + c - cols)))).
Proof.
  split; [apply generateMesh_empty|]. intros Hrows Hcols.
  eexists. split; [by apply generateMesh_closed|]. simpl.
  assert (Hids : node_id <$> grid_nodes rows cols = seqZ 0 (rows * cols)).
  { apply grid_node_ids; lia. }
  split_and!; [done|done| |done|by apply mesh_edges_length|apply mesh_edges_elem].
  rewrite <-(length_fmap node_id), Hids, length_seqZ. nia.
Qed.

Lemma generateMesh_connected rows cols g :
  generateMesh rows cols = Some g →
  ∀ a b, a ∈ ids g → b ∈ ids g → reachable (linked g) a b.
Proof.
  intros Hg.
  destruct (decide (1 ≤ rows ∧ 1 ≤ cols)) as [[Hrows Hcols]|Hsmall].
  2:{ rewrite generateMesh_empty in Hg by lia. injection Hg as <-.
      by intros a b ?%elem_of_nil. }
  rewrite generateMesh_closed in Hg by done. injection Hg as <-.
  set (g := Graph _ _).
  assert (Hids : ids g = seqZ 0 (rows * cols)) by (apply grid_node_ids; lia).
  apply (connected_by_descent g (rows * cols) Hids).
  intros v Hv.
  pose proof (Z.div_mod v cols ltac:(lia)) as Hdm.
  pose proof (Z.mod_pos_bound v cols ltac:(lia)) as Hc.
  set (r := v `div` cols) in *. set (c := v `mod` cols) in *.
  assert (Hr : 0 ≤ r < rows).
  { split; [apply Z.div_pos; lia|apply Z.div_lt_upper_bound; lia]. }
  assert (Hin : ∀ x, 0 ≤ x < rows * cols → x ∈ ids g).
  { intros x Hx. rewrite Hids. apply elem_of_seqZ. lia. }
  destruct (decide (0 < c)) as [Hpos|Hzero].
  - exists (v - 1). split; [lia|]. split_and!; [apply Hin; lia..|].
    exists (Edge v (v - 1)). split; [|by right].
    apply mesh_edges_elem. exists r, c. split_and!; [lia..|].
    left. split; [done|]. f_equal; lia.
  - assert (c = 0) as Hc0 by lia. assert (0 < r) by nia.
    exists (v - cols). split; [nia|]. split_and!; [apply Hin; nia..|].
    exists (Edge v (v - cols)). split; [|by right].
    apply mesh_edges_elem. exists r, c. split_and!; [lia..|].
    right. split; [done|]. f_equal; lia.
Qed.

(** ** Hypercube *)

(** Clearing the highest bit gives a smaller number. *)
Lemma lxor_log2_lt v : 0 < v → 0 ≤ Z.lxor v (2 ^ Z.log2 v) < v.
Proof.
  intros Hv. set (j := Z.log2 v).
  assert (Hj : 0 ≤ j) by apply Z.log2_nonneg.
  assert (Hpow : 0 < 2 ^ j) by (apply Z.pow_pos_nonneg; lia).
  assert (Hge : 0 ≤ Z.lxor v (2 ^ j)) by (apply Z.lxor_nonneg; lia).
  split; [done|].
  destruct (decide (Z.lxor v (2 ^ j) = 0)) as [->|Hnz]; [done|].
  assert (Hbit : Z.testbit (Z.lxor v (2 ^ j)) j = false).
  { rewrite Z.lxor_spec. unfold j at 2. rewrite Z.bit_log2 by done.
    by rewrite Z.pow2_bits_true. }
  pose proof (Z.log2_lxor v (2 ^ j) ltac:(lia) ltac:(lia)) as Hlog.
  rewrite Z.log2_pow2 in Hlog by done. fold j in Hlog.
  assert (Z.log2 (Z.lxor v (2 ^ j)) ≠ j).
  { intros Heq. pose proof (Z.bit_log2 (Z.lxor v (2 ^ j)) ltac:(lia)) as Hb.
    rewrite Heq in Hb. congruence. }
  assert (Z.lxor v (2 ^ j) < 2 ^ j) by (apply Z.log2_lt_pow2; lia).
  pose proof (Z.log2_spec v Hv) as [Hlow _]. fold j in Hlow. lia.
Qed.

Lemma generateHypercube_ids d :
  ids (value (generateHypercube d)) = seqZ 0 (2 ^ clamp_dimension d).
Proof.
  assert (Hclamp : (if bool_decide (10 < (if bool_decide (d < 0) then 0 else d))
                    then 10 else if bool_decide (d < 0) then 0 else d)
                   = clamp_dimension d).
  { unfold clamp_dimension. repeat case_bool_decide; lia. }
  unfold ids, generateHypercube. simpl. rewrite Hclamp.
  rewrite <-list_fmap_compose.
  rewrite <-(list_fmap_id (seqZ 0 (2 ^ clamp_dimension d))) at 2.
  by apply list_fmap_ext.
Qed.

Lemma generateHypercube_edges d :
  let d' := clamp_dimension d in
  edges (value (generateHypercube d))
  = acc_edges
      (if bool_decide (0 < d')
       then foldl (λ st i, foldl (cube_edge i) st (seqZ 0 d')) no_edges
              (seqZ 0 (2 ^ d'))
       else no_edges).
Proof.
  intros d'.
  assert (Hclamp : (if bool_decide (10 < (if bool_decide (d < 0) then 0 else d))
                    then 10 else if bool_decide (d < 0) then 0 else d) = d').
  { unfold d', clamp_dimension. repeat case_bool_decide; lia. }
  unfold generateHypercube. simpl. by rewrite Hclamp.
Qed.

Lemma generateHypercube_connected d :
  let g := value (generateHypercube d) in
  ∀ a b, a ∈ ids g → b ∈ ids g → reachable (linked g) a b.
Proof.
  intros g. set (d' := clamp_dimension d).
  assert (Hd' : 0 ≤ d' ≤ 10) by (unfold d', clamp_dimension; lia).
  assert (Hids : ids g = seqZ 0 (2 ^ d')) by apply generateHypercube_ids.
  apply (connected_by_descent g (2 ^ d') Hids).
  intros v Hv. set (j := Z.log2 v).
  assert (Hj : 0 ≤ j < d').
  { split; [apply Z.log2_nonneg|]. apply Z.log2_lt_pow2; lia. }
  pose proof (lxor_log2_lt v ltac:(lia)) as Hu. fold j in Hu.
  exists (Z.lxor v (2 ^ j)). split; [lia|].
  assert (Hin : ∀ x, 0 ≤ x < 2 ^ d' → x ∈ ids g).
  { intros x Hx. rewrite Hids. apply elem_of_seqZ. lia. }
  apply linked_sym. apply linked_of_pair; [apply Hin; lia..|].
  unfold g. rewrite generateHypercube_edges. fold d'.
  rewrite bool_decide_eq_true_2 by lia.
  destruct (cube_loops_ok d') as [_ Hall]; [lia|].
  rewrite <-Z.shiftl_1_l. apply Hall; lia.
Qed.

(** ** Every generated graph is connected *)

(** Whatever the parameters, the graph that a generator returns is
    connected: every node can be reached from every other over its
    edges.  (The empty graph and the graph of one node count as
    connected.) *)
Theorem generators_connected :
  (∀ n skip, connected_graph (value (generateRing n skip))) ∧
  (∀ rows cols g, generateMesh rows cols = Some g → connected_graph g) ∧
  (∀ rows cols, connected_graph (generateTorus rows cols)) ∧
  (∀ d, connected_graph (value (generateHypercube d))).
Proof.
  split_and!.
  - exact generateRing_connected.
  - exact generateMesh_connected.
  - exact generateTorus_connected.
  - exact generateHypercube_connected.
Qed.

(** * The panel and the highlighted paths *)

(** ** The metrics panel never reports a generated graph as disconnected *)

Lemma well_formed_NoDup g : well_formed g → NoDup (ids g).
Proof. intros (-> & _). apply NoDup_seqZ. Qed.

(** On a connected graph with distinct ids both metrics are numbers. *)
Lemma metrics_connected_numbers g :
  NoDup (ids g) → connected_graph g →
  ∃ diam avg,
    calculateGraphMetrics g (buildAdjacency g)
    = Some (Metrics (Num diam) (Frac avg) true).
Proof.
  intros Hnd Hconn.
  destruct (decide (2 ≤ length (nodes g))%nat) as [Hn|Hn].
  - eexists _, _. by apply metrics_connected_value.
  - exists 0, (0 # 1)%Q. unfold calculateGraphMetrics.
    by rewrite bool_decide_eq_true_2 by lia.
Qed.

Lemma generateGraphAndMetrics_shows type params st g :
  (if decide (type = "ring") then
     Some (value (generateRing (or_default (params !! "nodes") 12)
                    (or_default (params !! "skip") 1)))
   else if decide (type = "mesh") then
     generateMesh (or_default (params !! "rows") 4)
       (or_default (params !! "cols") 5)
   else if decide (type = "torus") then
     Some (generateTorus (or_default (params !! "rows") 4)
             (or_default (params !! "cols") 5))
   else if decide (type = "hypercube") then
     Some (value (generateHypercube (or_default (params !! "dimension") 3)))
   else Some (graphData st)) = Some g →
  NoDup (ids g) → connected_graph g →
  ∃ diam avg,
    calculateGraphMetrics g (buildAdjacency g)
    = Some (Metrics (Num diam) (Frac avg) true) ∧
    generateGraphAndMetrics type params st
    = Some (AppState g (buildAdjacency g),
            Panel (Shown (Num diam)) (Shown (Frac avg))
              (length (nodes g)) (length (edges g))).
Proof.
  intros Hg Hnd Hconn.
  destruct (metrics_connected_numbers g Hnd Hconn) as (diam & avg & Hm).
  exists diam, avg. split; [done|].
  unfold generateGraphAndMetrics. rewrite Hg. simpl. rewrite Hm. done.
Qed.

(** For each of the four topology types and all parameter values, absent
    and zero parameters being replaced by the defaults (12 nodes and skip 1,
    4 rows and 5 columns, dimension 3), [generateGraphAndMetrics] stores the
    generator's graph together with its adjacency mapping and fills the
    panel with the node count, the edge count and two numbers: the diameter
    and the average path length are never shown as 'Disconnected'. *)
Theorem generateGraphAndMetrics_panel (params : gmap string Z) (st : app_state) :
  let shows (g : graph) (out : option (app_state * panel)) :=
    ∃ diam avg,
      calculateGraphMetrics g (buildAdjacency g)
      = Some (Metrics (Num diam) (Frac avg) true) ∧
      out = Some (AppState g (buildAdjacency g),
                  Panel (Shown (Num diam)) (Shown (Frac avg))
                    (length (nodes g)) (length (edges g))) in
  shows (value (generateRing (or_default (params !! "nodes") 12)
                  (or_default (params !! "skip") 1)))
    (generateGraphAndMetrics "ring" params st) ∧
  (∃ g, generateMesh (or_default (params !! "rows") 4)
          (or_default (params !! "cols") 5) = Some g ∧
        shows g (generateGraphAndMetrics "mesh" params st)) ∧
  shows (generateTorus (or_default (params !! "rows") 4)
           (or_default (params !! "cols") 5))
    (generateGraphAndMetrics "torus" params st) ∧
  shows (value (generateHypercube (or_default (params !! "dimension") 3)))
    (generateGraphAndMetrics "hypercube" params st).
Proof.
  intros shows. split_and!.
  - apply generateGraphAndMetrics_shows; [done| |].
    + apply well_formed_NoDup, generateRing_well_formed.
    + exact (generateRing_connected _ _).
  - destruct (generateMesh_total (or_default (params !! "rows") 4)
                (or_default (params !! "cols") 5)) as (g & Hg & Hwf).
    exists g. split; [done|].
    apply generateGraphAndMetrics_shows; [done| |].
    + by apply well_formed_NoDup.
    + exact (generateMesh_connected _ _ _ Hg).
  - apply generateGraphAndMetrics_shows; [done| |].
    + apply well_formed_NoDup, generateTorus_well_formed.
    + exact (generateTorus_connected _ _).
  - apply generateGraphAndMetrics_shows; [done| |].
    + apply well_formed_NoDup, generateHypercube_well_formed.
    + exact (generateHypercube_connected _).
Qed.

(** With no parameter set, and with every parameter set to zero, the ring
    of 12 nodes is generated; an unknown topology type keeps the previous
    graph and recomputes its panel. *)
Example generateGraphAndMetrics_defaults :
  (∀ st, generateGraphAndMetrics "ring" ∅ st
         = Some (AppState ring12 (buildAdjacency ring12),
                 Panel (Shown (Num 6)) (Shown (Frac (3273 # 1000))) 12 12)) ∧
  (∀ st, generateGraphAndMetrics "ring" {["nodes" := 0; "skip" := 0]} st
         = generateGraphAndMetrics "ring" ∅ st) ∧
  generateGraphAndMetrics "star" ∅ (AppState two_rings [])
  = Some (AppState two_rings (buildAdjacency two_rings),
          Panel Disconnected Disconnected 6 6).
Proof. split_and!; [intros st..|]; vm_compute; reflexivity. Qed.

(** ** The highlighted paths *)












(** * Degrees and edge counts *)

(** ** The degree is the number of neighbours *)

Lemma partners_cons v e es :
  partners v (e :: es)
  = (if decide (source e = v) then [target e] else [])
    ++ (if decide (target e = v) then [source e] else [])
    ++ partners v es.
Proof. unfold partners. by rewrite bind_cons, <-app_assoc. Qed.

Lemma partners_elem v es x :
  x ∈ partners v es ↔ pair_of v x ∈ unordered <$> es.
Proof.
  unfold partners. rewrite list_elem_of_bind, list_elem_of_fmap. split.
  - intros (e & Hx & He). exists e. split; [|done].
    destruct e as [s t]. unfold unordered, pair_of. simpl in *.
    apply elem_of_app in Hx as [Hx|Hx]; case_decide as Hv;
      rewrite ?list_elem_of_singleton, ?elem_of_nil in Hx; try done;
      subst; f_equal; lia.
  - intros (e & Heq & He). exists e. split; [|done].
    destruct e as [s t]. change (unordered (Edge s t)) with (pair_of s t) in Heq.
    simpl. apply elem_of_app.
    apply pair_of_eq in Heq as [[-> ->]|[-> ->]].
    + left. rewrite decide_True by done. apply list_elem_of_here.
    + right. rewrite decide_True by done. apply list_elem_of_here.
Qed.

Lemma partners_NoDup v es :
  Forall (λ e, source e ≠ target e) es → NoDup (unordered <$> es) →
  NoDup (partners v es).
Proof.
  induction es as [|e es IH]; [constructor|].
  intros [Hloop Hloops]%Forall_cons. rewrite fmap_cons.
  intros [Hfresh Hnd]%NoDup_cons. rewrite partners_cons.
  specialize (IH Hloops Hnd).
  assert (Hnew : ∀ x, unordered e = pair_of v x → x ∉ partners v es).
  { intros x Heq Hin%partners_elem. by rewrite <-Heq in Hin. }
  destruct e as [s t]. simpl in *.
  destruct (decide (s = v)) as [->|Hs], (decide (t = v)) as [->|Ht]; simpl.
  - done.
  - constructor; [|done]. by apply Hnew.
  - constructor; [|done]. apply Hnew. apply pair_of_comm.
  - done.
Qed.

Lemma pair_edges_elem (es : list edge) u v :
  pair_of u v ∈ unordered <$> es ↔
  ∃ e, e ∈ es ∧ ((source e = u ∧ target e = v) ∨ (source e = v ∧ target e = u)).
Proof.
  rewrite list_elem_of_fmap. split.
  - intros (e & Heq & He). exists e. split; [done|]. destruct e as [s t].
    change (unordered (Edge s t)) with (pair_of s t) in Heq. simpl.
    apply pair_of_eq in Heq. naive_solver.
  - intros (e & He & Hends). exists e. split; [|done]. destruct e as [s t].
    unfold pair_of, unordered. simpl in *.
    destruct Hends as [[-> ->]|[-> ->]]; f_equal; lia.
Qed.

(** The neighbour list of a node holds the nodes it shares an edge with. *)
Lemma neighbors_pair g u v :
  u ∈ ids g →
  v ∈ neighbors (buildAdjacency g) u ↔ pair_of u v ∈ unordered <$> edges g.
Proof. intros Hu. rewrite buildAdjacency_elem, pair_edges_elem. naive_solver. Qed.

(** In a well-formed graph the degree of a node is the number of nodes
    it shares an edge with. *)
Lemma degree_count g v (l : list Z) :
  well_formed g → NoDup l →
  (∀ x, x ∈ l ↔ pair_of v x ∈ unordered <$> edges g) →
  degree g v = length l.
Proof.
  intros (_ & Hok & Hnd) Hl Hiff. unfold degree.
  rewrite <-partners_length. apply Permutation_length, NoDup_Permutation.
  - apply partners_NoDup; [|done].
    eapply Forall_impl; [done|]. by intros e [? _].
  - done.
  - intros x. by rewrite partners_elem, Hiff.
Qed.

Lemma well_formed_ends g :
  well_formed g →
  Forall (λ e, source e ∈ ids g ∧ target e ∈ ids g) (edges g).
Proof.
  intros (Hids & Hok & _). eapply Forall_impl; [done|].
  intros e (_ & Hs & Ht). rewrite Hids, !elem_of_seqZ. lia.
Qed.

(** With the same degree [k] at every node there are [n * k / 2] edges. *)
Lemma regular_edge_count g (k : nat) :
  well_formed g → (∀ v, v ∈ ids g → degree g v = k) →
  2 * Z.of_nat (length (edges g)) = Z.of_nat (length (nodes g)) * Z.of_nat k.
Proof.
  intros Hwf Hdeg.
  rewrite <-(degree_sum g (well_formed_NoDup g Hwf) (well_formed_ends g Hwf)).
  rewrite (sumZ_const (Z.of_nat k)).
  - unfold ids. by rewrite length_fmap.
  - intros v Hv. by rewrite Hdeg.
Qed.

(** ** Hypercube *)

Lemma hypercube_pairs d a b :
  let d' := clamp_dimension d in
  pair_of a b ∈ unordered <$> edges (value (generateHypercube d)) ↔
  0 ≤ a < 2 ^ d' ∧ ∃ j, 0 ≤ j < d' ∧ b = Z.lxor a (2 ^ j).
Proof.
  intros d'. assert (Hd' : 0 ≤ d' ≤ 10) by (unfold d', clamp_dimension; lia).
  rewrite generateHypercube_edges. fold d'. case_bool_decide as Hpos.
  - destruct (cube_loops_ok d') as [[Hacc _ Hshape] Hall]; [lia|].
    split.
    + intros (e & Heq & He)%list_elem_of_fmap.
      destruct Hacc as [Hrange _ _]. rewrite Forall_forall in Hrange, Hshape.
      destruct (Hrange e He) as (_ & Hs & _).
      destruct (Hshape e He) as (j & Hj & Ht).
      destruct (lxor_bit_range d' (source e) j Hs Hj) as [Hv _].
      rewrite Z.shiftl_1_l in Ht, Hv.
      apply pair_of_eq in Heq as [[-> ->]|[-> ->]].
      * split; [done|]. by exists j.
      * rewrite Ht. split; [done|]. exists j. split; [done|].
        by rewrite lxor_involutive.
    + intros (Ha & j & Hj & ->). rewrite <-Z.shiftl_1_l. by apply Hall.
  - simpl. rewrite elem_of_nil. split; [done|]. intros (_ & j & Hj & _). lia.
Qed.

(** Every node of the hypercube of clamped dimension [d'] is an end of
    exactly [d'] edges, to the [d'] nodes whose ids differ from its own in one
    bit; so the hypercube has [d' * 2 ^ d' / 2] edges. *)
Theorem generateHypercube_degree (d : Z) :
  let d' := clamp_dimension d in
  let g := value (generateHypercube d) in
  (∀ v, v ∈ ids g → degree g v = Z.to_nat d') ∧
  (∀ v, v ∈ ids g →
     ∀ x, x ∈ neighbors (buildAdjacency g) v
          ↔ ∃ j, 0 ≤ j < d' ∧ x = Z.lxor v (2 ^ j)) ∧
  2 * Z.of_nat (length (edges g)) = d' * 2 ^ d'.
Proof.
  intros d' g. assert (Hd' : 0 ≤ d' ≤ 10) by (unfold d', clamp_dimension; lia).
  pose proof (generateHypercube_well_formed d) as Hwf. fold g in Hwf.
  assert (Hids : ids g = seqZ 0 (2 ^ d')) by apply generateHypercube_ids.
  assert (Hpow : 0 < 2 ^ d') by (apply Z.pow_pos_nonneg; lia).
  assert (Hdeg : ∀ v, v ∈ ids g → degree g v = Z.to_nat d').
  { intros v Hv. rewrite Hids in Hv. apply elem_of_seqZ in Hv.
    rewrite (degree_count g v ((λ j, Z.lxor v (2 ^ j)) <$> seqZ 0 d') Hwf).
    - by rewrite length_fmap, length_seqZ.
    - apply NoDup_fmap_2_strong; [|apply NoDup_seqZ].
      intros j j' Hj%elem_of_seqZ Hj'%elem_of_seqZ Heq.
      apply (f_equal (Z.lxor v)) in Heq.
      rewrite <-!Z.lxor_assoc, !Z.lxor_nilpotent, !Z.lxor_0_l in Heq.
      apply (Z.pow_inj_r 2); lia.
    - intros x. unfold g. rewrite hypercube_pairs. fold d'.
      rewrite list_elem_of_fmap. setoid_rewrite elem_of_seqZ. split.
      + intros (j & -> & Hj). split; [lia|]. exists j. split; [lia|done].
      + intros (_ & j & Hj & ->). exists j. split; [done|lia]. }
  split_and!.
  - done.
  - intros v Hv x. rewrite (neighbors_pair g v x Hv). unfold g.
    rewrite hypercube_pairs. fold d'. rewrite Hids in Hv.
    apply elem_of_seqZ in Hv. split; [by intros [_ ?]|]. intros ?. split; [lia|done].
  - rewrite (regular_edge_count g (Z.to_nat d') Hwf Hdeg).
    rewrite <-(length_fmap node_id). fold (ids g). rewrite Hids, length_seqZ. lia.
Qed.

(** ** Ring *)

Lemma mod_diff n a b :
  0 ≤ a < n → 0 ≤ b < n →
  (b - a) `mod` n = if decide (a ≤ b) then b - a else b - a + n.
Proof.
  intros Ha Hb. case_decide.
  - apply Z.mod_small. lia.
  - symmetry. apply (Z.mod_unique _ _ (-1)); lia.
Qed.

Lemma mod_wrap n i k :
  0 ≤ i < n → 0 ≤ k < n →
  (i + k) `mod` n = if decide (i + k < n) then i + k else i + k - n.
Proof.
  intros Hi Hk. case_decide.
  - apply Z.mod_small. lia.
  - symmetry. apply (Z.mod_unique _ _ 1); lia.
Qed.

Lemma ring_steps_range n s k :
  2 ≤ n → 1 ≤ s < n → k ∈ ring_steps n s → 1 ≤ k < n.
Proof.
  intros Hn Hs. unfold ring_steps.
  repeat (case_decide || case_bool_decide); simpl;
    rewrite ?elem_of_cons, ?elem_of_nil; lia.
Qed.

Lemma ring_steps_NoDup n s :
  2 ≤ n → 1 ≤ s < n → 2 * s ≤ Z.max 2 n → NoDup (ring_steps n s).
Proof.
  intros Hn Hs H2s. unfold ring_steps.
  repeat (case_decide || case_bool_decide); simpl;
    repeat (apply NoDup_cons; split;
            [rewrite ?elem_of_cons, ?elem_of_nil; lia|]);
    apply NoDup_nil_2.
Qed.

Lemma ring_steps_pairs n skip v x :
  2 ≤ n → 0 ≤ v < n →
  pair_of v x ∈ unordered <$> edges (value (generateRing n skip)) ↔
  0 ≤ x < n ∧ (x - v) `mod` n ∈ ring_steps n (clamp_skip n skip).
Proof.
  intros Hn Hv. rewrite ring_pairs by done.
  destruct (clamp_skip_range n skip Hn) as [Hs H2s].
  set (s := clamp_skip n skip) in *.
  split.
  - intros (_ & Hx & Hcase). split; [done|]. revert Hcase.
    rewrite !(mod_diff n) by done. unfold ring_steps.
    repeat (case_decide || case_bool_decide); simpl;
      rewrite ?elem_of_cons, ?elem_of_nil; lia.
  - intros (Hx & Hk). split_and!; [lia..|]. revert Hk.
    rewrite !(mod_diff n) by done. unfold ring_steps.
    repeat (case_decide || case_bool_decide); simpl;
      rewrite ?elem_of_cons, ?elem_of_nil; lia.
Qed.

Lemma ring_degree_steps n skip v :
  2 ≤ n → v ∈ ids (value (generateRing n skip)) →
  degree (value (generateRing n skip)) v
  = length (ring_steps n (clamp_skip n skip)).
Proof.
  intros Hn Hv. set (s := clamp_skip n skip).
  pose proof (generateRing_well_formed n skip) as Hwf.
  rewrite generateRing_ids in Hv. apply elem_of_seqZ in Hv.
  destruct (clamp_skip_range n skip Hn) as [Hs H2s]. fold s in Hs, H2s.
  rewrite (degree_count _ v ((λ k, (v + k) `mod` n) <$> ring_steps n s) Hwf).
  - by rewrite length_fmap.
  - apply NoDup_fmap_2_strong; [|apply ring_steps_NoDup; lia].
    intros a b Ha%ring_steps_range Hb%ring_steps_range; [|lia..].
    rewrite !mod_wrap by lia. repeat case_decide; lia.
  - intros x. rewrite ring_steps_pairs by lia. fold s.
    rewrite list_elem_of_fmap. split.
    + intros (a & -> & Ha). pose proof (ring_steps_range n s a) as Hr.
      specialize (Hr ltac:(lia) Hs Ha).
      split; [apply Z.mod_pos_bound; lia|].
      rewrite Zminus_mod_idemp_l. replace (v + a - v) with a by lia.
      by rewrite Z.mod_small by lia.
    + intros (Hx & Hk). exists ((x - v) `mod` n). split; [|done].
      rewrite Zplus_mod_idemp_r. replace (v + (x - v)) with x by lia.
      by rewrite Z.mod_small by lia.
Qed.

(** The degrees of [generateRing]: a node of a ring with at least three
    nodes has its two neighbours on the cycle and, if the clamped skip [s]
    is at least 2, two more at [s] places either way, which are one and the
    same node when [2 s = n]; in a ring of two nodes each node has the other
    as its only neighbour.  Hence the number of edges: for [n >= 3] there
    are [n] edges without chords, [2 n] with chords, and [n + n / 2] when
    the chords join opposite nodes. *)
Theorem generateRing_degree (n skip : Z) :
  let s := clamp_skip n skip in
  let g := value (generateRing n skip) in
  let k := if decide (n ≤ 1) then 0%nat else length (ring_steps n s) in
  (∀ v, v ∈ ids g → degree g v = k) ∧
  (∀ v x, 2 ≤ n → v ∈ ids g →
     x ∈ neighbors (buildAdjacency g) v
     ↔ 0 ≤ x < n ∧ (x - v) `mod` n ∈ ring_steps n s) ∧
  2 * Z.of_nat (length (edges g)) = Z.max 0 n * Z.of_nat k ∧
  (3 ≤ n →
   Z.of_nat (length (edges g))
   = if decide (s = 1) then n else if decide (2 * s = n) then n + s else 2 * n).
Proof.
  intros s g k.
  pose proof (generateRing_well_formed n skip) as Hwf. fold g in Hwf.
  assert (Hids : ids g = seqZ 0 n) by apply generateRing_ids.
  assert (Hdeg : ∀ v, v ∈ ids g → degree g v = k).
  { intros v Hv. unfold k. case_decide as Hn.
    - unfold degree, g. by rewrite generateRing_edges_small.
    - apply ring_degree_steps; [lia|done]. }
  assert (Hcount : 2 * Z.of_nat (length (edges g)) = Z.max 0 n * Z.of_nat k).
  { rewrite (regular_edge_count g k Hwf Hdeg).
    rewrite <-(length_fmap node_id). fold (ids g). rewrite Hids, length_seqZ. lia. }
  split_and!.
  - done.
  - intros v x Hn Hv. rewrite (neighbors_pair g v x Hv). unfold g.
    rewrite Hids in Hv. apply elem_of_seqZ in Hv.
    by rewrite ring_steps_pairs by lia.
  - done.
  - intros Hn. destruct (clamp_skip_range n skip ltac:(lia)) as [Hs H2s].
    fold s in Hs, H2s. revert Hcount. unfold k, ring_steps.
    repeat (case_decide || case_bool_decide); simpl; nia.
Qed.

(** ** Torus *)

Lemma cell_inj cols r c r' c' :
  0 ≤ c < cols → 0 ≤ c' < cols → r * cols + c = r' * cols + c' →
  r = r' ∧ c = c'.
Proof.
  intros Hc Hc' Heq.
  assert (r = r'); [|subst; lia].
  destruct (Z.lt_trichotomy r r') as [?|[?|?]]; [nia|done|nia].
Qed.

Lemma cell_decode rows cols x :
  0 < cols → 0 ≤ x < rows * cols →
  ∃ r c, 0 ≤ r < rows ∧ 0 ≤ c < cols ∧ x = r * cols + c.
Proof.
  intros Hcols Hx. exists (x `div` cols), (x `mod` cols).
  pose proof (Z.div_mod x cols ltac:(lia)).
  pose proof (Z.mod_pos_bound x cols ltac:(lia)).
  split_and!; [apply Z.div_pos; lia|apply Z.div_lt_upper_bound; lia|lia..].
Qed.

Lemma torus_steps_range k a : 1 ≤ k → a ∈ torus_steps k → 1 ≤ a < k.
Proof.
  intros Hk. unfold torus_steps.
  repeat case_decide; rewrite ?elem_of_cons, ?elem_of_nil; lia.
Qed.

Lemma torus_steps_NoDup k : 1 ≤ k → NoDup (torus_steps k).
Proof.
  intros Hk. unfold torus_steps.
  repeat case_decide;
    repeat (apply NoDup_cons; split;
            [rewrite ?elem_of_cons, ?elem_of_nil; lia|]);
    apply NoDup_nil_2.
Qed.

(** The recorded pairs of [generateTorus] in coordinates. *)
Lemma torus_pairs_coord rows cols r c r2 c2 :
  0 ≤ r < rows → 0 ≤ c < cols → 0 ≤ r2 < rows → 0 ≤ c2 < cols →
  pair_of (r * cols + c) (r2 * cols + c2)
    ∈ unordered <$> edges (generateTorus rows cols) ↔
  (c = c2 ∧ (r2 - r) `mod` rows ∈ torus_steps rows) ∨
  (r = r2 ∧ (c2 - c) `mod` cols ∈ torus_steps cols).
Proof.
  intros Hr Hc Hr2 Hc2. rewrite torus_pairs by lia.
  rewrite !mod_diff by done. split.
  - intros (r' & c' & Hr' & Hc' & Hcase).
    assert (Hwr : 1 < rows → (r' + 1) `mod` rows
                  = if decide (r' + 1 < rows) then r' + 1 else r' + 1 - rows).
    { intros. apply mod_wrap; lia. }
    assert (Hwc : 1 < cols → (c' + 1) `mod` cols
                  = if decide (c' + 1 < cols) then c' + 1 else c' + 1 - cols).
    { intros. apply mod_wrap; lia. }
    destruct Hcase as [[Hrows Hp]|[Hcols Hp]].
    + rewrite Hwr in Hp by done. left.
      apply pair_of_eq in Hp as [[H1 H2]|[H1 H2]];
        apply cell_inj in H1 as [? ?]; [|try (repeat case_decide; lia)..];
        apply cell_inj in H2 as [? ?]; [|try (repeat case_decide; lia)..];
        (split; [lia|]); unfold torus_steps;
        repeat case_decide; rewrite ?elem_of_cons, ?elem_of_nil; lia.
    + rewrite Hwc in Hp by done. right.
      apply pair_of_eq in Hp as [[H1 H2]|[H1 H2]];
        apply cell_inj in H1 as [? ?]; [|try (repeat case_decide; lia)..];
        apply cell_inj in H2 as [? ?]; [|try (repeat case_decide; lia)..];
        (split; [lia|]); unfold torus_steps;
        repeat case_decide; rewrite ?elem_of_cons, ?elem_of_nil; lia.
  - intros [[-> Hk]|[-> Hk]].
    + pose proof (torus_steps_range rows _ ltac:(lia) Hk) as Hrange.
      assert (1 < rows) by (repeat case_decide; lia).
      destruct (decide ((if decide (r ≤ r2) then r2 - r else r2 - r + rows) = 1))
        as [Hone|Hother].
      * exists r, c2. split_and!; [lia..|]. left. split; [done|].
        rewrite mod_wrap by lia. f_equal. f_equal.
        repeat case_decide; lia.
      * exists r2, c2. split_and!; [lia..|]. left. split; [done|].
        rewrite mod_wrap by lia. rewrite pair_of_comm. f_equal. f_equal.
        revert Hk Hother. unfold torus_steps.
        repeat case_decide; rewrite ?elem_of_cons, ?elem_of_nil; lia.
    + pose proof (torus_steps_range cols _ ltac:(lia) Hk) as Hrange.
      assert (1 < cols) by (repeat case_decide; lia).
      destruct (decide ((if decide (c ≤ c2) then c2 - c else c2 - c + cols) = 1))
        as [Hone|Hother].
      * exists r2, c. split_and!; [lia..|]. right. split; [done|].
        rewrite mod_wrap by lia. f_equal. f_equal.
        repeat case_decide; lia.
      * exists r2, c2. split_and!; [lia..|]. right. split; [done|].
        rewrite mod_wrap by lia. rewrite pair_of_comm. f_equal. f_equal.
        revert Hk Hother. unfold torus_steps.
        repeat case_decide; rewrite ?elem_of_cons, ?elem_of_nil; lia.
Qed.

Lemma pair_range g v x :
  well_formed g → pair_of v x ∈ unordered <$> edges g →
  0 ≤ v < Z.of_nat (length (nodes g)) ∧ 0 ≤ x < Z.of_nat (length (nodes g)).
Proof.
  intros (_ & Hok & _) (e & He & Hends)%pair_edges_elem.
  rewrite Forall_forall in Hok. destruct (Hok e He) as (_ & Hs & Ht).
  destruct Hends as [[<- <-]|[<- <-]]; done.
Qed.

Lemma generateTorus_length rows cols :
  1 ≤ rows → 1 ≤ cols →
  Z.of_nat (length (nodes (generateTorus rows cols))) = rows * cols.
Proof.
  intros Hrows Hcols. rewrite generateTorus_nodes by done.
  rewrite <-(length_fmap node_id). unfold grid_nodes.
  rewrite grid_node_ids, length_seqZ by lia. nia.
Qed.

Lemma torus_degree_steps rows cols v :
  1 ≤ rows → 1 ≤ cols → v ∈ ids (generateTorus rows cols) →
  degree (generateTorus rows cols) v
  = (length (torus_steps rows) + length (torus_steps cols))%nat.
Proof.
  intros Hrows Hcols Hv. set (g := generateTorus rows cols) in *.
  pose proof (generateTorus_well_formed rows cols) as Hwf. fold g in Hwf.
  pose proof (generateTorus_length rows cols Hrows Hcols) as Hlen. fold g in Hlen.
  destruct Hwf as (Hids & Hwf2). pose proof (conj Hids Hwf2) as Hwf.
  rewrite Hids, Hlen in Hv. apply elem_of_seqZ in Hv.
  destruct (cell_decode rows cols v) as (r & c & Hr & Hc & ->); [lia..|].
  assert (Hstep : ∀ n i a, 0 ≤ i < n → 1 ≤ a < n →
    0 ≤ (i + a) `mod` n < n ∧ (i + a) `mod` n ≠ i ∧ ((i + a) `mod` n - i) `mod` n = a).
  { intros n i a Hi Ha. pose proof (Z.mod_pos_bound (i + a) n ltac:(lia)) as Hb.
    split; [done|]. rewrite mod_diff by done. rewrite mod_wrap in * by lia.
    repeat case_decide; lia. }
  assert (Hback : ∀ n i j, 0 ≤ i < n → 0 ≤ j < n → (i + (j - i) `mod` n) `mod` n = j).
  { intros n i j Hi Hj. rewrite Zplus_mod_idemp_r.
    replace (i + (j - i)) with j by lia. apply Z.mod_small. lia. }
  rewrite (degree_count g (r * cols + c)
    (((λ k, ((r + k) `mod` rows) * cols + c) <$> torus_steps rows)
     ++ ((λ k, r * cols + (c + k) `mod` cols) <$> torus_steps cols)) Hwf).
  - by rewrite length_app, !length_fmap.
  - apply NoDup_app. split_and!.
    + apply NoDup_fmap_2_strong; [|by apply torus_steps_NoDup].
      intros a b Ha%torus_steps_range Hb%torus_steps_range; [|lia..].
      intros [Heq _]%cell_inj; [|lia..].
      rewrite !mod_wrap in Heq by lia. repeat case_decide; lia.
    + intros x (a & -> & Ha%torus_steps_range)%list_elem_of_fmap; [|lia].
      intros (b & Heq & Hb%torus_steps_range)%list_elem_of_fmap; [|lia].
      destruct (Hstep rows r a Hr Ha) as (_ & Hne & _).
      destruct (Hstep cols c b Hc Hb) as (Hcb & _).
      apply cell_inj in Heq as [? _]; [done|lia..].
    + apply NoDup_fmap_2_strong; [|by apply torus_steps_NoDup].
      intros a b Ha%torus_steps_range Hb%torus_steps_range; [|lia..].
      intros Heq. assert ((c + a) `mod` cols = (c + b) `mod` cols) as Hmod by lia.
      rewrite !mod_wrap in Hmod by lia. repeat case_decide; lia.
  - intros x. split.
    + intros [Hx|Hx]%elem_of_app; apply list_elem_of_fmap in Hx as (a & -> & Ha).
      * pose proof (torus_steps_range rows a Hrows Ha) as Hra.
        destruct (Hstep rows r a Hr Hra) as (Hb & _ & Hmod).
        apply torus_pairs_coord; [lia..|]. left. split; [done|]. by rewrite Hmod.
      * pose proof (torus_steps_range cols a Hcols Ha) as Hra.
        destruct (Hstep cols c a Hc Hra) as (Hb & _ & Hmod).
        apply torus_pairs_coord; [lia..|]. right. split; [done|]. by rewrite Hmod.
    + intros Hp. pose proof (pair_range g _ _ Hwf Hp) as [_ Hx]. rewrite Hlen in Hx.
      destruct (cell_decode rows cols x) as (r2 & c2 & Hr2 & Hc2 & ->); [lia..|].
      apply (torus_pairs_coord rows cols r c r2 c2 Hr Hc Hr2 Hc2) in Hp
        as [[-> Hk]|[-> Hk]].
      * apply elem_of_app. left. apply list_elem_of_fmap.
        exists ((r2 - r) `mod` rows). split; [|done]. by rewrite Hback.
      * apply elem_of_app. right. apply list_elem_of_fmap.
        exists ((c2 - c) `mod` cols). split; [|done]. by rewrite Hback.
Qed.

(** The degrees of [generateTorus]: every node has, along each dimension,
    no neighbour when the dimension has size 1, one when it has size 2 and
    two otherwise; so in a torus with at least three rows and three columns
    every node is an end of exactly four edges and there are
    [2 * rows * cols] edges. *)
Theorem generateTorus_degree (rows cols : Z) :
  let g := generateTorus rows cols in
  let k := (length (torus_steps rows) + length (torus_steps cols))%nat in
  (∀ v, v ∈ ids g → degree g v = k) ∧
  2 * Z.of_nat (length (edges g)) = Z.of_nat (length (nodes g)) * Z.of_nat k ∧
  (3 ≤ rows → 3 ≤ cols →
   k = 4%nat ∧ Z.of_nat (length (edges g)) = 2 * rows * cols).
Proof.
  intros g k.
  pose proof (generateTorus_well_formed rows cols) as Hwf. fold g in Hwf.
  assert (Hdeg : ∀ v, v ∈ ids g → degree g v = k).
  { intros v Hv. destruct (decide (1 ≤ rows ∧ 1 ≤ cols)) as [[? ?]|Hsmall].
    - by apply torus_degree_steps.
    - unfold g in Hv. rewrite generateTorus_empty in Hv by lia.
      by apply elem_of_nil in Hv. }
  pose proof (regular_edge_count g k Hwf Hdeg) as Hcount.
  split_and!; [done..|]. intros Hrows Hcols.
  assert (Hk : k = 4%nat).
  { unfold k, torus_steps. by rewrite !decide_False by lia. }
  split; [done|]. rewrite Hk in Hcount.
  pose proof (generateTorus_length rows cols ltac:(lia) ltac:(lia)) as Hlen.
  fold g in Hlen. rewrite Hlen in Hcount. nia.
Qed.

(** * Distances and diameters of the generated graphs *)

(** ** Distances from a potential *)

(** A function [phi] that is zero only between equal nodes, that a link
    lowers by at most one and that some link lowers by one wherever it is
    positive, is the shortest-path distance. *)
Lemma shortest_by_potential (R : Z → Z → Prop) (V : Z → Prop) (phi : Z → Z → Z) :
  (∀ a b, V a → V b → 0 ≤ phi a b) →
  (∀ a b, V a → V b → phi a b = 0 ↔ a = b) →
  (∀ b u v, V b → R u v → phi u b ≤ phi v b + 1) →
  (∀ a b, V a → V b → 0 < phi a b →
     ∃ a', R a a' ∧ V a' ∧ phi a' b = phi a b - 1) →
  ∀ a b, V a → V b → shortest R a b (Z.to_nat (phi a b)).
Proof.
  intros Hpos Hzero Hlow Hstep a b Ha Hb. split.
  - remember (Z.to_nat (phi a b)) as k eqn:Hk. revert a Ha Hk.
    induction k as [|k IH]; intros a Ha Hk.
    + assert (a = b) as ->; [|constructor].
      apply (Hzero a b Ha Hb). specialize (Hpos a b Ha Hb). lia.
    + destruct (Hstep a b Ha Hb) as (a' & HR & Ha' & Hphi); [lia|].
      change (S k) with (1 + k)%nat. eapply hops_app.
      * eapply hops_S; [constructor|exact HR].
      * apply IH; [done|lia].
  - intros m Hm.
    assert (Hgen : ∀ x, hops R m a x → phi a b ≤ Z.of_nat m + phi x b).
    { clear Hm. intros x Hx. induction Hx as [|m a v w Hav IH Hvw]; [lia|].
      specialize (IH Ha). specialize (Hlow b v w Hb Hvw). lia. }
    specialize (Hgen b Hm). rewrite (proj2 (Hzero b b Hb Hb) eq_refl) in Hgen.
    specialize (Hpos a b Ha Hb). lia.
Qed.

Lemma hop_count_of_shortest g a b n :
  b ∈ ids g → shortest (linked g) a b n → hop_count g a b = Z.of_nat n.
Proof.
  intros Hb Hn.
  destruct (hop_count_spec g a b Hb) as (_ & _ & _ & Hge & Hs).
  { exists n. apply Hn. }
  rewrite <-(shortest_unique _ _ _ _ _ Hs Hn). lia.
Qed.

Lemma maxZ_eq {A} (f : A → Z) (l : list A) (init M : Z) :
  init ≤ M → (∀ x, x ∈ l → f x ≤ M) → (∃ x, x ∈ l ∧ f x = M) →
  maxZ f l init = M.
Proof.
  intros Hinit Hle (x & Hx & Heq).
  pose proof (maxZ_le f l init M Hinit Hle).
  pose proof (maxZ_upper f l init x Hx). lia.
Qed.

(** The metrics of a graph whose distances are known: the diameter is the
    largest distance and the average is taken over the known distances. *)
Lemma metrics_by_distance g (phi : Z → Z → Z) (M : Z) :
  NoDup (ids g) → (2 ≤ length (nodes g))%nat →
  (∀ a b, a ∈ ids g → b ∈ ids g →
     0 ≤ phi a b ∧ shortest (linked g) a b (Z.to_nat (phi a b))) →
  (∀ a b, a ∈ ids g → b ∈ ids g → phi a b ≤ M) →
  (∃ a b, a ∈ ids g ∧ b ∈ ids g ∧ phi a b = M) →
  calculateGraphMetrics g (buildAdjacency g)
  = Some (Metrics (Num M)
            (Frac (toFixed3 (Qmake (pair_sum phi (ids g))
                                   (Z.to_pos (pair_count (ids g))))))
            true).
Proof.
  intros Hnd Hn Hphi Hle (a0 & b0 & Ha0 & Hb0 & HM).
  assert (Hhop : ∀ a b, a ∈ ids g → b ∈ ids g → hop_count g a b = phi a b).
  { intros a b Ha Hb. destruct (Hphi a b Ha Hb) as [Hge Hs].
    rewrite (hop_count_of_shortest g a b _ Hb Hs). lia. }
  rewrite metrics_connected_value; [|done|done|].
  2:{ intros a b Ha Hb. destruct (Hphi a b Ha Hb) as [_ [Hs _]]. by eexists. }
  do 2 f_equal.
  - f_equal. apply maxZ_eq.
    + rewrite <-HM. by apply Hphi.
    + intros a Ha. apply maxZ_le.
      * rewrite <-HM. by apply Hphi.
      * intros b Hb. rewrite Hhop by done. by apply Hle.
    + exists a0. split; [done|]. apply maxZ_eq.
      * rewrite <-HM. by apply Hphi.
      * intros b Hb. rewrite Hhop by done. by apply Hle.
      * exists b0. split; [done|]. by rewrite Hhop.
  - do 3 f_equal. unfold pair_sum. apply sumZ_ext. intros a Ha.
    apply sumZ_ext. intros b Hb. case_decide; [done|]. by apply Hhop.
Qed.

(** ** Ring without chords *)

Lemma ring_links n skip u v :
  2 ≤ n → clamp_skip n skip = 1 →
  linked (value (generateRing n skip)) u v ↔
  0 ≤ u < n ∧ 0 ≤ v < n ∧ ((v - u) `mod` n = 1 ∨ (v - u) `mod` n = n - 1).
Proof.
  intros Hn Hs. set (g := value (generateRing n skip)).
  assert (Hids : ∀ x, x ∈ ids g ↔ 0 ≤ x < n).
  { intros x. unfold g. rewrite generateRing_ids, elem_of_seqZ. lia. }
  assert (Hsteps : ∀ k, k ∈ ring_steps n 1 ↔ k = 1 ∨ k = n - 1).
  { intros k. unfold ring_steps. simpl.
    case_decide; rewrite ?elem_of_app, ?elem_of_cons, ?elem_of_nil; lia. }
  split.
  - intros Hl. pose proof Hl as (Hu%Hids & Hv%Hids & _).
    apply pair_of_linked in Hl. unfold g in Hl.
    rewrite ring_steps_pairs, Hs in Hl by done.
    destruct Hl as [_ Hk%Hsteps]. done.
  - intros (Hu & Hv & Hk). apply linked_of_pair; [by apply Hids..|].
    unfold g. rewrite ring_steps_pairs, Hs by done. split; [done|].
    by apply Hsteps.
Qed.

Lemma ring_distance_shortest n skip a b :
  2 ≤ n → clamp_skip n skip = 1 → 0 ≤ a < n → 0 ≤ b < n →
  shortest (linked (value (generateRing n skip))) a b
    (Z.to_nat (ring_distance n a b)).
Proof.
  intros Hn Hs Ha Hb.
  apply (shortest_by_potential _ (λ v, 0 ≤ v < n) (ring_distance n));
    [| | | |done..]; clear a b Ha Hb; unfold ring_distance.
  - intros a b Ha Hb. rewrite !mod_diff by done. repeat case_decide; lia.
  - intros a b Ha Hb. rewrite !mod_diff by done. repeat case_decide; lia.
  - intros b u v Hb (Hu & Hv & Hk)%ring_links; [|done..]. revert Hk.
    rewrite !mod_diff by done. repeat case_decide; lia.
  - intros a b Ha Hb. rewrite !(mod_diff n a b), !(mod_diff n b a) by done.
    intros Hpos.
    set (fwd := if decide (a + 1 < n) then a + 1 else 0).
    set (bwd := if decide (a = 0) then n - 1 else a - 1).
    assert (Hfwd : 0 ≤ fwd < n) by (unfold fwd; repeat case_decide; lia).
    assert (Hbwd : 0 ≤ bwd < n) by (unfold bwd; repeat case_decide; lia).
    destruct (decide ((if decide (a ≤ b) then b - a else b - a + n)
                      ≤ (if decide (b ≤ a) then a - b else a - b + n))) as [Hle|Hgt].
    + exists fwd. split_and!; [|lia..|].
      * apply ring_links; [done..|]. split; [done|]. split; [done|].
        rewrite mod_diff by done. unfold fwd. repeat case_decide; lia.
      * rewrite !mod_diff by done. unfold fwd in *. repeat case_decide; lia.
    + exists bwd. split_and!; [|lia..|].
      * apply ring_links; [done..|]. split; [done|]. split; [done|].
        rewrite mod_diff by done. unfold bwd. repeat case_decide; lia.
      * rewrite !mod_diff by done. unfold bwd in *. repeat case_decide; lia.
Qed.

(** A ring without chords (the clamped skip is 1) of [n >= 2] nodes: the
    searches find the shorter way round between any two nodes, the reported
    diameter is [floor (n / 2)], and the reported average is the mean of
    those distances, rounded. *)
Theorem generateRing_metrics (n skip : Z) :
  2 ≤ n → clamp_skip n skip = 1 →
  let g := value (generateRing n skip) in
  (∀ a b, a ∈ ids g → b ∈ ids g →
     shortest (linked g) a b (Z.to_nat (ring_distance n a b))) ∧
  calculateGraphMetrics g (buildAdjacency g)
  = Some (Metrics (Num (n `div` 2))
            (Frac (toFixed3 (Qmake (pair_sum (ring_distance n) (seqZ 0 n))
                                   (Z.to_pos (n * (n - 1))))))
            true).
Proof.
  intros Hn Hs g.
  assert (Hids : ids g = seqZ 0 n) by apply generateRing_ids.
  assert (Hin : ∀ x, x ∈ ids g ↔ 0 ≤ x < n).
  { intros x. rewrite Hids, elem_of_seqZ. lia. }
  assert (Hshort : ∀ a b, a ∈ ids g → b ∈ ids g →
    shortest (linked g) a b (Z.to_nat (ring_distance n a b))).
  { intros a b Ha%Hin Hb%Hin. by apply ring_distance_shortest. }
  split; [done|].
  assert (Hhalf : 2 * (n `div` 2) ≤ n < 2 * (n `div` 2) + 2).
  { pose proof (Z.div_mod n 2 ltac:(lia)).
    pose proof (Z.mod_pos_bound n 2 ltac:(lia)). lia. }
  assert (Hnd : NoDup (ids g)) by (rewrite Hids; apply NoDup_seqZ).
  assert (Hlen : length (nodes g) = Z.to_nat n).
  { rewrite <-(length_fmap node_id). fold (ids g). by rewrite Hids, length_seqZ. }
  rewrite (metrics_by_distance g (ring_distance n) (n `div` 2)).
  - rewrite pair_count_NoDup by done. rewrite Hids, length_seqZ.
    by rewrite Z2Nat.id by lia.
  - done.
  - lia.
  - intros a b Ha Hb. split; [|by apply Hshort].
    apply Hin in Ha, Hb. unfold ring_distance.
    rewrite !mod_diff by done. repeat case_decide; lia.
  - intros a b Ha%Hin Hb%Hin. unfold ring_distance.
    rewrite !mod_diff by done. repeat case_decide; lia.
  - exists 0, (n `div` 2). split_and!; [apply Hin; lia..|].
    unfold ring_distance. rewrite !mod_diff by lia. repeat case_decide; lia.
Qed.

Lemma generateRing_metrics_witness :
  calculateGraphMetrics ring12 (buildAdjacency ring12)
  = Some (Metrics (Num (12 `div` 2))
            (Frac (toFixed3 (Qmake (pair_sum (ring_distance 12) (seqZ 0 12))
                                   (Z.to_pos (12 * (12 - 1))))))
            true).
Proof.
  assert (H12 : 2 ≤ 12) by lia.
  assert (Hs : clamp_skip 12 1 = 1) by reflexivity.
  exact (proj2 (generateRing_metrics 12 1 H12 Hs)).
Defined.

(** ** Mesh *)

Lemma cell_div cols r c :
  0 ≤ c < cols →
  (r * cols + c) `div` cols = r ∧ (r * cols + c) `mod` cols = c.
Proof.
  intros Hc. split.
  - symmetry. apply (Z.div_unique _ _ _ c); lia.
  - symmetry. apply (Z.mod_unique _ _ r); lia.
Qed.

(** The links of a mesh in coordinates: the cells next to each other in a
    row or in a column. *)
Lemma mesh_links_coord rows cols g r c r2 c2 :
  generateMesh rows cols = Some g →
  0 ≤ r < rows → 0 ≤ c < cols → 0 ≤ r2 < rows → 0 ≤ c2 < cols →
  linked g (r * cols + c) (r2 * cols + c2) ↔
  (r = r2 ∧ Z.abs (c - c2) = 1) ∨ (c = c2 ∧ Z.abs (r - r2) = 1).
Proof.
  intros Hg Hr Hc Hr2 Hc2. rewrite generateMesh_closed in Hg by lia.
  injection Hg as <-.
  set (g := Graph _ _).
  assert (Hids : ids g = seqZ 0 (rows * cols)) by (apply grid_node_ids; lia).
  assert (Hin : ∀ x y, 0 ≤ x < rows → 0 ≤ y < cols → x * cols + y ∈ ids g).
  { intros x y Hx Hy. rewrite Hids. apply elem_of_seqZ. nia. }
  unfold linked. split.
  - intros (_ & _ & e & He & Hends). simpl in He.
    apply mesh_edges_elem in He as (r' & c' & Hr' & Hc' & He).
    destruct He as [[Hpos ->]|[Hpos ->]]; simpl in Hends.
    + assert (r' * cols + (c' - 1) = r' * cols + c' - 1) as H3 by lia.
      rewrite <-H3 in Hends. left.
      destruct Hends as [[H1 H2]|[H1 H2]];
        apply cell_inj in H1 as [? ?]; try lia;
        apply cell_inj in H2 as [? ?]; lia.
    + assert ((r' - 1) * cols + c' = r' * cols + c' - cols) as H3 by lia.
      rewrite <-H3 in Hends. right.
      destruct Hends as [[H1 H2]|[H1 H2]];
        apply cell_inj in H1 as [? ?]; try lia;
        apply cell_inj in H2 as [? ?]; lia.
  - intros Hcase. split_and!; [by apply Hin..|]. simpl.
    setoid_rewrite mesh_edges_elem.
    destruct Hcase as [[<- Habs]|[<- Habs]].
    + destruct (decide (c2 < c)).
      * exists (Edge (r * cols + c) (r * cols + c - 1)). split.
        -- exists r, c. split_and!; [lia..|]. left. split; [lia|done].
        -- left. simpl. split; [done|]. lia.
      * exists (Edge (r * cols + c2) (r * cols + c2 - 1)). split.
        -- exists r, c2. split_and!; [lia..|]. left. split; [lia|done].
        -- right. simpl. split; [done|]. lia.
    + destruct (decide (r2 < r)).
      * exists (Edge (r * cols + c) (r * cols + c - cols)). split.
        -- exists r, c. split_and!; [lia..|]. right. split; [lia|done].
        -- left. simpl. split; [done|]. lia.
      * exists (Edge (r2 * cols + c) (r2 * cols + c - cols)). split.
        -- exists r2, c. split_and!; [lia..|]. right. split; [lia|done].
        -- right. simpl. split; [done|]. lia.
Qed.

Lemma mesh_distance_cells cols r c r2 c2 :
  0 ≤ c < cols → 0 ≤ c2 < cols →
  mesh_distance cols (r * cols + c) (r2 * cols + c2)
  = Z.abs (r - r2) + Z.abs (c - c2).
Proof.
  intros Hc Hc2. unfold mesh_distance.
  destruct (cell_div cols r c Hc) as [-> ->].
  by destruct (cell_div cols r2 c2 Hc2) as [-> ->].
Qed.

Lemma mesh_distance_shortest rows cols g a b :
  generateMesh rows cols = Some g → 1 ≤ rows → 1 ≤ cols →
  0 ≤ a < rows * cols → 0 ≤ b < rows * cols →
  shortest (linked g) a b (Z.to_nat (mesh_distance cols a b)).
Proof.
  intros Hg Hrows Hcols Ha Hb.
  assert (Hlinked : ∀ u v, linked g u v →
    0 ≤ u < rows * cols ∧ 0 ≤ v < rows * cols).
  { rewrite generateMesh_closed in Hg by lia. injection Hg as <-.
    intros u v (Hu & Hv & _).
    assert (Hids : ids (Graph (grid_nodes rows cols)
      (r ← seqZ 0 rows; c ← seqZ 0 cols; mesh_cell_edges cols r c))
      = seqZ 0 (rows * cols)) by (apply grid_node_ids; lia).
    rewrite Hids in Hu, Hv. apply elem_of_seqZ in Hu, Hv. lia. }
  apply (shortest_by_potential _ (λ v, 0 ≤ v < rows * cols) (mesh_distance cols));
    [| | | |done..]; clear a b Ha Hb.
  - intros a b _ _. unfold mesh_distance. lia.
  - intros a b Ha Hb.
    destruct (cell_decode rows cols a) as (r & c & Hr & Hc & ->); [lia..|].
    destruct (cell_decode rows cols b) as (r2 & c2 & Hr2 & Hc2 & ->); [lia..|].
    rewrite mesh_distance_cells by done. split.
    + intros Hz. assert (r = r2) as -> by lia. assert (c = c2) as -> by lia. done.
    + intros [-> ->]%cell_inj; [lia|done..].
  - intros b u v Hb Huv. destruct (Hlinked u v Huv) as [Hu Hv].
    destruct (cell_decode rows cols u) as (r & c & Hr & Hc & ->); [lia..|].
    destruct (cell_decode rows cols v) as (r2 & c2 & Hr2 & Hc2 & ->); [lia..|].
    destruct (cell_decode rows cols b) as (rb & cb & Hrb & Hcb & ->); [lia..|].
    rewrite !mesh_distance_cells by done.
    apply (mesh_links_coord rows cols g) in Huv; [|done..]. lia.
  - intros a b Ha Hb.
    destruct (cell_decode rows cols a) as (r & c & Hr & Hc & ->); [lia..|].
    destruct (cell_decode rows cols b) as (rb & cb & Hrb & Hcb & ->); [lia..|].
    rewrite mesh_distance_cells by done. intros Hpos.
    assert (Hnext : ∀ r' c', 0 ≤ r' < rows → 0 ≤ c' < cols →
      (r = r' ∧ Z.abs (c - c') = 1) ∨ (c = c' ∧ Z.abs (r - r') = 1) →
      Z.abs (r' - rb) + Z.abs (c' - cb) = Z.abs (r - rb) + Z.abs (c - cb) - 1 →
      ∃ a', linked g (r * cols + c) a' ∧ 0 ≤ a' < rows * cols ∧
            mesh_distance cols a' (rb * cols + cb)
            = Z.abs (r - rb) + Z.abs (c - cb) - 1).
    { intros r' c' Hr' Hc' Hadj Hdist. exists (r' * cols + c').
      split_and!; [by apply (mesh_links_coord rows cols g)|nia|nia|].
      by rewrite mesh_distance_cells. }
    destruct (decide (c < cb)); [apply (Hnext r (c + 1)); lia|].
    destruct (decide (cb < c)); [apply (Hnext r (c - 1)); lia|].
    destruct (decide (r < rb)); [apply (Hnext (r + 1) c); lia|].
    apply (Hnext (r - 1) c); lia.
Qed.

(** A mesh of [rows] by [cols] cells: the searches find between any two
    cells the difference of the rows plus that of the columns, the
    reported diameter is [rows + cols - 2], and the reported average is the
    mean of those distances, rounded. *)
Theorem generateMesh_metrics (rows cols : Z) :
  1 ≤ rows → 1 ≤ cols → 2 ≤ rows * cols →
  ∃ g, generateMesh rows cols = Some g ∧
    (∀ a b, a ∈ ids g → b ∈ ids g →
       shortest (linked g) a b (Z.to_nat (mesh_distance cols a b))) ∧
    calculateGraphMetrics g (buildAdjacency g)
    = Some (Metrics (Num (rows + cols - 2))
              (Frac (toFixed3
                 (Qmake (pair_sum (mesh_distance cols) (seqZ 0 (rows * cols)))
                        (Z.to_pos (rows * cols * (rows * cols - 1))))))
              true).
Proof.
  intros Hrows Hcols Hn.
  destruct (generateMesh_total rows cols) as (g & Hg & Hwf).
  exists g. split; [done|].
  assert (Hids : ids g = seqZ 0 (rows * cols)).
  { pose proof Hg as Hg'. rewrite generateMesh_closed in Hg' by lia.
    injection Hg' as <-. apply grid_node_ids; lia. }
  assert (Hin : ∀ x, x ∈ ids g ↔ 0 ≤ x < rows * cols).
  { intros x. rewrite Hids, elem_of_seqZ. lia. }
  assert (Hshort : ∀ a b, a ∈ ids g → b ∈ ids g →
    shortest (linked g) a b (Z.to_nat (mesh_distance cols a b))).
  { intros a b Ha%Hin Hb%Hin. by apply (mesh_distance_shortest rows cols g). }
  split; [done|].
  assert (Hnd : NoDup (ids g)) by (rewrite Hids; apply NoDup_seqZ).
  assert (Hlen : length (nodes g) = Z.to_nat (rows * cols)).
  { rewrite <-(length_fmap node_id). fold (ids g). by rewrite Hids, length_seqZ. }
  rewrite (metrics_by_distance g (mesh_distance cols) (rows + cols - 2)).
  - rewrite pair_count_NoDup by done. rewrite Hids, length_seqZ.
    by rewrite Z2Nat.id by lia.
  - done.
  - lia.
  - intros a b Ha Hb. split; [|by apply Hshort]. unfold mesh_distance. lia.
  - intros a b Ha%Hin Hb%Hin.
    destruct (cell_decode rows cols a) as (r & c & Hr & Hc & ->); [lia..|].
    destruct (cell_decode rows cols b) as (r2 & c2 & Hr2 & Hc2 & ->); [lia..|].
    rewrite mesh_distance_cells by done. lia.
  - exists (0 * cols + 0), ((rows - 1) * cols + (cols - 1)).
    split_and!; [apply Hin; nia..|].
    rewrite mesh_distance_cells by lia. lia.
Qed.

Lemma generateMesh_metrics_witness :
  ∃ g, generateMesh 4 5 = Some g ∧
    (∀ a b, a ∈ ids g → b ∈ ids g →
       shortest (linked g) a b (Z.to_nat (mesh_distance 5 a b))) ∧
    calculateGraphMetrics g (buildAdjacency g)
    = Some (Metrics (Num (4 + 5 - 2))
              (Frac (toFixed3
                 (Qmake (pair_sum (mesh_distance 5) (seqZ 0 (4 * 5)))
                        (Z.to_pos (4 * 5 * (4 * 5 - 1))))))
              true).
Proof. apply (generateMesh_metrics 4 5); lia. Defined.

(** ** Torus *)

Lemma ring_distance_cases n a b :
  0 ≤ a < n → 0 ≤ b < n →
  ring_distance n a b
  = Z.min (if decide (a ≤ b) then b - a else b - a + n)
          (if decide (b ≤ a) then a - b else a - b + n).
Proof. intros Ha Hb. unfold ring_distance. by rewrite !mod_diff. Qed.

Lemma torus_distance_cells rows cols r c r2 c2 :
  0 ≤ c < cols → 0 ≤ c2 < cols →
  torus_distance rows cols (r * cols + c) (r2 * cols + c2)
  = ring_distance rows r r2 + ring_distance cols c c2.
Proof.
  intros Hc Hc2. unfold torus_distance.
  destruct (cell_div cols r c Hc) as [-> ->].
  by destruct (cell_div cols r2 c2 Hc2) as [-> ->].
Qed.

(** The links of a torus in coordinates. *)
Lemma torus_links_coord rows cols r c r2 c2 :
  0 ≤ r < rows → 0 ≤ c < cols → 0 ≤ r2 < rows → 0 ≤ c2 < cols →
  linked (generateTorus rows cols) (r * cols + c) (r2 * cols + c2) ↔
  (c = c2 ∧ (r2 - r) `mod` rows ∈ torus_steps rows) ∨
  (r = r2 ∧ (c2 - c) `mod` cols ∈ torus_steps cols).
Proof.
  intros Hr Hc Hr2 Hc2. rewrite <-torus_pairs_coord by done.
  set (g := generateTorus rows cols).
  assert (Hids : ids g = seqZ 0 (rows * cols)).
  { unfold ids, g. rewrite generateTorus_nodes by lia. apply grid_node_ids; lia. }
  split; [apply pair_of_linked|].
  apply linked_of_pair; rewrite Hids; apply elem_of_seqZ; nia.
Qed.

Lemma torus_steps_elem k a :
  1 ≤ k → a ∈ torus_steps k ↔ 2 ≤ k ∧ (a = 1 ∨ a = k - 1).
Proof.
  intros Hk. unfold torus_steps.
  repeat case_decide; rewrite ?elem_of_cons, ?elem_of_nil; lia.
Qed.

Lemma torus_distance_shortest rows cols a b :
  1 ≤ rows → 1 ≤ cols → 0 ≤ a < rows * cols → 0 ≤ b < rows * cols →
  shortest (linked (generateTorus rows cols)) a b
    (Z.to_nat (torus_distance rows cols a b)).
Proof.
  intros Hrows Hcols Ha Hb. set (g := generateTorus rows cols).
  assert (Hlinked : ∀ u v, linked g u v →
    0 ≤ u < rows * cols ∧ 0 ≤ v < rows * cols).
  { assert (Hids : ids g = seqZ 0 (rows * cols)).
    { unfold ids, g. rewrite generateTorus_nodes by lia. apply grid_node_ids; lia. }
    intros u v (Hu & Hv & _). rewrite Hids in Hu, Hv.
    apply elem_of_seqZ in Hu, Hv. lia. }
  apply (shortest_by_potential _ (λ v, 0 ≤ v < rows * cols)
           (torus_distance rows cols)); [| | | |done..]; clear a b Ha Hb.
  - intros a b Ha Hb.
    destruct (cell_decode rows cols a) as (r & c & Hr & Hc & ->); [lia..|].
    destruct (cell_decode rows cols b) as (r2 & c2 & Hr2 & Hc2 & ->); [lia..|].
    rewrite torus_distance_cells, !ring_distance_cases by done.
    repeat case_decide; lia.
  - intros a b Ha Hb.
    destruct (cell_decode rows cols a) as (r & c & Hr & Hc & ->); [lia..|].
    destruct (cell_decode rows cols b) as (r2 & c2 & Hr2 & Hc2 & ->); [lia..|].
    rewrite torus_distance_cells, !ring_distance_cases by done. split.
    + intros Hz. assert (r = r2) as -> by (repeat case_decide; lia).
      assert (c = c2) as -> by (repeat case_decide; lia). done.
    + intros [-> ->]%cell_inj; [|done..]. repeat case_decide; lia.
  - intros b u v Hb Huv. destruct (Hlinked u v Huv) as [Hu Hv].
    destruct (cell_decode rows cols u) as (r & c & Hr & Hc & ->); [lia..|].
    destruct (cell_decode rows cols v) as (r2 & c2 & Hr2 & Hc2 & ->); [lia..|].
    destruct (cell_decode rows cols b) as (rb & cb & Hrb & Hcb & ->); [lia..|].
    rewrite !torus_distance_cells, !ring_distance_cases by done.
    apply torus_links_coord in Huv; [|done..].
    rewrite !torus_steps_elem, !mod_diff in Huv by done.
    destruct Huv as [[-> [? Hk]]|[-> [? Hk]]]; repeat case_decide; lia.
  - intros a b Ha Hb.
    destruct (cell_decode rows cols a) as (r & c & Hr & Hc & ->); [lia..|].
    destruct (cell_decode rows cols b) as (rb & cb & Hrb & Hcb & ->); [lia..|].
    rewrite torus_distance_cells by done. intros Hpos.
    assert (Hnext : ∀ r' c', 0 ≤ r' < rows → 0 ≤ c' < cols →
      (c = c' ∧ 2 ≤ rows ∧ ((r' - r) `mod` rows = 1 ∨ (r' - r) `mod` rows = rows - 1))
      ∨ (r = r' ∧ 2 ≤ cols ∧
         ((c' - c) `mod` cols = 1 ∨ (c' - c) `mod` cols = cols - 1)) →
      ring_distance rows r' rb + ring_distance cols c' cb
      = ring_distance rows r rb + ring_distance cols c cb - 1 →
      ∃ a', linked g (r * cols + c) a' ∧ 0 ≤ a' < rows * cols ∧
            torus_distance rows cols a' (rb * cols + cb)
            = ring_distance rows r rb + ring_distance cols c cb - 1).
    { intros r' c' Hr' Hc' Hadj Hdist. exists (r' * cols + c').
      split_and!; [|nia|nia|by rewrite torus_distance_cells].
      apply torus_links_coord; [done..|]. rewrite !torus_steps_elem by done.
      tauto. }
    revert Hpos Hnext. rewrite !(ring_distance_cases rows r rb) by done.
    rewrite !(ring_distance_cases cols c cb) by done. intros Hpos Hnext.
    set (cf := if decide (c + 1 < cols) then c + 1 else 0).
    set (cb' := if decide (c = 0) then cols - 1 else c - 1).
    set (rf := if decide (r + 1 < rows) then r + 1 else 0).
    set (rb' := if decide (r = 0) then rows - 1 else r - 1).
    assert (Hcf : 0 ≤ cf < cols) by (unfold cf; destruct (decide (c + 1 < cols)); lia).
    assert (Hcb' : 0 ≤ cb' < cols) by (unfold cb'; destruct (decide (c = 0)); lia).
    assert (Hrf : 0 ≤ rf < rows) by (unfold rf; destruct (decide (r + 1 < rows)); lia).
    assert (Hrb' : 0 ≤ rb' < rows) by (unfold rb'; destruct (decide (r = 0)); lia).
    destruct (decide (c = cb)) as [Hceq|Hcne].
    + destruct (decide ((if decide (r ≤ rb) then rb - r else rb - r + rows)
                        ≤ (if decide (rb ≤ r) then r - rb else r - rb + rows))).
      * apply (Hnext rf c); [done..| |].
        -- left. rewrite !mod_diff by done. unfold rf.
           repeat case_decide; lia.
        -- rewrite !ring_distance_cases by done. unfold rf in *.
           repeat case_decide; lia.
      * apply (Hnext rb' c); [done..| |].
        -- left. rewrite !mod_diff by done. unfold rb'.
           repeat case_decide; lia.
        -- rewrite !ring_distance_cases by done. unfold rb' in *.
           repeat case_decide; lia.
    + destruct (decide ((if decide (c ≤ cb) then cb - c else cb - c + cols)
                        ≤ (if decide (cb ≤ c) then c - cb else c - cb + cols))).
      * apply (Hnext r cf); [done..| |].
        -- right. rewrite !mod_diff by done. unfold cf.
           repeat case_decide; lia.
        -- rewrite !ring_distance_cases by done. unfold cf in *.
           repeat case_decide; lia.
      * apply (Hnext r cb'); [done..| |].
        -- right. rewrite !mod_diff by done. unfold cb'.
           repeat case_decide; lia.
        -- rewrite !ring_distance_cases by done. unfold cb' in *.
           repeat case_decide; lia.
Qed.

(** A torus of [rows] by [cols] cells: the searches find between any two
    cells the shorter way round the rows plus the shorter way round the
    columns, the reported diameter is
    [floor (rows / 2) + floor (cols / 2)], and the reported average is the
    mean of those distances, rounded. *)
Theorem generateTorus_metrics (rows cols : Z) :
  1 ≤ rows → 1 ≤ cols → 2 ≤ rows * cols →
  let g := generateTorus rows cols in
  (∀ a b, a ∈ ids g → b ∈ ids g →
     shortest (linked g) a b (Z.to_nat (torus_distance rows cols a b))) ∧
  calculateGraphMetrics g (buildAdjacency g)
  = Some (Metrics (Num (rows `div` 2 + cols `div` 2))
            (Frac (toFixed3
               (Qmake (pair_sum (torus_distance rows cols) (seqZ 0 (rows * cols)))
                      (Z.to_pos (rows * cols * (rows * cols - 1))))))
            true).
Proof.
  intros Hrows Hcols Hn g.
  assert (Hids : ids g = seqZ 0 (rows * cols)).
  { unfold ids, g. rewrite generateTorus_nodes by lia. apply grid_node_ids; lia. }
  assert (Hin : ∀ x, x ∈ ids g ↔ 0 ≤ x < rows * cols).
  { intros x. rewrite Hids, elem_of_seqZ. lia. }
  assert (Hshort : ∀ a b, a ∈ ids g → b ∈ ids g →
    shortest (linked g) a b (Z.to_nat (torus_distance rows cols a b))).
  { intros a b Ha%Hin Hb%Hin. by apply torus_distance_shortest. }
  split; [done|].
  assert (Hhalf : ∀ k, 1 ≤ k → 2 * (k `div` 2) ≤ k < 2 * (k `div` 2) + 2).
  { intros k Hk. pose proof (Z.div_mod k 2 ltac:(lia)).
    pose proof (Z.mod_pos_bound k 2 ltac:(lia)). lia. }
  pose proof (Hhalf rows Hrows) as Hhr. pose proof (Hhalf cols Hcols) as Hhc.
  assert (Hnd : NoDup (ids g)) by (rewrite Hids; apply NoDup_seqZ).
  assert (Hlen : length (nodes g) = Z.to_nat (rows * cols)).
  { rewrite <-(length_fmap node_id). fold (ids g). by rewrite Hids, length_seqZ. }
  rewrite (metrics_by_distance g (torus_distance rows cols)
             (rows `div` 2 + cols `div` 2)).
  - rewrite pair_count_NoDup by done. rewrite Hids, length_seqZ.
    by rewrite Z2Nat.id by lia.
  - done.
  - lia.
  - intros a b Ha Hb. split; [|by apply Hshort]. apply Hin in Ha, Hb.
    destruct (cell_decode rows cols a) as (r & c & Hr & Hc & ->); [lia..|].
    destruct (cell_decode rows cols b) as (r2 & c2 & Hr2 & Hc2 & ->); [lia..|].
    rewrite torus_distance_cells, !ring_distance_cases by done.
    repeat case_decide; lia.
  - intros a b Ha%Hin Hb%Hin.
    destruct (cell_decode rows cols a) as (r & c & Hr & Hc & ->); [lia..|].
    destruct (cell_decode rows cols b) as (r2 & c2 & Hr2 & Hc2 & ->); [lia..|].
    rewrite torus_distance_cells, !ring_distance_cases by done.
    repeat case_decide; lia.
  - exists (0 * cols + 0), ((rows `div` 2) * cols + cols `div` 2).
    split_and!; [apply Hin; nia..|].
    rewrite torus_distance_cells, !ring_distance_cases by lia.
    repeat case_decide; lia.
Qed.

Lemma generateTorus_metrics_witness :
  let g := generateTorus 4 5 in
  (∀ a b, a ∈ ids g → b ∈ ids g →
     shortest (linked g) a b (Z.to_nat (torus_distance 4 5 a b))) ∧
  calculateGraphMetrics g (buildAdjacency g)
  = Some (Metrics (Num (4 `div` 2 + 5 `div` 2))
            (Frac (toFixed3
               (Qmake (pair_sum (torus_distance 4 5) (seqZ 0 (4 * 5)))
                      (Z.to_pos (4 * 5 * (4 * 5 - 1))))))
            true).
Proof. apply (generateTorus_metrics 4 5); lia. Defined.

(** ** Hypercube *)

Lemma popcount_range k x : 0 ≤ popcount k x ≤ Z.of_nat k.
Proof. induction k as [|k IH]; simpl popcount; [lia|]. case_match; lia. Qed.

Lemma popcount_ext k x y :
  (∀ i, 0 ≤ i < Z.of_nat k → Z.testbit x i = Z.testbit y i) →
  popcount k x = popcount k y.
Proof.
  induction k as [|k IH]; intros Hxy; [done|]. simpl popcount.
  rewrite IH by (intros i Hi; apply Hxy; lia). by rewrite Hxy by lia.
Qed.

Lemma popcount_zero k x :
  popcount k x = 0 ↔ ∀ i, 0 ≤ i < Z.of_nat k → Z.testbit x i = false.
Proof.
  induction k as [|k IH]; simpl popcount.
  - split; [intros _ i Hi; lia|done].
  - pose proof (popcount_range k x). split.
    + intros Hz i Hi. destruct (decide (i = Z.of_nat k)) as [->|Hne].
      * destruct (Z.testbit x (Z.of_nat k)); [lia|done].
      * apply IH; [|lia]. destruct (Z.testbit x (Z.of_nat k)); lia.
    + intros Hbits. rewrite (Hbits (Z.of_nat k)) by lia.
      rewrite (proj2 IH); [done|]. intros i Hi. apply Hbits. lia.
Qed.

Lemma popcount_pos k x :
  0 < popcount k x → ∃ j, 0 ≤ j < Z.of_nat k ∧ Z.testbit x j = true.
Proof.
  induction k as [|k IH]; simpl popcount; [lia|].
  destruct (Z.testbit x (Z.of_nat k)) eqn:Hbit.
  - intros _. exists (Z.of_nat k). split; [lia|done].
  - intros Hpos. destruct IH as (j & Hj & Hbitj); [lia|].
    exists j. split; [lia|done].
Qed.

(** Flipping one of the low [k] bits changes their count by one. *)
Lemma popcount_flip k x j :
  0 ≤ j < Z.of_nat k →
  popcount k (Z.lxor x (2 ^ j))
  = popcount k x + (if Z.testbit x j then -1 else 1).
Proof.
  induction k as [|k IH]; intros Hj; [lia|]. simpl popcount.
  rewrite Z.lxor_spec, Z.pow2_bits_eqb by lia.
  destruct (decide (j = Z.of_nat k)) as [->|Hne].
  - rewrite Z.eqb_refl.
    rewrite (popcount_ext k (Z.lxor x (2 ^ Z.of_nat k)) x).
    + destruct (Z.testbit x (Z.of_nat k)); simpl; lia.
    + intros i Hi. rewrite Z.lxor_spec, Z.pow2_bits_eqb by lia.
      rewrite (proj2 (Z.eqb_neq _ _)) by lia. apply xorb_false_r.
  - rewrite IH by lia. rewrite (proj2 (Z.eqb_neq _ _)) by lia.
    rewrite xorb_false_r. lia.
Qed.

Lemma popcount_ones k : popcount k (2 ^ Z.of_nat k - 1) = Z.of_nat k.
Proof.
  rewrite Z.sub_1_r, <-Z.ones_equiv.
  assert (Hgen : ∀ m, (m ≤ k)%nat → popcount m (Z.ones (Z.of_nat k)) = Z.of_nat m).
  { induction m as [|m IH]; intros Hm; [done|]. simpl popcount.
    rewrite IH by lia. rewrite Z.ones_spec_low by lia. lia. }
  by apply Hgen.
Qed.

Lemma hamming_flip k a b j :
  0 ≤ j < Z.of_nat k →
  hamming k (Z.lxor a (2 ^ j)) b
  = hamming k a b + (if Z.testbit (Z.lxor a b) j then -1 else 1).
Proof.
  intros Hj. unfold hamming. rewrite <-popcount_flip by done. f_equal.
  rewrite !Z.lxor_assoc. f_equal. apply Z.lxor_comm.
Qed.

(** The links of a hypercube: the ids that differ in one bit. *)
Lemma hypercube_links d u v :
  let d' := clamp_dimension d in
  linked (value (generateHypercube d)) u v ↔
  0 ≤ u < 2 ^ d' ∧ ∃ j, 0 ≤ j < d' ∧ v = Z.lxor u (2 ^ j).
Proof.
  intros d'. set (g := value (generateHypercube d)).
  assert (Hd' : 0 ≤ d' ≤ 10) by (unfold d', clamp_dimension; lia).
  assert (Hids : ∀ x, x ∈ ids g ↔ 0 ≤ x < 2 ^ d').
  { intros x. unfold g. rewrite generateHypercube_ids, elem_of_seqZ. fold d'. lia. }
  pose proof (hypercube_pairs d u v) as Hp. fold d' g in Hp. rewrite <-Hp.
  split; [apply pair_of_linked|]. intros Hpair.
  pose proof Hpair as (Hu & j & Hj & ->)%Hp.
  apply linked_of_pair; [by apply Hids| |done].
  apply Hids. rewrite <-Z.shiftl_1_l. by apply lxor_bit_range.
Qed.

Lemma hamming_shortest d a b :
  let d' := clamp_dimension d in
  0 ≤ a < 2 ^ d' → 0 ≤ b < 2 ^ d' →
  shortest (linked (value (generateHypercube d))) a b
    (Z.to_nat (hamming (Z.to_nat d') a b)).
Proof.
  intros d' Ha Hb.
  assert (Hd' : 0 ≤ d' ≤ 10) by (unfold d', clamp_dimension; lia).
  set (k := Z.to_nat d'). assert (Hk : Z.of_nat k = d') by lia.
  apply (shortest_by_potential _ (λ v, 0 ≤ v < 2 ^ d') (hamming k));
    [| | | |done..]; clear a b Ha Hb.
  - intros a b _ _. apply popcount_range.
  - intros a b Ha Hb. unfold hamming. rewrite popcount_zero. split.
    + intros Hbits. apply Z.bits_inj'. intros i Hi.
      destruct (decide (i < d')) as [Hlt|Hge].
      * specialize (Hbits i ltac:(lia)). rewrite Z.lxor_spec in Hbits.
        by apply xorb_eq.
      * rewrite <-(Z2Nat.id i) by done.
        rewrite (testbit_above a k), (testbit_above b k);
          [done|rewrite ?Hk; lia..].
    + intros -> i _. by rewrite Z.lxor_nilpotent, Z.bits_0.
  - intros b u v Hb (Hu & j & Hj & ->)%hypercube_links.
    rewrite hamming_flip by lia. case_match; lia.
  - intros a b Ha Hb Hpos.
    assert (∃ j, 0 ≤ j < d' ∧ Z.testbit (Z.lxor a b) j = true) as (j & Hj & Hbit).
    { destruct (popcount_pos k (Z.lxor a b) Hpos) as (j & Hj & Hbit).
      exists j. split; [lia|done]. }
    exists (Z.lxor a (2 ^ j)). split; [|split].
    + apply hypercube_links. fold d'. split; [done|]. by exists j.
    + rewrite <-Z.shiftl_1_l. by apply lxor_bit_range.
    + rewrite hamming_flip by lia. rewrite Hbit. lia.
Qed.

(** A hypercube of clamped dimension [d' >= 1]: the searches find between
    any two nodes the number of bits in which their ids differ, the reported
    diameter is [d'], and the reported average is the mean of those
    distances, rounded. *)
Theorem generateHypercube_metrics (d : Z) :
  1 ≤ d →
  let d' := clamp_dimension d in
  let g := value (generateHypercube d) in
  (∀ a b, a ∈ ids g → b ∈ ids g →
     shortest (linked g) a b (Z.to_nat (hamming (Z.to_nat d') a b))) ∧
  calculateGraphMetrics g (buildAdjacency g)
  = Some (Metrics (Num d')
            (Frac (toFixed3
               (Qmake (pair_sum (hamming (Z.to_nat d')) (seqZ 0 (2 ^ d')))
                      (Z.to_pos (2 ^ d' * (2 ^ d' - 1))))))
            true).
Proof.
  intros Hd d' g.
  assert (Hd' : 1 ≤ d' ≤ 10) by (unfold d', clamp_dimension; lia).
  assert (Hpow : 2 ≤ 2 ^ d').
  { change 2 with (2 ^ 1) at 1. apply Z.pow_le_mono_r; lia. }
  assert (Hids : ids g = seqZ 0 (2 ^ d')) by apply generateHypercube_ids.
  assert (Hin : ∀ x, x ∈ ids g ↔ 0 ≤ x < 2 ^ d').
  { intros x. rewrite Hids, elem_of_seqZ. lia. }
  assert (Hshort : ∀ a b, a ∈ ids g → b ∈ ids g →
    shortest (linked g) a b (Z.to_nat (hamming (Z.to_nat d') a b))).
  { intros a b Ha%Hin Hb%Hin. by apply hamming_shortest. }
  split; [done|].
  assert (Hnd : NoDup (ids g)) by (rewrite Hids; apply NoDup_seqZ).
  assert (Hlen : length (nodes g) = Z.to_nat (2 ^ d')).
  { rewrite <-(length_fmap node_id). fold (ids g). by rewrite Hids, length_seqZ. }
  rewrite (metrics_by_distance g (hamming (Z.to_nat d')) d').
  - rewrite pair_count_NoDup by done. rewrite Hids, length_seqZ.
    by rewrite Z2Nat.id by lia.
  - done.
  - lia.
  - intros a b Ha Hb. split; [|by apply Hshort]. apply popcount_range.
  - intros a b _ _. pose proof (popcount_range (Z.to_nat d') (Z.lxor a b)).
    unfold hamming. lia.
  - exists 0, (2 ^ d' - 1). split_and!; [apply Hin; lia..|].
    unfold hamming. rewrite Z.lxor_0_l.
    pose proof (popcount_ones (Z.to_nat d')) as Hones.
    rewrite Z2Nat.id in Hones by lia. done.
Qed.

Lemma generateHypercube_metrics_witness :
  let g := value (generateHypercube 3) in
  (∀ a b, a ∈ ids g → b ∈ ids g →
     shortest (linked g) a b (Z.to_nat (hamming 3 a b))) ∧
  calculateGraphMetrics g (buildAdjacency g)
  = Some (Metrics (Num 3)
            (Frac (toFixed3 (Qmake (pair_sum (hamming 3) (seqZ 0 8))
                                   (Z.to_pos (8 * (8 - 1))))))
            true).
Proof. apply (generateHypercube_metrics 3). lia. Defined.

(** * The generators compared *)

(** [generateHypercube] clamps its dimension into [[0, 10]]: it returns
    the graph that it returns for the clamped dimension, warns exactly when
    the dimension is above 10, naming the dimension it was given, and is
    silent on a dimension in range or below it. *)
Theorem generateHypercube_clamps (d : Z) :
  value (generateHypercube d) = value (generateHypercube (clamp_dimension d)) ∧
  warned (generateHypercube d)
  = (if decide (10 < d) then [cube_warning d] else []) ∧
  warned (generateHypercube (clamp_dimension d)) = [].
Proof.
  assert (Hd1 : ∀ x, (if bool_decide (10 < (if bool_decide (x < 0) then 0 else x))
                      then 10 else if bool_decide (x < 0) then 0 else x)
                     = clamp_dimension x).
  { intros x. unfold clamp_dimension. repeat case_bool_decide; lia. }
  assert (Hcc : clamp_dimension (clamp_dimension d) = clamp_dimension d)
    by (unfold clamp_dimension; lia).
  unfold generateHypercube. cbv zeta. cbn [value warned].
  rewrite !Hd1, Hcc. split; [done|].
  unfold clamp_dimension.
  split; repeat case_bool_decide; repeat case_decide; try done; lia.
Qed.

(** A mesh is its torus without the links round the edge of the grid:
    [generateMesh] and [generateTorus] return the same nodes for the same
    parameters, and every two cells that the mesh links the torus links
    too. *)
Theorem mesh_within_torus (rows cols : Z) :
  ∃ g, generateMesh rows cols = Some g ∧
       nodes g = nodes (generateTorus rows cols) ∧
       (∀ a b, linked g a b → linked (generateTorus rows cols) a b) ∧
       (Z.of_nat (length (edges g))
        ≤ Z.of_nat (length (edges (generateTorus rows cols)))).
Proof.
  destruct (decide (1 ≤ rows ∧ 1 ≤ cols)) as [[Hrows Hcols]|Hsmall].
  2:{ exists (Graph [] []). rewrite generateMesh_empty, generateTorus_empty by lia.
      split_and!; try done. }
  destruct (generateMesh_total rows cols) as (g & Hg & Hwf).
  exists g. split; [done|].
  assert (Hnodes : nodes g = nodes (generateTorus rows cols)).
  { pose proof Hg as Hg'. rewrite generateMesh_closed in Hg' by done.
    injection Hg' as <-. by rewrite generateTorus_nodes. }
  assert (Hids : ∀ x, x ∈ ids g ↔ 0 ≤ x < rows * cols).
  { intros x. unfold ids. rewrite Hnodes, generateTorus_nodes by done.
    unfold grid_nodes. rewrite grid_node_ids, elem_of_seqZ by lia. lia. }
  assert (Hsub : ∀ a b, linked g a b → linked (generateTorus rows cols) a b).
  { intros a b Hab. pose proof Hab as (Ha%Hids & Hb%Hids & _).
    destruct (cell_decode rows cols a) as (r & c & Hr & Hc & ->); [lia..|].
    destruct (cell_decode rows cols b) as (r2 & c2 & Hr2 & Hc2 & ->); [lia..|].
    apply (mesh_links_coord rows cols g) in Hab; [|done..].
    apply torus_links_coord; [done..|].
    rewrite !torus_steps_elem, !mod_diff by done.
    destruct Hab as [[-> Habs]|[-> Habs]]; [right|left];
      (split; [done|]); repeat case_decide; lia. }
  split_and!; [done..|].
  rewrite <-(length_fmap unordered (edges g)).
  rewrite <-(length_fmap unordered (edges (generateTorus rows cols))).
  apply inj_le, submseteq_length, NoDup_submseteq; [apply Hwf|].
  intros p (e & -> & He)%list_elem_of_fmap.
  destruct e as [s t]. change (unordered (Edge s t)) with (pair_of s t).
  apply pair_of_linked, Hsub. destruct Hwf as (Hids' & Hok & _).
  rewrite Forall_forall in Hok. destruct (Hok _ He) as (_ & Hs & Ht). simpl in *.
  split_and!; [rewrite Hids', elem_of_seqZ; lia..|].
  exists (Edge s t). split; [done|]. by left.
Qed.
